(** * microproxy: authentication parsers, forward-proxy resolver, health tracker

    A shallow embedding of the Go sources of microproxy:
    - [ProxyHealth] and its three methods (proxyhealth.go);
    - the Proxy-Authorization parsers [getBasicAuthData] and
      [getDigestAuthData] and the 407 builders (auth handlers file);
    - [findMatchingProxy], [findMatchingProxyString], [connectDialWrapper],
      [checkBindAddressOK] and the digest actor of the main file.

    Go values are modelled as follows.  A Go [string] is a Rocq [string]
    (a sequence of 8-bit characters, so [String.length] is Go's [len]).
    A Go [int] is a [Z] that wraps at 64 bits.  A nil-able pointer is an
    [option].  A run-time panic is the [Panic] outcome of [result].  A Go
    [map[string]T] is a [gmap string T].  Functions of the Go standard
    library and of goproxy that the sources call are fields of the
    interface [GoLib]; every theorem holds for each implementation of it. *)

From Stdlib Require Import ZArith String Ascii List Lia Sorting.Sorted Permutation.
From stdpp Require Import gmap strings list fin_maps sorting.
From Stdlib Require DecimalString DecimalZ.

Open Scope string_scope.
Open Scope Z_scope.

(** ** Outcomes of Go code that may panic *)

Inductive result (A : Type) : Type :=
| Ok (a : A)
| Panic (msg : string).
Arguments Ok {A} a.
Arguments Panic {A} msg.

#[global] Instance result_ret : MRet result := fun A a => Ok a.

#[global] Instance result_bind : MBind result := fun A B k r =>
  match r with
  | Ok a => k a
  | Panic msg => Panic msg
  end.

Definition nil_deref : string := "invalid memory address or nil pointer dereference".

(** ** Go's [int]: 64-bit two's complement *)

Definition int_min : Z := - 2 ^ 63.
Definition int_max : Z := 2 ^ 63 - 1.

Definition int_wrap (z : Z) : Z := (z + 2 ^ 63) mod 2 ^ 64 - 2 ^ 63.

Definition in_int (z : Z) : Prop := int_min <= z <= int_max.

(** ** proxyhealth.go *)

Record ProxyHealth : Type := mkProxyHealth {
  Healthy : bool;
  FailureCount : Z;
  FailureLimit : Z
}.

(** [p.FailureCount++; if p.FailureCount >= p.FailureLimit { p.Healthy = false }] *)
Definition RecordFailure (p : ProxyHealth) : ProxyHealth :=
  let count := int_wrap (FailureCount p + 1) in
  {| Healthy := if count >=? FailureLimit p then false else Healthy p;
     FailureCount := count;
     FailureLimit := FailureLimit p |}.

(** [p.Healthy = true; p.FailureCount = 0] *)
Definition RecordSuccess (p : ProxyHealth) : ProxyHealth :=
  {| Healthy := true;
     FailureCount := 0;
     FailureLimit := FailureLimit p |}.

Definition IsHealthy (p : ProxyHealth) : bool := Healthy p.

(** Every method takes the embedded mutex for its whole body, so any
    interleaving of concurrent callers is a sequence of whole calls. *)
Inductive HealthCall : Type :=
| CallRecordFailure
| CallRecordSuccess
| CallIsHealthy.

Definition health_step (p : ProxyHealth) (c : HealthCall) : ProxyHealth :=
  match c with
  | CallRecordFailure => RecordFailure p
  | CallRecordSuccess => RecordSuccess p
  | CallIsHealthy => p
  end.

Definition health_run (p : ProxyHealth) (cs : list HealthCall) : ProxyHealth :=
  fold_left health_step cs p.

(** ** The string functions of Go's [strings] package that the sources use *)

Definition dquote : ascii := Eval cbv in ascii_of_nat 34.
Definition newline : ascii := Eval cbv in ascii_of_nat 10.
Definition space : ascii := " "%char.
Definition comma : ascii := ","%char.
Definition colon : ascii := ":"%char.
Definition equals : ascii := "="%char.

(** [before, after, found := strings.Cut(s, string(sep))] *)
Fixpoint cut (sep : ascii) (s : string) : option (string * string) :=
  match s with
  | EmptyString => None
  | String a s' =>
      if Ascii.eqb a sep then Some (EmptyString, s')
      else match cut sep s' with
           | Some (l, r) => Some (String a l, r)
           | None => None
           end
  end.

(** [strings.SplitN(s, string(sep), 2)]: one element when [sep] does not
    occur in [s], otherwise the text before and after its first occurrence. *)
Definition SplitN2 (s : string) (sep : ascii) : list string :=
  match cut sep s with
  | Some (l, r) => [l; r]
  | None => [s]
  end.

Fixpoint TrimLeft (c : ascii) (s : string) : string :=
  match s with
  | EmptyString => EmptyString
  | String a s' => if Ascii.eqb a c then TrimLeft c s' else s
  end.

Fixpoint TrimRight (c : ascii) (s : string) : string :=
  match s with
  | EmptyString => EmptyString
  | String a s' =>
      match TrimRight c s' with
      | EmptyString => if Ascii.eqb a c then EmptyString else String a EmptyString
      | t => String a t
      end
  end.

(** [strings.Trim(s, string(c))] *)
Definition Trim (s : string) (c : ascii) : string := TrimRight c (TrimLeft c s).

(** [strings.HasSuffix]:
    [len(s) >= len(suffix) && s[len(s)-len(suffix):] == suffix] *)
Definition HasSuffix (s suffix : string) : bool :=
  (String.length suffix <=? String.length s)%nat
  && String.eqb (substring (String.length s - String.length suffix)
                           (String.length suffix) s) suffix.

(** The slice expression [h[s:e]] for [s <= e <= len(h)]. *)
Definition slice (h : string) (s e : nat) : string := substring s (e - s) h.

(** [len(s)] as a Go [int] *)
Definition len (s : string) : Z := Z.of_nat (String.length s).

Definition quoted (s : string) : string :=
  String dquote (s ++ String dquote EmptyString).

(** ** The library functions the sources call

    [url.Parse] yields [None] where Go returns a nil URL and an error;
    [URL_User_String u] is [u.User.String()] and [URL_User_Username u] is
    [u.User.Username()] (both are the empty string for a nil [User]);
    [url_QueryUnescape] and [base64_DecodeString] yield [None] on error;
    [net_ParseIP] yields [None] for Go's nil [IP], as do [IP_To4] and
    [IP_To16]. *)
Class GoLib : Type := {
  URL : Type;
  url_Parse : string -> option URL;
  URL_String : URL -> string;
  URL_User_String : URL -> string;
  URL_User_Username : URL -> string;
  url_QueryUnescape : string -> option string;
  base64_EncodeToString : string -> string;
  base64_DecodeString : string -> option string;
  IP : Type;
  net_ParseIP : string -> option IP;
  IP_To4 : IP -> option IP;
  IP_To16 : IP -> option IP
}.

(** ** net/http requests and responses, as far as the sources touch them *)

Abbreviation Header := (gmap string (list string)).

(** [h.Get(key)]: the first value stored under [key], or the empty string.
    The two keys the sources use are already in canonical MIME form. *)
Definition Header_Get (h : Header) (key : string) : string :=
  match h !! key with
  | Some (v :: _) => v
  | _ => EmptyString
  end.

Definition Header_Del (h : Header) (key : string) : Header := delete key h.

Definition Header_Set (h : Header) (key value : string) : Header :=
  <[key := [value]]> h.

Record Request : Type := mkRequest {
  Method : string;
  ReqHeader : Header;
  URL_Hostname : string;   (* req.URL.Hostname() *)
  RemoteAddr : string
}.

Definition with_header (req : Request) (h : Header) : Request :=
  {| Method := Method req; ReqHeader := h;
     URL_Hostname := URL_Hostname req; RemoteAddr := RemoteAddr req |}.

Record Response : Type := mkResponse {
  StatusCode : Z;
  ProtoMajor : Z;
  ProtoMinor : Z;
  RespRequest : option Request;
  RespHeader : Header;
  Body : string;
  ContentLength : Z
}.

Definition unauthorizedMsg : string := "407 Proxy Authentication Required".

Definition ProxyAuthorizatonHeader : string := "Proxy-Authorization".
Definition ProxyAuthenticateHeader : string := "Proxy-Authenticate".

(** ** Authentication data and the digest actor (main file) *)

Record BasicAuthData : Type := mkBasicAuthData {
  basic_user : string;
  basic_password : string
}.

Record DigestAuthData : Type := mkDigestAuthData {
  user : string;
  realm : string;
  nonce : string;
  uri : string;
  response : string;
  qop : string;
  nc : string;
  cnonce : string;
  method : string
}.

(** Digest auth. operation type *)
Definition validateUser : Z := 0.
Definition getNonce : Z := 1.
Definition maintPing : Z := 2.

(** Digest auth. resp status *)
Definition authOk : Z := 0.
Definition authFailed : Z := 1.
Definition nonceOk : Z := 2.
Definition maintOk : Z := 3.

Record BasicAuthResponse : Type := mkBasicAuthResponse {
  basic_status : bool
}.

Record DigestAuthResponse : Type := mkDigestAuthResponse {
  data : string;
  status : Z
}.

(** The credential store and nonce registry behind the digest actor live in
    a file of their own; the actor reaches them through three methods, each
    of which may change the registry. *)
Class DigestAuthStore : Type := {
  DigestAuth : Type;
  validate : DigestAuth -> option DigestAuthData -> bool * DigestAuth;
  newNonce : DigestAuth -> string * DigestAuth;
  expireNonces : DigestAuth -> DigestAuth
}.

(** A [DigestAuthFunc] over an actor state [S]: one request, one reply. *)
Definition DigestAuthFunc (S : Type) : Type :=
  S -> option DigestAuthData -> Z -> result (option DigestAuthResponse * S).

(** A [BasicAuthFunc] over an actor state [S]. *)
Definition BasicAuthFunc (S : Type) : Type :=
  S -> option BasicAuthData -> result (option BasicAuthResponse * S).

(** [makeDigestAuthValidator]: the [processor] goroutine serves the requests
    of the channel one at a time, so a call of the returned [authFunc] is one
    run of the body of its [switch]. *)
Definition makeDigestAuthValidator `{DigestAuthStore} : DigestAuthFunc DigestAuth :=
  fun auth e_data op =>
    if op =? validateUser then
      let '(st, auth') := validate auth e_data in
      if st then Ok (Some {| data := EmptyString; status := authOk |}, auth')
      else Ok (Some {| data := EmptyString; status := authFailed |}, auth')
    else if op =? getNonce then
      let '(n, auth') := newNonce auth in
      Ok (Some {| data := n; status := nonceOk |}, auth')
    else if op =? maintPing then
      Ok (Some {| data := EmptyString; status := maintOk |}, expireNonces auth)
    else Panic "unexpected operation type".

(** ** The 407 responses (auth handlers file) *)

Definition basicUnauthorized (req : option Request) (realm : string) : Response :=
  let header := "Basic realm=" ++ quoted realm in
  {| StatusCode := 407;
     ProtoMajor := 1;
     ProtoMinor := 1;
     RespRequest := req;
     RespHeader := {[ ProxyAuthenticateHeader := [header] ]};
     Body := unauthorizedMsg;
     ContentLength := len unauthorizedMsg |}.

Definition digestUnauthorized {S : Type} (req : option Request) (realm : string)
    (authFunc : DigestAuthFunc S) (st : S) : result (Response * S) :=
  '(authResult, st') ← authFunc st None getNonce;
  match authResult with
  | None => Panic nil_deref
  | Some authResult =>
      let nonce := data authResult in
      let header := "Digest realm=" ++ quoted realm ++ ", qop=auth, nonce="
                    ++ quoted nonce in
      Ok ({| StatusCode := 407;
             ProtoMajor := 1;
             ProtoMinor := 1;
             RespRequest := req;
             RespHeader := {[ ProxyAuthenticateHeader := [header] ]};
             Body := unauthorizedMsg;
             ContentLength := len unauthorizedMsg |}, st')
  end.

(** ** Proxy-Authorization parsing (auth handlers file) *)

(** [quotedStringsRegexp.FindAllStringSubmatchIndex(h, -1)] for the pattern
    of a double quote, a lazy [(.*?)] and a double quote.  The dot matches
    every character but the newline, so a match starts at a quote, ends at
    the next quote and holds no newline; the search resumes after the match.
    [open] is the position of a quote still waiting for its partner, [i] the
    position of the head of [s].  A match is the four indices
    [start, end, group start, group end]. *)
Fixpoint quoteScan (open : option nat) (i : nat) (s : string) : list (list nat) :=
  match s with
  | EmptyString => []
  | String a s' =>
      match open with
      | None =>
          if Ascii.eqb a dquote then quoteScan (Some i) (S i) s'
          else quoteScan None (S i) s'
      | Some p =>
          if Ascii.eqb a dquote then [p; S i; S p; i] :: quoteScan None (S i) s'
          else if Ascii.eqb a newline then quoteScan None (S i) s'
          else quoteScan (Some p) (S i) s'
      end
  end.

Definition quotedStrings_FindAll (h : string) : list (list nat) :=
  quoteScan None 0 h.

(** [commasRegexp.FindAllStringSubmatchIndex(h, -1)]: [start, end] of each comma. *)
Fixpoint commaScan (i : nat) (s : string) : list (list nat) :=
  match s with
  | EmptyString => []
  | String a s' =>
      if Ascii.eqb a comma then [i; S i] :: commaScan (S i) s'
      else commaScan (S i) s'
  end.

Definition commas_FindAll (h : string) : list (list nat) := commaScan 0 h.

(** The inner loop over [quotes]: is the comma at [commaIndex] quoted? *)
Definition quotedComma (quotes : list (list nat)) (commaIndex : nat) : bool :=
  existsb (fun quoteIndices =>
             (length quoteIndices =? 4)%nat
             && (nth 2 quoteIndices 0 <=? commaIndex)%nat
             && (commaIndex <=? nth 3 quoteIndices 0)%nat) quotes.

(** The outer loop over [commas], building [separateCommas]. *)
Definition separateCommas (quotes commas : list (list nat)) : list nat :=
  filter (fun commaIndex => quotedComma quotes commaIndex = false)
         (map (fun commaIndices => nth 0 commaIndices 0%nat) commas).

(** The loop building [tokens], and the last token [h[s:]]. *)
Fixpoint splitTokens (h : string) (s : nat) (seps : list nat) : list string :=
  match seps with
  | [] => [Trim (slice h s (String.length h)) space]
  | e :: seps' => Trim (slice h s e) space :: splitTokens h (S e) seps'
  end.

(** One round of the loop over [tokens]: [kv] is the token split at its
    first equals sign, and [m[kv[0]]] becomes [kv[1]] without the double
    quotes around it.  Indexing a slice out of range panics. *)
Definition insertToken (m : gmap string string) (token : string)
    : result (gmap string string) :=
  let kv := SplitN2 token equals in
  match kv !! 0%nat with
  | None => Panic "index out of range [0] with length 0"
  | Some k =>
      match kv !! 1%nat with
      | None => Panic "index out of range [1] with length 1"
      | Some v => Ok (<[k := Trim v dquote]> m)
      end
  end.

Fixpoint insertTokens (m : gmap string string) (tokens : list string)
    : result (gmap string string) :=
  match tokens with
  | [] => Ok m
  | token :: rest => m' ← insertToken m token; insertTokens m' rest
  end.

(** [if v, ok := m[key]; ok { field = v }] on a zero-valued field *)
Definition field (m : gmap string string) (key : string) : string :=
  default EmptyString (m !! key).

Definition getDigestAuthData (req : Request)
    : Request * result (option DigestAuthData) :=
  let authHeader := SplitN2 (Header_Get (ReqHeader req) ProxyAuthorizatonHeader) space in
  let req' := with_header req (Header_Del (ReqHeader req) ProxyAuthorizatonHeader) in
  match authHeader with
  | [scheme; h] =>
      if negb (String.eqb scheme "Digest") then (req', Ok None)
      else
        let quotes := quotedStrings_FindAll h in
        let commas := commas_FindAll h in
        let tokens := splitTokens h 0 (separateCommas quotes commas) in
        (req',
         m ← insertTokens ∅ tokens;
         Ok (Some {| user := field m "username";
                     realm := field m "realm";
                     nonce := field m "nonce";
                     uri := field m "uri";
                     response := field m "response";
                     qop := field m "qop";
                     nc := field m "nc";
                     cnonce := field m "cnonce";
                     method := Method req |}))
  | _ => (req', Ok None)
  end.

Definition getBasicAuthData `{GoLib} (req : Request) : Request * option BasicAuthData :=
  let authHeader := SplitN2 (Header_Get (ReqHeader req) ProxyAuthorizatonHeader) space in
  let req' := with_header req (Header_Del (ReqHeader req) ProxyAuthorizatonHeader) in
  match authHeader with
  | [scheme; payload] =>
      if negb (String.eqb scheme "Basic") then (req', None)
      else
        match base64_DecodeString payload with
        | None => (req', None)
        | Some rawUserPassword =>
            match SplitN2 rawUserPassword colon with
            | [u; p] => (req', Some {| basic_user := u; basic_password := p |})
            | _ => (req', None)
            end
        end
  | _ => (req', None)
  end.

Definition performBasicAuth `{GoLib} {S : Type} (req : Request)
    (authFunc : BasicAuthFunc S) (st : S)
    : Request * result (bool * option BasicAuthData * S) :=
  let '(req', d) := getBasicAuthData req in
  match d with
  | None => (req', Ok (false, None, st))
  | Some _ =>
      (req',
       '(resp, st') ← authFunc st d;
       match resp with
       | None => Panic nil_deref
       | Some resp => Ok (basic_status resp, d, st')
       end)
  end.

Definition performDigestAuth {S : Type} (req : Request)
    (authFunc : DigestAuthFunc S) (st : S)
    : Request * result (bool * option DigestAuthData * S) :=
  let '(req', r) := getDigestAuthData req in
  (req',
   d ← r;
   match d with
   | None => Ok (false, None, st)
   | Some _ =>
       '(authResponse, st') ← authFunc st d validateUser;
       match authResponse with
       | None => Panic nil_deref
       | Some authResponse =>
           if status authResponse =? authOk then Ok (true, d, st')
           else if status authResponse =? authFailed then Ok (false, d, st')
           else Panic "unreachable point"
       end
   end).

(** ** Configuration: the fields the main file reads *)

Record Configuration : Type := mkConfiguration {
  BindIP : string;
  Rules : gmap string string;
  Proxies : gmap string string;
  ForwardProxyURL : string
}.

(** ** The forward-proxy resolver (main file) *)

(** The comparison handed to [sort.Slice]: [len(keys[i]) > len(keys[j])].
    After the sort no key is followed by a longer one. *)
Definition notShorter (a b : string) : Prop :=
  (String.length b <= String.length a)%nat.

#[global] Instance notShorter_dec a b : Decision (notShorter a b).
Proof. unfold notShorter. apply _. Defined.

(** What the first ten lines of [findMatchingProxy] leave in [keys]: the
    keys of [conf.Rules], each once, in an order of the map iteration that
    [sort.Slice] (not a stable sort) has put into descending length. *)
Definition ruleKeys (conf : Configuration) (keys : list string) : Prop :=
  keys ≡ₚ (map_to_list (Rules conf)).*1 ∧ StronglySorted notShorter keys.

(** One such order, for running the resolver. *)
Definition sortedKeys (conf : Configuration) : list string :=
  merge_sort notShorter (map_to_list (Rules conf)).*1.

Record Scan `{GoLib} : Type := mkScan {
  genericProxy : option URL;
  mostSpecificMatch : option URL;
  mostSpecificLength : Z
}.

(** The body of the loop over the sorted keys. *)
Definition scanStep `{GoLib} (host : string) (conf : Configuration)
    (st : Scan) (domain : string) : Scan :=
  match Proxies conf !! default EmptyString (Rules conf !! domain) with
  | None => st
  | Some proxyURL =>
      let parsedURL := url_Parse proxyURL in
      if String.eqb domain "." then
        {| genericProxy := parsedURL;
           mostSpecificMatch := mostSpecificMatch st;
           mostSpecificLength := mostSpecificLength st |}
      else if HasSuffix host domain && (len domain >? mostSpecificLength st) then
        {| genericProxy := genericProxy st;
           mostSpecificMatch := parsedURL;
           mostSpecificLength := len domain |}
      else st
  end.

Definition scanInit `{GoLib} : Scan :=
  {| genericProxy := None; mostSpecificMatch := None; mostSpecificLength := -1 |}.

Definition findMatchingProxy `{GoLib} (keys : list string) (host : string)
    (conf : Configuration) : option URL :=
  let st := fold_left (scanStep host conf) keys scanInit in
  match mostSpecificMatch st with
  | Some u => Some u
  | None =>
      if len (ForwardProxyURL conf) >? 0 then url_Parse (ForwardProxyURL conf)
      else genericProxy st
  end.

Definition findMatchingForwardProxyURL `{GoLib} (keys : list string)
    (req : Request) (conf : Configuration) : option URL :=
  let hostname := URL_Hostname req in
  findMatchingProxy keys hostname conf.

(** [proxyURL.String()] reads the fields of its receiver: a nil URL panics. *)
Definition findMatchingProxyString `{GoLib} (keys : list string)
    (req : Request) (conf : Configuration) : result string :=
  match findMatchingForwardProxyURL keys req conf with
  | None => Panic nil_deref
  | Some proxyURL => Ok (URL_String proxyURL)
  end.

(** ** Dialling (main file) *)

(** What a dial function ends up doing.  The handler of [DialToProxy] is the
    one goproxy runs on the CONNECT request before sending it; without a
    handler goproxy sends the request as it built it. *)
Inductive Dial : Type :=
| DialDirectly (network addr : string)
| DialToProxy (proxyURLString : string)
              (connectHandler : option (Request -> Request * list string))
              (network addr : string)
| DialError.

(** The closure [connectHandler]; the second component is what it logs. *)
Definition connectHandler `{GoLib} (proxyURL : URL) (req : Request)
    : Request * list string :=
  let h := Header_Del (ReqHeader req) ProxyAuthorizatonHeader in
  if len (URL_User_Username proxyURL) >? 0 then
    let unescaped := url_QueryUnescape (URL_User_String proxyURL) in
    let creds := default EmptyString unescaped in
    (with_header req (Header_Set h ProxyAuthorizatonHeader
                        ("Basic " ++ base64_EncodeToString creds)),
     match unescaped with
     | None => ["can't decode the user credentials"]
     | Some _ => []
     end)
  else (with_header req h, []).

Definition connectDialWrapper `{GoLib} (proxyURLString : string)
    (network addr : string) : Dial :=
  match url_Parse proxyURLString with
  | None => DialError
  | Some proxyURL =>
      if len (URL_User_String proxyURL) >? 0 then
        DialToProxy proxyURLString (Some (connectHandler proxyURL)) network addr
      else DialToProxy proxyURLString None network addr
  end.


(** The closure stored in [proxy.ConnectDialWithReq]. *)
Definition ConnectDialWithReq `{GoLib} (conf : Configuration) (keys : list string)
    (req : Request) (network addr : string) : result Dial :=
  proxyURL ← findMatchingProxyString keys req conf;
  if String.eqb proxyURL EmptyString then Ok (DialDirectly network addr)
  else Ok (connectDialWrapper proxyURL network addr).

(** [setForwardProxy]: nothing is installed when neither a forward proxy
    nor a rule is configured. *)
Definition setForwardProxy `{GoLib} (conf : Configuration)
    : option (list string -> Request -> string -> string -> result Dial) :=
  if (len (ForwardProxyURL conf) =? 0) && (Z.of_nat (size (Rules conf)) =? 0)
  then None
  else Some (ConnectDialWithReq conf).

(** ** The bind address (main file) *)

Definition checkBindAddressOK `{GoLib} (conf : Configuration)
    : bool * string * option string :=
  if negb (String.eqb (BindIP conf) EmptyString) then
    match net_ParseIP (BindIP conf) with
    | Some ip =>
        match IP_To4 ip with
        | Some _ => (true, BindIP conf ++ ":0", None)
        | None =>
            match IP_To16 ip with
            | Some _ => (true, "[" ++ BindIP conf ++ "]:0", None)
            | None =>
                (false, EmptyString,
                 Some ("couldn't use " ++ quoted (BindIP conf)
                       ++ " as outgoing request address"))
            end
        end
    | None => (false, EmptyString, None)
    end
  else (false, EmptyString, None).

(** ** One implementation of the library interface

    Used to run the embedding on concrete requests.  Base64 and query
    unescaping follow the Go functions; the URL and IP parsers cover the
    literals that occur below: URLs of the form scheme://[userinfo@]host[path]
    whose userinfo needs no percent-escaping, dotted-quad IPv4 addresses and
    IPv6 addresses written as eight hexadecimal groups. *)
Module Sample.

Definition alphabet : string :=
  "ABCDEFGHIJKLMNOPQRSTUVWXYZabcdefghijklmnopqrstuvwxyz0123456789+/".

Definition pad : ascii := "="%char.

Definition enc6 (n : N) : ascii :=
  default pad (String.get (N.to_nat n) alphabet).

Fixpoint find_index (c : ascii) (s : string) (i : N) : option N :=
  match s with
  | EmptyString => None
  | String a s' => if Ascii.eqb a c then Some i else find_index c s' (N.succ i)
  end.

Definition dec6 (c : ascii) : option N := find_index c alphabet 0%N.

Definition byte (n : N) : ascii := ascii_of_N (n mod 256).

Fixpoint encode (l : list ascii) : list ascii :=
  match l with
  | [] => []
  | [a] =>
      let n := (N_of_ascii a * 65536)%N in
      [enc6 (n / 262144); enc6 (n / 4096 mod 64); pad; pad]
  | [a; b] =>
      let n := (N_of_ascii a * 65536 + N_of_ascii b * 256)%N in
      [enc6 (n / 262144); enc6 (n / 4096 mod 64); enc6 (n / 64 mod 64); pad]
  | a :: b :: c :: rest =>
      let n := (N_of_ascii a * 65536 + N_of_ascii b * 256 + N_of_ascii c)%N in
      enc6 (n / 262144) :: enc6 (n / 4096 mod 64) :: enc6 (n / 64 mod 64)
        :: enc6 (n mod 64) :: encode rest
  end.

(** [base64.StdEncoding.EncodeToString] *)
Definition EncodeToString (s : string) : string :=
  string_of_list_ascii (encode (list_ascii_of_string s)).

Fixpoint decode (l : list ascii) : option (list ascii) :=
  match l with
  | [] => Some []
  | a :: b :: c :: d :: rest =>
      match dec6 a, dec6 b with
      | Some x, Some y =>
          match dec6 c, dec6 d with
          | Some z, Some w =>
              let n := (x * 262144 + y * 4096 + z * 64 + w)%N in
              match decode rest with
              | Some out => Some (byte (n / 65536) :: byte (n / 256) :: byte n :: out)
              | None => None
              end
          | Some z, None =>
              if Ascii.eqb d pad && bool_decide (rest = []) then
                let n := (x * 262144 + y * 4096 + z * 64)%N in
                Some [byte (n / 65536); byte (n / 256)]
              else None
          | None, _ =>
              if Ascii.eqb c pad && Ascii.eqb d pad && bool_decide (rest = []) then
                Some [byte ((x * 262144 + y * 4096) / 65536)]
              else None
          end
      | _, _ => None
      end
  | _ => None
  end.

Definition is_crlf (a : ascii) : bool :=
  Ascii.eqb a newline || Ascii.eqb a (ascii_of_nat 13).

(** [base64.StdEncoding.DecodeString]: carriage returns and newlines are
    skipped, padding is required. *)
Definition DecodeString (s : string) : option string :=
  string_of_list_ascii <$>
    decode (filter (fun a => is_crlf a = false) (list_ascii_of_string s)).

Definition unhex (c : ascii) : option N :=
  find_index c "0123456789abcdef" 0%N
  ∪ find_index c "0123456789ABCDEF" 0%N.

(** [url.QueryUnescape]: percent escapes become bytes, a plus sign a space. *)
Fixpoint QueryUnescape (s : string) : option string :=
  match s with
  | EmptyString => Some EmptyString
  | String "%" (String h (String l s')) =>
      match unhex h, unhex l, QueryUnescape s' with
      | Some x, Some y, Some t => Some (String (byte (16 * x + y)) t)
      | _, _, _ => None
      end
  | String "%" _ => None
  | String a s' =>
      String (if Ascii.eqb a "+" then space else a) <$> QueryUnescape s'
  end.

Record SampleURL : Type := mkSampleURL {
  Scheme : string;
  User : option string;      (* the userinfo text, when there is an at sign *)
  Host : string;
  Path : string
}.

Fixpoint has_ctl (s : string) : bool :=
  match s with
  | EmptyString => false
  | String a s' =>
      (N_of_ascii a <? 32)%N || (N_of_ascii a =? 127)%N || has_ctl s'
  end.

(** The text before and after the last at sign. *)
Fixpoint cut_last (c : ascii) (s : string) : option (string * string) :=
  match s with
  | EmptyString => None
  | String a s' =>
      match cut_last c s' with
      | Some (l, r) => Some (String a l, r)
      | None => if Ascii.eqb a c then Some (EmptyString, s') else None
      end
  end.

Definition authority_path (rest : string) : string * string :=
  match cut "/" rest with
  | Some (a, p) => (a, String "/" p)
  | None => (rest, EmptyString)
  end.

Definition Parse (s : string) : option SampleURL :=
  if has_ctl s then None
  else
    match cut ":" s with
    | Some (scheme, String "/" (String "/" rest)) =>
        let '(authority, path) := authority_path rest in
        match cut_last "@" authority with
        | Some (userinfo, host) =>
            Some {| Scheme := scheme; User := Some userinfo; Host := host; Path := path |}
        | None =>
            Some {| Scheme := scheme; User := None; Host := authority; Path := path |}
        end
    | _ => Some {| Scheme := EmptyString; User := None; Host := EmptyString; Path := s |}
    end.

Definition User_String (u : SampleURL) : string := default EmptyString (User u).

Definition User_Username (u : SampleURL) : string :=
  match cut ":" (User_String u) with
  | Some (name, _) => name
  | None => User_String u
  end.

Definition URL_to_string (u : SampleURL) : string :=
  (if String.eqb (Scheme u) EmptyString then EmptyString else Scheme u ++ "://")
  ++ (if String.eqb (User_String u) EmptyString then EmptyString
      else User_String u ++ "@")
  ++ Host u ++ Path u.

(** The fields of [s] between the occurrences of [c]. *)
Fixpoint fields (c : ascii) (s : string) : list string :=
  match s with
  | EmptyString => [EmptyString]
  | String a s' =>
      if Ascii.eqb a c then EmptyString :: fields c s'
      else match fields c s' with
           | h :: t => String a h :: t
           | [] => [String a EmptyString]
           end
  end.

Fixpoint number (base : N) (digits : string) (s : string) (acc : N) : option N :=
  match s with
  | EmptyString => Some acc
  | String a s' =>
      match find_index a digits 0%N with
      | Some d => number base digits s' (base * acc + d)%N
      | None => None
      end
  end.

(** A decimal field of an IPv4 address: one to three digits, no leading
    zero, at most 255. *)
Definition octet (s : string) : option N :=
  match s with
  | EmptyString => None
  | String "0" (String _ _) => None
  | _ =>
      if (3 <? String.length s)%nat then None
      else n ← number 10 "0123456789" s 0%N;
           if (n <=? 255)%N then Some n else None
  end.

(** A group of an IPv6 address: one to four hexadecimal digits. *)
Definition hextet (s : string) : option (list N) :=
  match s with
  | EmptyString => None
  | _ =>
      if (4 <? String.length s)%nat then None
      else n ← number 16 "0123456789abcdef" s 0%N;
           Some [(n / 256)%N; (n mod 256)%N]
  end.

Definition v4InV6Prefix : list N := [0; 0; 0; 0; 0; 0; 0; 0; 0; 0; 255; 255]%N.

(** [net.ParseIP]: an IPv4 address comes back in its 16-byte form. *)
Definition ParseIP (s : string) : option (list N) :=
  match fields "." s with
  | [a; b; c; d] =>
      w ← octet a; x ← octet b; y ← octet c; z ← octet d;
      Some (v4InV6Prefix ++ [w; x; y; z])%list
  | _ =>
      match fields ":" s with
      | [a; b; c; d; e; f; g; h] =>
          mjoin <$> mapM hextet [a; b; c; d; e; f; g; h]
      | _ => None
      end
  end.

(** [ip.To4()] *)
Definition To4 (ip : list N) : option (list N) :=
  if (length ip =? 4)%nat then Some ip
  else if (length ip =? 16)%nat && bool_decide (take 12 ip = v4InV6Prefix)
  then Some (drop 12 ip)
  else None.

(** [ip.To16()] *)
Definition To16 (ip : list N) : option (list N) :=
  if (length ip =? 4)%nat then Some (v4InV6Prefix ++ ip)%list
  else if (length ip =? 16)%nat then Some ip
  else None.

End Sample.

Definition sampleLib : GoLib :=
  {| URL := Sample.SampleURL;
     url_Parse := Sample.Parse;
     URL_String := Sample.URL_to_string;
     URL_User_String := Sample.User_String;
     URL_User_Username := Sample.User_Username;
     url_QueryUnescape := Sample.QueryUnescape;
     base64_EncodeToString := Sample.EncodeToString;
     base64_DecodeString := Sample.DecodeString;
     IP := list N;
     net_ParseIP := Sample.ParseIP;
     IP_To4 := Sample.To4;
     IP_To16 := Sample.To16 |}.

(** A request that carries [value] in its Proxy-Authorization header. *)
Definition requestWithAuth (value : string) : Request :=
  {| Method := "GET";
     ReqHeader := {[ ProxyAuthorizatonHeader := [value] ]};
     URL_Hostname := "www.example.com";
     RemoteAddr := "192.0.2.1:4711" |}.

(** ** The request handlers (auth handlers file) and the Basic actor *)

(** The credential store behind the Basic actor lives in a file of its own;
    the actor reaches it through its [validate] method. *)
Class BasicAuthStore : Type := {
  BasicAuth : Type;
  basic_validate : BasicAuth -> option BasicAuthData -> bool * BasicAuth
}.

(** [makeBasicAuthValidator]: the [validator] goroutine answers one request
    of the channel at a time with the status of [auth.validate]. *)
Definition makeBasicAuthValidator `{BasicAuthStore} : BasicAuthFunc BasicAuth :=
  fun auth e_data =>
    let '(st, auth') := basic_validate auth e_data in
    Ok (Some {| basic_status := st |}, auth').

(** goproxy's context of one request, as far as the handlers touch it:
    [Warnings] collects the messages handed to [ctx.Warnf]. *)
Record ProxyCtx : Type := mkProxyCtx {
  ctx_Req : option Request;
  ctx_Resp : option Response;
  UserData : option string;
  Warnings : list string
}.

Definition Warnf (ctx : ProxyCtx) (msg : string) : ProxyCtx :=
  {| ctx_Req := ctx_Req ctx; ctx_Resp := ctx_Resp ctx;
     UserData := UserData ctx; Warnings := (Warnings ctx ++ [msg])%list |}.

Definition setUserData (ctx : ProxyCtx) (u : string) : ProxyCtx :=
  {| ctx_Req := ctx_Req ctx; ctx_Resp := ctx_Resp ctx;
     UserData := Some u; Warnings := Warnings ctx |}.

Definition setResp (ctx : ProxyCtx) (resp : Response) : ProxyCtx :=
  {| ctx_Req := ctx_Req ctx; ctx_Resp := Some resp;
     UserData := UserData ctx; Warnings := Warnings ctx |}.

Definition setReq (ctx : ProxyCtx) (req : Request) : ProxyCtx :=
  {| ctx_Req := Some req; ctx_Resp := ctx_Resp ctx;
     UserData := UserData ctx; Warnings := Warnings ctx |}.

(** The handler returned by [basicAuthReqHandler]: the request to pass on,
    or the response to send instead. *)
Definition basicAuthReqHandler `{GoLib} {S : Type} (realm : string)
    (authFunc : BasicAuthFunc S) (req : Request) (ctx : ProxyCtx) (st : S)
    : result (option Request * option Response * ProxyCtx * S) :=
  let '(req', r) := performBasicAuth req authFunc st in
  '(status, d, st') ← r;
  if negb status then
    let ctx' :=
      match d with
      | Some d => Warnf ctx ("failed basic auth. attempt: user=" ++ basic_user d
                             ++ ", addr=" ++ RemoteAddr req')
      | None => ctx
      end in
    Ok (None, Some (basicUnauthorized (Some req') realm), ctx', st')
  else
    match d with
    | None => Panic nil_deref
    | Some d => Ok (Some req', None, setUserData ctx (basic_user d), st')
    end.

(** The handler returned by [digestAuthReqHandler]. *)
Definition digestAuthReqHandler {S : Type} (authRealm : string)
    (authFunc : DigestAuthFunc S) (req : Request) (ctx : ProxyCtx) (st : S)
    : result (option Request * option Response * ProxyCtx * S) :=
  let '(req', r) := performDigestAuth req authFunc st in
  '(status, d, st') ← r;
  if negb status then
    let ctx' :=
      match d with
      | Some d => Warnf ctx ("failed digest auth. attempt: user=" ++ user d
                             ++ ", realm=" ++ realm d
                             ++ ", addr=" ++ RemoteAddr req')
      | None => ctx
      end in
    '(resp, st'') ← digestUnauthorized (Some req') authRealm authFunc st';
    Ok (None, Some resp, ctx', st'')
  else
    match d with
    | None => Panic nil_deref
    | Some d => Ok (Some req', None, setUserData ctx (user d), st')
    end.

Inductive ConnectAction : Type :=
| OkConnect
| RejectConnect.

(** The handler returned by [basicConnectAuthHandler].  [emptyReq] is the
    package-level request of another file; [logger] tells whether a logger
    was given, and the last component is the context handed to
    [logger.log], if any.  Reading the header of a nil [ctx.Req] panics. *)
Definition basicConnectAuthHandler `{GoLib} {S : Type} (emptyReq : Request)
    (realm : string) (authFunc : BasicAuthFunc S) (logger : bool)
    (host : string) (ctx : ProxyCtx) (st : S)
    : result (ConnectAction * string * ProxyCtx * S * option ProxyCtx) :=
  match ctx_Req ctx with
  | None => Panic nil_deref
  | Some req =>
      let '(req', r) := performBasicAuth req authFunc st in
      let ctx := setReq ctx req' in
      '(status, d, st') ← r;
      if negb status then
        let ctx :=
          match d with
          | Some d => Warnf ctx ("failed basic auth. CONNECT method attempt: user="
                                 ++ basic_user d ++ ", addr=" ++ RemoteAddr req')
          | None => ctx
          end in
        Ok (RejectConnect, host,
            setResp ctx (basicUnauthorized (ctx_Req ctx) realm), st', None)
      else
        match d with
        | None => Panic nil_deref
        | Some d =>
            let ctx := setUserData ctx (basic_user d) in
            let ctx := match ctx_Req ctx with
                       | None => setReq ctx emptyReq
                       | Some _ => ctx
                       end in
            Ok (OkConnect, host, ctx, st', if logger then Some ctx else None)
        end
  end.

(** The handler returned by [digestConnectAuthHandler]. *)
Definition digestConnectAuthHandler {S : Type} (emptyReq : Request)
    (authRealm : string) (authFunc : DigestAuthFunc S) (logger : bool)
    (host : string) (ctx : ProxyCtx) (st : S)
    : result (ConnectAction * string * ProxyCtx * S * option ProxyCtx) :=
  match ctx_Req ctx with
  | None => Panic nil_deref
  | Some req =>
      let '(req', r) := performDigestAuth req authFunc st in
      let ctx := setReq ctx req' in
      '(status, d, st') ← r;
      if negb status then
        let ctx :=
          match d with
          | Some d => Warnf ctx ("failed digest auth. CONNECT method attempt: user="
                                 ++ user d ++ ", realm=" ++ realm d
                                 ++ ", addr=" ++ RemoteAddr req')
          | None => ctx
          end in
        '(resp, st'') ← digestUnauthorized (ctx_Req ctx) authRealm authFunc st';
        Ok (RejectConnect, host, setResp ctx resp, st'', None)
      else
        match d with
        | None => Panic nil_deref
        | Some d =>
            let ctx := setUserData ctx (user d) in
            let ctx := match ctx_Req ctx with
                       | None => setReq ctx emptyReq
                       | Some _ => ctx
                       end in
            Ok (OkConnect, host, ctx, st', if logger then Some ctx else None)
        end
  end.

(** ** Header rewriting, access lists and the dialer set-up (main file) *)

(** More of the library: [net_SplitHostPort] yields the host and the port, or
    the text of the error; [net_ParseCIDR] yields the network, [None] where
    Go returns a nil network and an error; [IPNet_Contains] takes the
    possibly nil address that [net.ParseIP] returned;
    [CanonicalMIMEHeaderKey] is the form under which a header map stores a
    key; [net_ResolveTCPAddr] is applied to the network tcp. *)
Class GoNet `{GoLib} : Type := {
  net_SplitHostPort : string -> (string * string) + string;
  IPNet : Type;
  net_ParseCIDR : string -> option IPNet;
  IPNet_Contains : IPNet -> option IP -> bool;
  CanonicalMIMEHeaderKey : string -> string;
  TCPAddr : Type;
  net_ResolveTCPAddr : string -> TCPAddr + string
}.

(** The fields of the configuration that the handlers below read. *)
Record HandlerConfiguration : Type := mkHandlerConfiguration {
  ForwardedForHeader : string;
  ViaHeader : string;
  ViaProxyName : string;
  AddHeaders : list (list string);
  AllowedNetworks : list string;
  DisallowedNetworks : list string
}.

Definition proxyForwardedForHeader : string := "X-Forwarded-For".
Definition proxyViaHeader : string := "Via".

(** [h.Add(key, value)] for a key in canonical form: the value goes to the
    end of the values stored under the key. *)
Definition Header_Add (h : Header) (key value : string) : Header :=
  <[key := (default [] (h !! key) ++ [value])%list]> h.

(** The handler of [setForwardedForHeaderHandler]; the second component is
    what it hands to [ctx.Warnf]. *)
Definition forwardedForHandler `{GoNet} (conf : HandlerConfiguration)
    (req : Request) : Request * list string :=
  match net_SplitHostPort (RemoteAddr req) with
  | inr err =>
      (req, ["coudn't parse remote address " ++ RemoteAddr req ++ ": " ++ err])
  | inl (ip, _) =>
      let h := ReqHeader req in
      if String.eqb (ForwardedForHeader conf) "on" then
        let header := Header_Get h proxyForwardedForHeader in
        if String.eqb header EmptyString then
          (with_header req (Header_Add h proxyForwardedForHeader ip), [])
        else
          let header := header ++ ", " ++ ip in
          (with_header req
             (Header_Add (Header_Del h proxyForwardedForHeader)
                proxyForwardedForHeader header), [])
      else if String.eqb (ForwardedForHeader conf) "delete" then
        (with_header req (Header_Del h proxyForwardedForHeader), [])
      else if String.eqb (ForwardedForHeader conf) "truncate" then
        (with_header req
           (Header_Add (Header_Del h proxyForwardedForHeader)
              proxyForwardedForHeader ip), [])
      else (req, [])
  end.

(** The handler of [setViaHeaderHandler]. *)
Definition viaHandler (conf : HandlerConfiguration) (req : Request) : Request :=
  let h := ReqHeader req in
  if String.eqb (ViaHeader conf) "on" then
    let header := Header_Get h proxyViaHeader in
    let header :=
      if String.eqb header EmptyString then "1.1 " ++ ViaProxyName conf
      else header ++ ", 1.1 " ++ ViaProxyName conf in
    with_header req (Header_Add h proxyViaHeader header)
  else if String.eqb (ViaHeader conf) "delete" then
    with_header req (Header_Del h proxyViaHeader)
  else req.

(** One round of the loop of [setAddCustomHeadersHandler]; [Get] and [Add]
    bring the key into canonical form. *)
Definition addCustomHeader `{GoNet} (h : Header) (headerData : list string)
    : Header :=
  match headerData with
  | [header; value] =>
      if (len header >? 0) && (len value >? 0) then
        let headerExists :=
          negb (String.eqb (Header_Get h (CanonicalMIMEHeaderKey header))
                           EmptyString) in
        if negb headerExists
        then Header_Add h (CanonicalMIMEHeaderKey header) value
        else h
      else h
  | _ => h
  end.

(** The handler of [setAddCustomHeadersHandler]. *)
Definition addCustomHeadersHandler `{GoNet} (conf : HandlerConfiguration)
    (req : Request) : Request :=
  with_header req (fold_left addCustomHeader (AddHeaders conf) (ReqHeader req)).

(** The loop of the condition that [sourceIPMatches] returns: asking a nil
    network whether it contains an address panics. *)
Fixpoint containsAny `{GoNet} (cidrs : list (option IPNet)) (addr : option IP)
    : result bool :=
  match cidrs with
  | [] => Ok false
  | None :: _ => Panic nil_deref
  | Some network :: rest =>
      if IPNet_Contains network addr then Ok true else containsAny rest addr
  end.

(** [sourceIPMatches(networks)] applied to a request. *)
Definition sourceIPMatches `{GoNet} (networks : list string) (req : Request)
    : result bool * list string :=
  let cidrs := map net_ParseCIDR networks in
  match net_SplitHostPort (RemoteAddr req) with
  | inr err =>
      (Ok false,
       ["couldn't parse remote address " ++ RemoteAddr req ++ ": " ++ err])
  | inl (ip, _) => (containsAny cidrs (net_ParseIP ip), [])
  end.

(** What the handlers of [setAllowedNetworksHandler] decide for a request:
    [true] when one of them rejects it.  The handlers for the allowed
    networks are registered first, and a rejection ends the chain. *)
Definition rejectedByNetworks `{GoNet} (conf : HandlerConfiguration)
    (req : Request) : result bool :=
  outside ← (if (0 <? Z.of_nat (length (AllowedNetworks conf)))
             then (inside ← fst (sourceIPMatches (AllowedNetworks conf) req);
                   Ok (negb inside))
             else Ok false);
  if (outside : bool) then Ok true
  else if (0 <? Z.of_nat (length (DisallowedNetworks conf)))
       then fst (sourceIPMatches (DisallowedNetworks conf) req)
       else Ok false.

(** The dial function [createProxy] leaves in the transport. *)
Inductive DialContext `{GoNet} : Type :=
| DefaultDialContext
| CustomDialContext (localAddr : option TCPAddr).

(** [createProxy], without the activity log: the dial function and the
    warnings it logs. *)
Definition createProxy `{GoNet} (conf : Configuration)
    : DialContext * list string :=
  let '(addressOk, laddr, err) := checkBindAddressOK conf in
  let warnings :=
    match err with
    | Some e => ["WARN: " ++ e ++ String newline EmptyString]
    | None => []
    end in
  if addressOk then
    if negb (String.eqb laddr EmptyString) then
      match net_ResolveTCPAddr laddr with
      | inl addr => (CustomDialContext (Some addr), warnings)
      | inr e =>
          let warning := "WARN: couldn't use " ++ quoted (BindIP conf)
                         ++ " as outgoing request address. " ++ e
                         ++ String newline EmptyString in
          (DefaultDialContext, app warnings [warning])
      end
    else (CustomDialContext None, warnings)
  else (DefaultDialContext, warnings).

(** ** Values the properties are stated on *)

(** [occurs c s]: the character [c] occurs in [s]. *)
Definition occurs (c : ascii) (s : string) : Prop :=
  exists l r, s = l ++ String c r.

(** A tracker as a caller would create it for a limit of three failures. *)
Definition freshHealth : ProxyHealth :=
  {| Healthy := true; FailureCount := 0; FailureLimit := 3 |}.

(** A Digest header with commas inside two of its quoted values. *)
Definition quotedCommaHeader : string :=
  "Digest username=" ++ quoted "bob" ++ ", realm=" ++ quoted "r,x"
  ++ ", nonce=" ++ quoted "n1" ++ ", uri=" ++ quoted "/a,b"
  ++ ", response=" ++ quoted "abc" ++ ", qop=auth, nc=00000001, cnonce="
  ++ quoted "c1".

(** The proxy URL a rule key leads to: none when the alias of the rule is
    not a key of [conf.Proxies]. *)
Definition aliasURL (conf : Configuration) (domain : string) : option string :=
  Proxies conf !! default EmptyString (Rules conf !! domain).

(** A key the loop can take as the most specific match for [host]: not the
    catch-all key, with an alias that exists, and a suffix of [host]. *)
Definition candidate (host : string) (conf : Configuration) (domain : string) : bool :=
  negb (String.eqb domain ".") && bool_decide (is_Some (aliasURL conf domain))
  && HasSuffix host domain.

(** What the loop leaves in [genericProxy] when the keys hold the catch-all. *)
Definition genericRule `{GoLib} (conf : Configuration) : option URL :=
  aliasURL conf "." ≫= url_Parse.

(** Rules for example.com and for everything else, and a global forward proxy. *)
Definition bothFallbacks : Configuration :=
  {| BindIP := EmptyString;
     Rules := <["example.com" := "A"]> (<["." := "B"]> ∅);
     Proxies := <["A" := "http://p1"]> (<["B" := "http://p2"]> ∅);
     ForwardProxyURL := "http://p3" |}.

(** A rule for example.com only. *)
Definition oneRule : Configuration :=
  {| BindIP := EmptyString;
     Rules := <["example.com" := "A"]> ∅;
     Proxies := <["A" := "http://p1"]> ∅;
     ForwardProxyURL := EmptyString |}.

(** Two rules with keys of the same length. *)
Definition twoRules : Configuration :=
  {| BindIP := EmptyString;
     Rules := <["a.org" := "A"]> (<["b.org" := "B"]> ∅);
     Proxies := <["A" := "http://p1"]> (<["B" := "http://p2"]> ∅);
     ForwardProxyURL := EmptyString |}.

Definition requestTo (hostname : string) : Request :=
  {| Method := "CONNECT"; ReqHeader := ∅; URL_Hostname := hostname;
     RemoteAddr := "192.0.2.1:4711" |}.

(** A CONNECT request that already carries a Proxy-Authorization header. *)
Definition staleConnect : Request :=
  with_header (requestTo "other.org")
    {[ ProxyAuthorizatonHeader := ["Basic c3RhbGU6b2xk"] ]}.

(** The most specific rule the scan settles on: the first candidate among
    the sorted keys. *)
Definition specificRule `{GoLib} (keys : list string) (host : string)
    (conf : Configuration) : option URL :=
  head (filter (fun domain => candidate host conf domain = true) keys)
    ≫= fun domain => aliasURL conf domain ≫= url_Parse.


(** Rules for example.com and for www.example.com. *)
Definition nestedRules : Configuration :=
  {| BindIP := EmptyString;
     Rules := <["example.com" := "A"]> (<["www.example.com" := "B"]> ∅);
     Proxies := <["A" := "http://p1"]> (<["B" := "http://p2"]> ∅);
     ForwardProxyURL := "http://p3" |}.

Definition tab : ascii := Eval cbv in ascii_of_nat 9.

(** The longer of two matching rules leads to a proxy URL with a control
    character in it, which [url.Parse] refuses. *)
Definition brokenRule : Configuration :=
  {| BindIP := EmptyString;
     Rules := <["example.com" := "A"]> (<["www.example.com" := "B"]> ∅);
     Proxies := <["A" := "http://p1"]> (<["B" := String tab "http://p2"]> ∅);
     ForwardProxyURL := EmptyString |}.

(** A credential store for trying the handlers out: it knows the user bob,
    and its nonces are numbered. *)
Definition sampleNonce (n : nat) : string :=
  "nonce-" ++ String (ascii_of_nat (48 + n)) EmptyString.

Definition sampleDigestStore : DigestAuthStore :=
  {| DigestAuth := nat;
     validate := fun n d =>
       (match d with Some d => String.eqb (user d) "bob" | None => false end, n);
     newNonce := fun n => (sampleNonce n, S n);
     expireNonces := fun n => n |}.

Definition sampleBasicStore : BasicAuthStore :=
  {| BasicAuth := unit;
     basic_validate := fun st d =>
       (match d with
        | Some d => String.eqb (basic_user d) "user"
                    && String.eqb (basic_password d) "pa:ss"
        | None => false
        end, st) |}.

Definition emptyCtx (req : option Request) : ProxyCtx :=
  {| ctx_Req := req; ctx_Resp := None; UserData := None; Warnings := [] |}.

(** The 407 response of the digest scheme for a given nonce. *)
Definition digestChallenge (req : option Request) (authRealm issued : string)
    : Response :=
  {| StatusCode := 407; ProtoMajor := 1; ProtoMinor := 1;
     RespRequest := req;
     RespHeader := {[ ProxyAuthenticateHeader :=
                        ["Digest realm=" ++ quoted authRealm
                         ++ ", qop=auth, nonce=" ++ quoted issued] ]};
     Body := unauthorizedMsg;
     ContentLength := len unauthorizedMsg |}.

(** The request as the parsers leave it: without its Proxy-Authorization
    header. *)
Definition stripped (req : Request) : Request :=
  with_header req (Header_Del (ReqHeader req) ProxyAuthorizatonHeader).

(** An implementation of the rest of the library for trying the handlers
    out: addresses are split at their last colon, networks are an address, a
    slash and a number of bits that is a multiple of eight, header keys are
    taken to be in canonical form already. *)
Definition sampleSplitHostPort (s : string) : (string * string) + string :=
  match Sample.cut_last ":" s with
  | Some (h, p) => inl (h, p)
  | None => inr "missing port in address"
  end.

Definition sampleParseCIDR (s : string) : option (list N * nat) :=
  match cut "/" s with
  | Some (a, n) =>
      ip ← Sample.ParseIP a;
      bits ← Sample.number 10 "0123456789" n 0%N;
      Some (ip, N.to_nat bits)
  | None => None
  end.

Definition sampleContains (network : list N * nat) (addr : option (list N)) : bool :=
  match addr with
  | Some a =>
      let skip := match Sample.To4 (fst network) with
                  | Some _ => 12%nat
                  | None => 0%nat
                  end in
      bool_decide (take (skip + snd network / 8) a
                   = take (skip + snd network / 8) (fst network))
  | None => false
  end.

Definition sampleNet : @GoNet sampleLib :=
  @Build_GoNet sampleLib sampleSplitHostPort (list N * nat)%type sampleParseCIDR
    sampleContains (fun s => s) string (fun s => inl s).

Definition with_remote (req : Request) (addr : string) : Request :=
  {| Method := Method req; ReqHeader := ReqHeader req;
     URL_Hostname := URL_Hostname req; RemoteAddr := addr |}.

(** A request that passes a proxy whose peer has the address [addr]. *)
Definition forwardedForHop `{GoNet} (conf : HandlerConfiguration)
    (req : Request) (addr : string) : Request :=
  fst (forwardedForHandler conf (with_remote req addr)).

(** A request that passes a proxy of the name [name] with its Via header on. *)
Definition viaHop (req : Request) (name : string) : Request :=
  viaHandler (mkHandlerConfiguration EmptyString "on" name [] [] []) req.

(** [strings.Join(elems, sep)] *)
Fixpoint Join (elems : list string) (sep : string) : string :=
  match elems with
  | [] => EmptyString
  | [a] => a
  | a :: rest => a ++ sep ++ Join rest sep
  end.

Definition forwardedForOn : HandlerConfiguration :=
  mkHandlerConfiguration "on" EmptyString EmptyString [] [] [].

(** A request whose client sent two X-Forwarded-For values of its own. *)
Definition spoofedRequest : Request :=
  with_header (with_remote (requestTo "other.org") "192.0.2.1:4711")
    {[ proxyForwardedForHeader := ["10.0.0.1"; "10.0.0.2"] ]}.

(** The tokens the Digest parser cuts a parameter text into. *)
Definition digestTokens (h : string) : list string :=
  splitTokens h 0 (separateCommas (quotedStrings_FindAll h) (commas_FindAll h)).

(** [free_of bad s]: none of the characters of [bad] occurs in [s]. *)
Fixpoint free_of (bad : list ascii) (s : string) : bool :=
  match s with
  | EmptyString => true
  | String a s' => negb (existsb (Ascii.eqb a) bad) && free_of bad s'
  end.

(** A parameter as a client writes it: the value in double quotes or bare. *)
Inductive DigestParam : Type :=
| QuotedParam (key value : string)
| BareParam (key value : string).

Definition paramKey (p : DigestParam) : string :=
  match p with QuotedParam k _ => k | BareParam k _ => k end.

Definition paramValue (p : DigestParam) : string :=
  match p with QuotedParam _ v => v | BareParam _ v => v end.

Definition paramToken (p : DigestParam) : string :=
  match p with
  | QuotedParam k v => k ++ String equals (quoted v)
  | BareParam k v => k ++ String equals v
  end.

(** A key holds no double quote, comma, space or equals sign; a quoted
    value no double quote and no newline; a bare value no double quote,
    comma or space. *)
Definition wellFormedParam (p : DigestParam) : bool :=
  free_of [dquote; comma; space; equals] (paramKey p)
  && match p with
     | QuotedParam _ v => free_of [dquote; newline] v
     | BareParam _ v => free_of [dquote; comma; space] v
     end.

(** The map the parameters stand for: a later one overrides an earlier one
    of the same key. *)
Definition paramMap (params : list DigestParam) : gmap string string :=
  fold_left (fun m p => <[paramKey p := paramValue p]> m) params ∅.

(** The parameters of the header [quotedCommaHeader]. *)
Definition quotedCommaParams : list DigestParam :=
  [QuotedParam "username" "bob"; QuotedParam "realm" "r,x";
   QuotedParam "nonce" "n1"; QuotedParam "uri" "/a,b";
   QuotedParam "response" "abc"; BareParam "qop" "auth";
   BareParam "nc" "00000001"; QuotedParam "cnonce" "c1"].

(** ** The CONNECT port filter *)

(** [strconv.Itoa]: decimal digits, with a leading minus sign for a
    negative number. *)
Definition Itoa (v : Z) : string :=
  DecimalString.NilEmpty.string_of_int (Z.to_int v).

(** The pattern [setAllowedConnectPortsHandler] compiles. *)
Definition connectPortsPattern (AllowedConnectPorts : list Z) : string :=
  "(" ++ Join (map (fun v => ":" ++ Itoa v) AllowedConnectPorts) "|" ++ ")$".

(** [regexp.MustCompile(rx).MatchString(host)] for the pattern above: an
    alternation of literal texts (a colon, a minus sign and digits stand for
    themselves in a pattern), anchored at the end of the text and nowhere
    else. *)
Definition matchesConnectPorts (AllowedConnectPorts : list Z) (host : string)
    : bool :=
  existsb (fun v => HasSuffix host (":" ++ Itoa v)) AllowedConnectPorts.

(** What the handler installed by [setAllowedConnectPortsHandler] does with
    a CONNECT request for [host]: [None] where no handler is installed or
    its condition does not hold, so that the next handler decides. *)
Definition allowedConnectPortsHandler (AllowedConnectPorts : list Z)
    (host : string) : option ConnectAction :=
  if (0 <? Z.of_nat (length AllowedConnectPorts)) then
    if negb (matchesConnectPorts AllowedConnectPorts host)
    then Some RejectConnect
    else None
  else None.

(** * Properties *)

(** ** Health tracker *)

Lemma int_wrap_id (z : Z) : in_int z -> int_wrap z = z.
Proof.
  unfold in_int, int_wrap, int_min, int_max. intros Hz.
  rewrite Z.mod_small; lia.
Qed.

Lemma int_wrap_range (z : Z) : in_int (int_wrap z).
Proof.
  unfold in_int, int_wrap, int_min, int_max.
  pose proof (Z.mod_pos_bound (z + 2 ^ 63) (2 ^ 64) ltac:(lia)). lia.
Qed.

Lemma RecordFailure_count (p : ProxyHealth) :
  FailureCount (RecordFailure p) = int_wrap (FailureCount p + 1).
Proof. reflexivity. Qed.

Lemma RecordFailure_healthy (p : ProxyHealth) :
  Healthy (RecordFailure p)
  = if FailureCount (RecordFailure p) >=? FailureLimit p then false else Healthy p.
Proof. reflexivity. Qed.

Lemma RecordFailure_not_recover (p : ProxyHealth) :
  Healthy p = false -> Healthy (RecordFailure p) = false.
Proof.
  intros Hp. rewrite RecordFailure_healthy, Hp. now destruct (_ >=? _).
Qed.

Lemma health_step_recover (p : ProxyHealth) (c : HealthCall) :
  Healthy p = false -> Healthy (health_step p c) = true -> c = CallRecordSuccess.
Proof.
  destruct c; cbn [health_step]; intros Hp Hq; try reflexivity.
  - rewrite (RecordFailure_not_recover p Hp) in Hq. discriminate.
  - congruence.
Qed.

Lemma health_run_snoc (p : ProxyHealth) (cs : list HealthCall) (c : HealthCall) :
  health_run p (cs ++ [c]) = health_step (health_run p cs) c.
Proof. unfold health_run. now rewrite fold_left_app. Qed.

Lemma health_run_recover (cs : list HealthCall) :
  forall p, Healthy p = false -> Healthy (health_run p cs) = true ->
            In CallRecordSuccess cs.
Proof.
  induction cs as [|c cs IH]; intros p Hp Hq.
  - simpl in Hq. congruence.
  - change (health_run p (c :: cs)) with (health_run (health_step p c) cs) in Hq.
    destruct (Healthy (health_step p c)) eqn:Hc.
    + left. now apply (health_step_recover p).
    + right. now apply (IH (health_step p c)).
Qed.

Lemma health_run_limit (cs : list HealthCall) (p : ProxyHealth) :
  FailureLimit (health_run p cs) = FailureLimit p.
Proof.
  revert p. induction cs as [|c cs IH]; intros p; [reflexivity|].
  change (health_run p (c :: cs)) with (health_run (health_step p c) cs).
  rewrite IH. now destruct c.
Qed.

(** C4. Under the mutex every interleaving of the three methods is a
    sequence of whole calls.  [RecordFailure] increments [FailureCount] (a
    Go [int], so the increment is plain below the largest [int]) and clears
    [Healthy] exactly when the incremented count has reached [FailureLimit],
    leaving it as it was otherwise; [RecordSuccess] sets the count to 0 and
    [Healthy] to true; [IsHealthy] changes nothing; a call, or a whole run of
    calls, that takes [Healthy] from false to true is, or contains, a
    [RecordSuccess].  With a limit of 3 and a count that starts anywhere
    from 0, three failures in a row make [IsHealthy] false and one success
    after them makes it true with a count of 0. *)
Theorem health_tracker_invariant (p : ProxyHealth) (c : HealthCall)
    (cs : list HealthCall) :
  (FailureCount (RecordFailure p) = int_wrap (FailureCount p + 1)
   /\ (in_int (FailureCount p) -> FailureCount p < int_max ->
       FailureCount (RecordFailure p) = FailureCount p + 1)
   /\ (Healthy (RecordFailure p) = false <->
       FailureCount (RecordFailure p) >= FailureLimit p \/ Healthy p = false)
   /\ (FailureCount (RecordFailure p) < FailureLimit p ->
       Healthy (RecordFailure p) = Healthy p)
   /\ FailureLimit (RecordFailure p) = FailureLimit p)
  /\ (FailureCount (RecordSuccess p) = 0 /\ Healthy (RecordSuccess p) = true
      /\ FailureLimit (RecordSuccess p) = FailureLimit p)
  /\ (IsHealthy p = Healthy p /\ health_step p CallIsHealthy = p)
  /\ (Healthy p = false -> Healthy (health_step p c) = true ->
      c = CallRecordSuccess)
  /\ (Healthy p = false -> Healthy (health_run p cs) = true ->
      In CallRecordSuccess cs)
  /\ (FailureLimit p = 3 -> 0 <= FailureCount p <= int_max - 3 ->
      let q := RecordFailure (RecordFailure (RecordFailure p)) in
      IsHealthy q = false
      /\ IsHealthy (RecordSuccess q) = true
      /\ FailureCount (RecordSuccess q) = 0).
Proof.
  split; [|split; [|split; [|split; [|split]]]].
  - split; [reflexivity|]. split; [|split; [|split; [|reflexivity]]].
    + intros Hr Hlt. rewrite RecordFailure_count. apply int_wrap_id.
      unfold in_int, int_min, int_max in *. lia.
    + rewrite RecordFailure_healthy.
      destruct (FailureCount (RecordFailure p) >=? FailureLimit p) eqn:E.
      * apply Z.geb_le in E. split; [intros _; left; lia | reflexivity].
      * split; [intros ->; now right | intros [Hge | Hp]; [|exact Hp]].
        apply Z.ge_le, Z.geb_le in Hge. congruence.
    + intros Hlt. rewrite RecordFailure_healthy.
      destruct (FailureCount (RecordFailure p) >=? FailureLimit p) eqn:E;
        [apply Z.geb_le in E; lia | reflexivity].
  - repeat split.
  - split; reflexivity.
  - apply health_step_recover.
  - apply health_run_recover.
  - intros Hlim Hcount q. subst q. unfold IsHealthy.
    split; [|split; reflexivity].
    rewrite RecordFailure_healthy. simpl FailureLimit. rewrite Hlim.
    rewrite !RecordFailure_count.
    assert (Hw : forall z, 0 <= z <= int_max - 1 -> int_wrap (z + 1) = z + 1).
    { intros z Hz. apply int_wrap_id. unfold in_int, int_min, int_max in *. lia. }
    rewrite (Hw (FailureCount p)) by lia.
    rewrite (Hw (FailureCount p + 1)) by lia.
    rewrite (Hw (FailureCount p + 1 + 1)) by lia.
    destruct (FailureCount p + 1 + 1 + 1 >=? 3) eqn:E; [reflexivity|].
    rewrite Z.geb_leb in E. apply Z.leb_gt in E. lia.
Qed.

Lemma health_tracker_invariant_witness :
  IsHealthy (RecordFailure (RecordFailure (RecordFailure freshHealth))) = false
  /\ IsHealthy (RecordSuccess (RecordFailure (RecordFailure (RecordFailure freshHealth)))) = true
  /\ FailureCount (RecordFailure freshHealth) = 1
  /\ In CallRecordSuccess [CallRecordFailure; CallRecordFailure; CallRecordFailure; CallIsHealthy; CallRecordSuccess].
Proof.
  pose proof (health_tracker_invariant
                (RecordFailure (RecordFailure (RecordFailure freshHealth)))
                CallRecordSuccess [CallIsHealthy; CallRecordSuccess]) as H1.
  pose proof (health_tracker_invariant freshHealth CallRecordFailure
                [CallRecordFailure; CallRecordFailure; CallRecordFailure;
                 CallIsHealthy; CallRecordSuccess]) as H0.
  destruct H0 as ((_ & Hinc & _) & _ & _ & _ & Hrun & Hthree).
  destruct (Hthree eq_refl ltac:(unfold int_max; simpl; lia)) as (Ha & Hb & _).
  split; [exact Ha|]. split; [exact Hb|]. split.
  - apply Hinc; unfold in_int, int_min, int_max; simpl; lia.
  - destruct H1 as (_ & _ & _ & _ & Hrun1 & _).
    right. right. right. apply Hrun1; [exact Ha | reflexivity].
Defined.

(** ** Facts about the string functions *)

Lemma cut_Some (c : ascii) (s l r : string) :
  cut c s = Some (l, r) -> s = l ++ String c r /\ cut c l = None.
Proof.
  revert l r. induction s as [|a s IH]; intros l r; simpl; [discriminate|].
  destruct (Ascii.eqb_spec a c) as [->|Hne].
  - intros [= <- <-]. now split.
  - destruct (cut c s) as [[l' r']|] eqn:E; [|discriminate].
    intros [= <- <-]. destruct (IH l' r' eq_refl) as [-> Hl].
    split; [reflexivity|]. simpl.
    destruct (Ascii.eqb_spec a c); [contradiction|]. now rewrite Hl.
Qed.

Lemma cut_app (c : ascii) (l r : string) :
  cut c l = None -> cut c (l ++ String c r) = Some (l, r).
Proof.
  induction l as [|a l IH]; simpl.
  - intros _. now rewrite Ascii.eqb_refl.
  - destruct (Ascii.eqb a c); [discriminate|].
    destruct (cut c l) as [[? ?]|]; [discriminate|].
    intros _. now rewrite IH.
Qed.

Lemma cut_None (c : ascii) (s : string) : cut c s = None <-> ~ occurs c s.
Proof.
  split.
  - intros Hn (l & r & ->). revert Hn.
    induction l as [|a l IH]; simpl.
    + now rewrite Ascii.eqb_refl.
    + destruct (Ascii.eqb a c); [discriminate|].
      destruct (cut c (l ++ String c r)) as [[? ?]|]; [discriminate|].
      intros _. now apply IH.
  - intros Hn. destruct (cut c s) as [[l r]|] eqn:E; [|reflexivity].
    exfalso. apply Hn. exists l, r. now apply cut_Some in E.
Qed.

Lemma SplitN2_two (s : string) (c : ascii) (l r : string) :
  SplitN2 s c = [l; r] <-> s = l ++ String c r /\ ~ occurs c l.
Proof.
  unfold SplitN2. split.
  - destruct (cut c s) as [[l' r']|] eqn:E; [|discriminate].
    intros [= <- <-]. apply cut_Some in E as [-> Hl]. split; [reflexivity|].
    now apply cut_None.
  - intros [-> Hl]. apply cut_None in Hl. now rewrite (cut_app c l r Hl).
Qed.

Lemma SplitN2_one (s : string) (c : ascii) :
  (exists t, SplitN2 s c = [t]) <-> ~ occurs c s.
Proof.
  unfold SplitN2. rewrite <- cut_None.
  destruct (cut c s) as [[l r]|]; split; try discriminate; eauto.
  intros [t [=]].
Qed.

Lemma SplitN2_cases (s : string) (c : ascii) :
  SplitN2 s c = [s] \/ exists l r, SplitN2 s c = [l; r].
Proof. unfold SplitN2. destruct (cut c s) as [[l r]|]; eauto. Qed.

Lemma Basic_no_space : ~ occurs space "Basic".
Proof. apply cut_None. reflexivity. Qed.

(** ** The 407 responses *)

Lemma digestUnauthorized_reply {S : Type} (req : option Request) (realm : string)
    (authFunc : DigestAuthFunc S) (st st' : S) (reply : DigestAuthResponse) :
  authFunc st None getNonce = Ok (Some reply, st') ->
  digestUnauthorized req realm authFunc st
  = Ok ({| StatusCode := 407; ProtoMajor := 1; ProtoMinor := 1;
           RespRequest := req;
           RespHeader := {[ ProxyAuthenticateHeader :=
                              ["Digest realm=" ++ quoted realm
                               ++ ", qop=auth, nonce=" ++ quoted (data reply)] ]};
           Body := unauthorizedMsg;
           ContentLength := len unauthorizedMsg |}, st').
Proof. unfold digestUnauthorized. intros ->. reflexivity. Qed.

Lemma makeDigestAuthValidator_getNonce `{DigestAuthStore} (auth : DigestAuth)
    (d : option DigestAuthData) :
  makeDigestAuthValidator auth d getNonce
  = Ok (Some {| data := fst (newNonce auth); status := nonceOk |},
        snd (newNonce auth)).
Proof.
  unfold makeDigestAuthValidator. simpl. now destruct (newNonce auth).
Qed.


(** ** Digest header parsing *)

Lemma insertToken_no_equals (m : gmap string string) (token : string) :
  ~ occurs equals token ->
  insertToken m token = Panic "index out of range [1] with length 1".
Proof.
  intros Hn. apply cut_None in Hn. unfold insertToken, SplitN2. now rewrite Hn.
Qed.

Lemma insertToken_equals (m : gmap string string) (k v : string) :
  ~ occurs equals k ->
  insertToken m (k ++ String equals v) = Ok (<[k := Trim v dquote]> m).
Proof.
  intros Hn. apply cut_None in Hn. unfold insertToken, SplitN2.
  now rewrite (cut_app equals k v Hn).
Qed.

(** C2. A Digest header whose parameter list holds a token without an
    equals sign, here the header value [Digest abc], is not turned into an
    authentication failure: [kv[1]] is read from a one-element slice,
    [getDigestAuthData] panics, and so does [performDigestAuth] for every
    validator.  The Basic parser next to it checks the length of its split
    before indexing: a payload that does not decode is an authentication
    failure. *)
Theorem digest_token_without_equals_panics :
  snd (getDigestAuthData (requestWithAuth "Digest abc"))
  = Panic "index out of range [1] with length 1"
  /\ (forall (S : Type) (authFunc : DigestAuthFunc S) (st : S),
        snd (performDigestAuth (requestWithAuth "Digest abc") authFunc st)
        = Panic "index out of range [1] with length 1")
  /\ (forall (S : Type) (authFunc : BasicAuthFunc S) (st : S),
        snd (@performBasicAuth sampleLib S (requestWithAuth "Basic abc") authFunc st)
        = Ok (false, None, st)).
Proof.
  split; [|split].
  - vm_compute. reflexivity.
  - intros S authFunc st. unfold performDigestAuth.
    assert (E : getDigestAuthData (requestWithAuth "Digest abc")
                = (fst (getDigestAuthData (requestWithAuth "Digest abc")),
                   Panic "index out of range [1] with length 1")).
    { vm_compute. reflexivity. }
    rewrite E. reflexivity.
  - intros S authFunc st. unfold performBasicAuth.
    assert (E : @getBasicAuthData sampleLib (requestWithAuth "Basic abc")
                = (fst (@getBasicAuthData sampleLib (requestWithAuth "Basic abc")),
                   None)).
    { vm_compute. reflexivity. }
    rewrite E. reflexivity.
Qed.

Lemma app_cons_string (c : ascii) (a b : string) :
  String c a ++ b = String c (a ++ b).
Proof. reflexivity. Qed.

Lemma length_app_string (a b : string) :
  String.length (a ++ b) = (String.length a + String.length b)%nat.
Proof.
  induction a as [|c a IH]; [reflexivity|].
  rewrite app_cons_string. simpl. now rewrite IH.
Qed.

Lemma app_snoc_string (pre : string) (a : ascii) (s : string) :
  (pre ++ String a EmptyString) ++ s = pre ++ String a s.
Proof.
  induction pre as [|c pre IH]; [reflexivity|].
  rewrite !app_cons_string. now rewrite IH.
Qed.

Lemma get_app_here (pre : string) (a : ascii) (s : string) :
  String.get (String.length pre) (pre ++ String a s) = Some a.
Proof. exact (eq_sym (append_correct2 pre (String a s) 0)). Qed.

Lemma get_Some_lt (s : string) (n : nat) (c : ascii) :
  String.get n s = Some c -> (n < String.length s)%nat.
Proof.
  revert n. induction s as [|a s IH]; intros n; simpl; [discriminate|].
  destruct n as [|n]; [lia|]. intros Hn. apply IH in Hn. lia.
Qed.

Lemma get_app_l (pre s : string) (n : nat) (c : ascii) :
  String.get n pre = Some c -> String.get n (pre ++ s) = Some c.
Proof.
  intros Hn. rewrite <- append_correct1; [exact Hn|]. now apply get_Some_lt in Hn.
Qed.

(** Every match of the quoted-string pattern runs from one double quote to
    a later one; its group is the text between the two. *)
Lemma quoteScan_shape (s : string) :
  forall (pre : string) (open : option nat) (q : list nat),
    (forall p, open = Some p -> String.get p pre = Some dquote) ->
    In q (quoteScan open (String.length pre) s) ->
    exists p e, q = [p; S e; S p; e] /\ (p < e)%nat
                /\ String.get p (pre ++ s) = Some dquote
                /\ String.get e (pre ++ s) = Some dquote.
Proof.
  induction s as [|a s IH]; intros pre open q Hopen Hq; [destruct Hq|].
  assert (Hlen : S (String.length pre) = String.length (pre ++ String a EmptyString)).
  { rewrite length_app_string. simpl. lia. }
  assert (Hnext : forall open',
             (forall p, open' = Some p ->
                        String.get p (pre ++ String a EmptyString) = Some dquote) ->
             In q (quoteScan open' (S (String.length pre)) s) ->
             exists p e, q = [p; S e; S p; e] /\ (p < e)%nat
                         /\ String.get p (pre ++ String a s) = Some dquote
                         /\ String.get e (pre ++ String a s) = Some dquote).
  { intros open' Ho Hin. rewrite Hlen in Hin.
    destruct (IH _ _ _ Ho Hin) as (p & e & ? & ? & Hp & He).
    rewrite app_snoc_string in Hp, He. eauto 8. }
  simpl in Hq. destruct open as [p|].
  - specialize (Hopen p eq_refl).
    destruct (Ascii.eqb_spec a dquote) as [->|Hnq].
    + destruct Hq as [<- | Hq].
      * exists p, (String.length pre). split; [reflexivity|].
        split; [now apply get_Some_lt in Hopen|].
        split; [now apply get_app_l | apply get_app_here].
      * apply (Hnext None); [discriminate | exact Hq].
    + destruct (Ascii.eqb a newline).
      * apply (Hnext None); [discriminate | exact Hq].
      * apply (Hnext (Some p)); [|exact Hq].
        intros ? [= <-]. now apply get_app_l.
  - destruct (Ascii.eqb_spec a dquote) as [->|Hnq].
    + apply (Hnext (Some (String.length pre))); [|exact Hq].
      intros ? [= <-]. apply get_app_here.
    + apply (Hnext None); [discriminate | exact Hq].
Qed.

Lemma quotedStrings_shape (h : string) (q : list nat) :
  In q (quotedStrings_FindAll h) ->
  exists p e, q = [p; S e; S p; e] /\ (p < e)%nat
              /\ String.get p h = Some dquote /\ String.get e h = Some dquote.
Proof.
  intros Hq. apply (quoteScan_shape h EmptyString None q); [discriminate | exact Hq].
Qed.

Lemma commaScan_index (s : string) :
  forall (i n : nat),
    In n (map (fun commaIndices => nth 0 commaIndices 0%nat) (commaScan i s))
    <-> (i <= n)%nat /\ String.get (n - i) s = Some comma.
Proof.
  induction s as [|a s IH]; intros i n; simpl.
  - split; [tauto | intros [_ [=]]].
  - assert (Hrest : In n (map (fun commaIndices => nth 0 commaIndices 0%nat)
                              (commaScan (S i) s))
                    <-> (i < n)%nat /\ String.get (n - S i) s = Some comma).
    { rewrite IH. split; intros [? ?]; (split; [lia | assumption]). }
    destruct (Ascii.eqb_spec a comma) as [->|Hne]; simpl; rewrite Hrest.
    + split.
      * intros [<- | [Hlt Hg]].
        -- rewrite Nat.sub_diag. now split.
        -- split; [lia|]. replace (n - i)%nat with (S (n - S i)) by lia. exact Hg.
      * intros [Hle Hg]. destruct (n - i)%nat as [|k] eqn:E.
        -- left. lia.
        -- right. split; [lia|]. now replace (n - S i)%nat with k by lia.
    + split.
      * intros [Hlt Hg]. split; [lia|].
        replace (n - i)%nat with (S (n - S i)) by lia. exact Hg.
      * intros [Hle Hg]. destruct (n - i)%nat as [|k] eqn:E.
        -- congruence.
        -- split; [lia|]. now replace (n - S i)%nat with k by lia.
Qed.

Lemma quotedComma_true (quotes : list (list nat)) (i : nat) :
  quotedComma quotes i = true
  <-> exists q, In q quotes /\ length q = 4%nat
                /\ (nth 2 q 0 <= i)%nat /\ (i <= nth 3 q 0)%nat.
Proof.
  unfold quotedComma. rewrite existsb_exists.
  split; intros (q & Hq & Hb); exists q; (split; [exact Hq|]).
  - apply andb_prop in Hb as [Hb H3]. apply andb_prop in Hb as [H1 H2].
    apply Nat.eqb_eq in H1. apply Nat.leb_le in H2, H3. auto.
  - destruct Hb as (H1 & H2 & H3).
    apply Nat.eqb_eq in H1. apply Nat.leb_le in H2, H3.
    now rewrite H1, H2, H3.
Qed.

Lemma separateCommas_spec (h : string) (i : nat) :
  In i (separateCommas (quotedStrings_FindAll h) (commas_FindAll h))
  <-> String.get i h = Some comma
      /\ ~ exists p e, In [p; S e; S p; e] (quotedStrings_FindAll h)
                       /\ (p < i < e)%nat.
Proof.
  unfold separateCommas, commas_FindAll.
  rewrite <- list_elem_of_In, list_elem_of_filter, list_elem_of_In.
  rewrite commaScan_index, Nat.sub_0_r.
  split.
  - intros (Hq & _ & Hc). split; [exact Hc|].
    intros (p & e & Hin & Hlt). apply Bool.not_true_iff_false in Hq.
    apply Hq, quotedComma_true. exists [p; S e; S p; e]. simpl.
    repeat split; [exact Hin | lia | lia].
  - intros (Hc & Hn). split; [|split; [lia | exact Hc]].
    apply Bool.not_true_iff_false. intros Hq.
    apply quotedComma_true in Hq as (q & Hin & _ & H2 & H3).
    destruct (quotedStrings_shape h q Hin) as (p & e & -> & _ & _ & He).
    simpl in H2, H3. apply Hn. exists p, e. split; [exact Hin|].
    assert (i <> e) by (intros ->; rewrite He in Hc; discriminate).
    lia.
Qed.

(** C3. The header
    [Digest username="bob", realm="r,x", nonce="n1", uri="/a,b", response="abc", qop=auth, nc=00000001, cnonce="c1"]
    parses to the user bob, the realm [r,x], the nonce n1, the uri [/a,b],
    the response abc, the qop auth, the nc 00000001 and the cnonce c1.  In
    every header a comma separates two tokens if and only if it does not lie
    between the two double quotes of a match of the quoted-string pattern,
    and every such match runs from one double quote to a later one. *)
Theorem digest_quoted_commas :
  snd (getDigestAuthData (requestWithAuth quotedCommaHeader))
  = Ok (Some {| user := "bob"; realm := "r,x"; nonce := "n1"; uri := "/a,b";
                response := "abc"; qop := "auth"; nc := "00000001";
                cnonce := "c1"; method := "GET" |})
  /\ (forall (h : string) (i : nat),
        In i (separateCommas (quotedStrings_FindAll h) (commas_FindAll h))
        <-> String.get i h = Some comma
            /\ ~ exists p e, In [p; S e; S p; e] (quotedStrings_FindAll h)
                             /\ (p < i < e)%nat)
  /\ (forall (h : string) (q : list nat),
        In q (quotedStrings_FindAll h) ->
        exists p e, q = [p; S e; S p; e] /\ (p < e)%nat
                    /\ String.get p h = Some dquote
                    /\ String.get e h = Some dquote).
Proof.
  split; [vm_compute; reflexivity|].
  split; [exact separateCommas_spec | exact quotedStrings_shape].
Qed.

Lemma digest_quoted_commas_witness :
  In [22; 27; 23; 26]%nat (quotedStrings_FindAll (slice quotedCommaHeader 7 200))
  /\ In 14%nat (separateCommas (quotedStrings_FindAll (slice quotedCommaHeader 7 200))
                               (commas_FindAll (slice quotedCommaHeader 7 200)))
  /\ ~ In 24%nat (separateCommas (quotedStrings_FindAll (slice quotedCommaHeader 7 200))
                                 (commas_FindAll (slice quotedCommaHeader 7 200))).
Proof.
  destruct digest_quoted_commas as (_ & Hsep & Hshape).
  assert (Hq : In [22; 27; 23; 26]%nat
                 (quotedStrings_FindAll (slice quotedCommaHeader 7 200))).
  { vm_compute. tauto. }
  split; [exact Hq|]. split.
  - vm_compute. tauto.
  - intros Hin. apply Hsep in Hin as [_ Hn]. apply Hn.
    exists 22%nat, 26%nat. split; [exact Hq | lia].
Defined.

(** ** Basic header parsing *)

Lemma Basic_prefix (b64 : string) : "Basic" ++ String space b64 = "Basic " ++ b64.
Proof. reflexivity. Qed.

Lemma Basic_prefix_inj (b1 b2 : string) : "Basic " ++ b1 = "Basic " ++ b2 -> b1 = b2.
Proof. intros E. cbv [append] in E. congruence. Qed.

Lemma SplitN2_Basic (b64 : string) : SplitN2 ("Basic " ++ b64) space = ["Basic"; b64].
Proof. apply SplitN2_two. split; [reflexivity | apply Basic_no_space]. Qed.

Lemma Basic_form_dec (value : string) :
  (exists b64, value = "Basic " ++ b64) \/ (forall b64, value <> "Basic " ++ b64).
Proof.
  destruct (SplitN2_cases value space) as [E | (l & r & E)].
  - right. intros b64 ->. rewrite SplitN2_Basic in E. discriminate.
  - destruct (String.eqb_spec l "Basic") as [->|Hne].
    + left. exists r. apply SplitN2_two in E as [-> _]. reflexivity.
    + right. intros b64 ->. rewrite SplitN2_Basic in E. congruence.
Qed.

Section BasicParser.
Context `{GoLib}.
Variable req : Request.

Let value : string := Header_Get (ReqHeader req) ProxyAuthorizatonHeader.

Lemma getBasicAuthData_other :
  (forall b64, value <> "Basic " ++ b64) -> snd (getBasicAuthData req) = None.
Proof.
  intros Hn. unfold getBasicAuthData. fold value.
  destruct (SplitN2_cases value space) as [E | (l & r & E)]; rewrite E.
  - reflexivity.
  - destruct (String.eqb_spec l "Basic") as [->|Hne]; [|reflexivity].
    exfalso. apply SplitN2_two in E as [E _]. now apply (Hn r).
Qed.

Lemma getBasicAuthData_Basic (b64 : string) :
  value = "Basic " ++ b64 ->
  snd (getBasicAuthData req)
  = match base64_DecodeString b64 with
    | None => None
    | Some decoded =>
        match cut colon decoded with
        | Some (u, p) => Some {| basic_user := u; basic_password := p |}
        | None => None
        end
    end.
Proof.
  intros E. unfold getBasicAuthData. fold value. rewrite E, SplitN2_Basic.
  simpl negb. cbv iota.
  destruct (base64_DecodeString b64) as [decoded|]; [|reflexivity].
  unfold SplitN2. now destruct (cut colon decoded) as [[u p]|].
Qed.

(** C9. For a header value [Basic <b64>] whose payload decodes to a text
    with a colon, the user is the text before the first colon and the
    password all that follows it.  The parser returns nil exactly when
    the value is not the scheme token Basic, a space and a payload, or
    the payload does not decode, or the decoded text has no colon. *)
Theorem basic_first_colon :
  (forall b64 u p,
      value = "Basic " ++ b64 ->
      base64_DecodeString b64 = Some (u ++ String colon p) ->
      ~ occurs colon u ->
      snd (getBasicAuthData req)
      = Some {| basic_user := u; basic_password := p |})
  /\ (snd (getBasicAuthData req) = None
      <-> (forall b64, value <> "Basic " ++ b64)
          \/ (exists b64, value = "Basic " ++ b64
                          /\ base64_DecodeString b64 = None)
          \/ (exists b64 decoded,
                 value = "Basic " ++ b64
                 /\ base64_DecodeString b64 = Some decoded
                 /\ ~ occurs colon decoded)).
Proof.
  split.
  - intros b64 u p E Hd Hu. rewrite (getBasicAuthData_Basic b64 E), Hd.
    apply cut_None in Hu. now rewrite (cut_app colon u p Hu).
  - split.
    + intros Hnil. destruct (Basic_form_dec value) as [(b64 & E) | Hn];
        [|now left].
      right. rewrite (getBasicAuthData_Basic b64 E) in Hnil.
      destruct (base64_DecodeString b64) as [decoded|] eqn:Hd;
        [|left; now exists b64].
      right. exists b64, decoded. split; [exact E|]. split; [exact Hd|].
      apply cut_None. now destruct (cut colon decoded) as [[u p]|].
    + intros [Hn | [(b64 & E & Hd) | (b64 & decoded & E & Hd & Hc)]].
      * now apply getBasicAuthData_other.
      * now rewrite (getBasicAuthData_Basic b64 E), Hd.
      * rewrite (getBasicAuthData_Basic b64 E), Hd.
        apply cut_None in Hc. now rewrite Hc.
Qed.

End BasicParser.

Lemma basic_first_colon_witness :
  snd (@getBasicAuthData sampleLib (requestWithAuth "Basic dXNlcjpwYTpzcw=="))
  = Some {| basic_user := "user"; basic_password := "pa:ss" |}
  /\ snd (@getBasicAuthData sampleLib (requestWithAuth "Basic dXNlcg==")) = None.
Proof.
  split.
  - apply (proj1 (@basic_first_colon sampleLib
                    (requestWithAuth "Basic dXNlcjpwYTpzcw=="))
             "dXNlcjpwYTpzcw==" "user" "pa:ss").
    + reflexivity.
    + vm_compute. reflexivity.
    + apply cut_None. reflexivity.
  - apply (proj2 (@basic_first_colon sampleLib (requestWithAuth "Basic dXNlcg=="))).
    right. right. exists "dXNlcg==", "user".
    split; [reflexivity|]. split; [vm_compute; reflexivity|].
    apply cut_None. reflexivity.
Defined.

(** ** The forward-proxy resolver *)

Lemma len_pos (s : string) : (len s >? 0) = negb (String.eqb s EmptyString).
Proof. now destruct s. Qed.

Lemma HasSuffix_same_length (host a b : string) :
  HasSuffix host a = true -> HasSuffix host b = true ->
  String.length a = String.length b -> a = b.
Proof.
  unfold HasSuffix. intros Ha Hb Hl.
  apply andb_prop in Ha as [_ Ha]. apply andb_prop in Hb as [_ Hb].
  apply String.eqb_eq in Ha, Hb. rewrite Hl in Ha. congruence.
Qed.

Section Resolver.
Context `{GoLib}.
Variable host : string.
Variable conf : Configuration.

Let scan (keys : list string) (st : Scan) : Scan :=
  fold_left (scanStep host conf) keys st.

Lemma scanStep_unusable (st : Scan) (domain : string) :
  aliasURL conf domain = None -> scanStep host conf st domain = st.
Proof. unfold scanStep, aliasURL. now intros ->. Qed.

Lemma scanStep_generic (st : Scan) :
  is_Some (aliasURL conf ".") ->
  scanStep host conf st "."
  = {| genericProxy := genericRule conf;
       mostSpecificMatch := mostSpecificMatch st;
       mostSpecificLength := mostSpecificLength st |}.
Proof.
  unfold scanStep, genericRule, aliasURL. intros [proxyURL ->]. reflexivity.
Qed.

Lemma scanStep_candidate (st : Scan) (domain : string) :
  candidate host conf domain = true ->
  mostSpecificLength st < len domain ->
  scanStep host conf st domain
  = {| genericProxy := genericProxy st;
       mostSpecificMatch := aliasURL conf domain ≫= url_Parse;
       mostSpecificLength := len domain |}.
Proof.
  unfold candidate. intros Hc Hlt.
  apply andb_prop in Hc as [Hc Hs]. apply andb_prop in Hc as [Hd Ha].
  apply bool_decide_eq_true in Ha as [proxyURL Ha].
  unfold scanStep. fold (aliasURL conf domain). rewrite Ha.
  apply Bool.negb_true_iff in Hd. rewrite Hd, Hs. simpl.
  now replace (len domain >? mostSpecificLength st) with true
    by (symmetry; apply Z.gtb_lt; lia).
Qed.

Lemma scanStep_specific_kept (st : Scan) (domain : string) :
  candidate host conf domain = false \/ len domain <= mostSpecificLength st ->
  mostSpecificMatch (scanStep host conf st domain) = mostSpecificMatch st
  /\ mostSpecificLength (scanStep host conf st domain) = mostSpecificLength st.
Proof.
  intros Hk. unfold scanStep. fold (aliasURL conf domain).
  destruct (aliasURL conf domain) as [proxyURL|] eqn:Ha; [|now split].
  destruct (String.eqb domain ".") eqn:Hd; [now split|].
  destruct (HasSuffix host domain) eqn:Hs; [|now split].
  destruct (len domain >? mostSpecificLength st) eqn:Hg; [|now split].
  exfalso. apply Z.gtb_lt in Hg. destruct Hk as [Hc | Hle]; [|lia].
  unfold candidate in Hc. rewrite Hd, Hs, Ha in Hc.
  rewrite bool_decide_eq_true_2 in Hc by eauto. discriminate.
Qed.

Lemma scanStep_generic_kept (st : Scan) (domain : string) :
  domain <> "." ->
  genericProxy (scanStep host conf st domain) = genericProxy st.
Proof.
  intros Hd. apply String.eqb_neq in Hd. unfold scanStep.
  destruct (Proxies conf !! _); [|reflexivity]. rewrite Hd.
  now destruct (_ && _).
Qed.

Lemma scan_frozen (keys : list string) :
  forall st : Scan,
    Forall (fun domain => len domain <= mostSpecificLength st) keys ->
    mostSpecificMatch (scan keys st) = mostSpecificMatch st
    /\ mostSpecificLength (scan keys st) = mostSpecificLength st.
Proof.
  induction keys as [|domain keys IH]; intros st Hall; [now split|].
  apply Forall_cons in Hall as [Hd Hall].
  destruct (scanStep_specific_kept st domain (or_intror Hd)) as [Em El].
  change (scan (domain :: keys) st) with (scan keys (scanStep host conf st domain)).
  destruct (IH (scanStep host conf st domain)) as [Em' El'].
  - now rewrite El.
  - split; congruence.
Qed.

Lemma scan_specific (keys : list string) :
  forall st : Scan,
    StronglySorted notShorter keys ->
    mostSpecificLength st < 0 ->
    match filter (fun domain => candidate host conf domain = true) keys with
    | [] => mostSpecificMatch (scan keys st) = mostSpecificMatch st
            /\ mostSpecificLength (scan keys st) = mostSpecificLength st
    | domain :: _ =>
        mostSpecificMatch (scan keys st) = aliasURL conf domain ≫= url_Parse
        /\ mostSpecificLength (scan keys st) = len domain
    end.
Proof.
  induction keys as [|domain keys IH]; intros st Hs Hneg; [now split|].
  apply StronglySorted_cons in Hs as [Hall Hs].
  change (scan (domain :: keys) st) with (scan keys (scanStep host conf st domain)).
  destruct (candidate host conf domain) eqn:Hc.
  - rewrite filter_cons_True by exact Hc.
    rewrite (scanStep_candidate st domain Hc) by (unfold len; lia).
    apply scan_frozen. simpl. eapply Forall_impl; [exact Hall|].
    unfold notShorter, len. intros d Hd. lia.
  - rewrite filter_cons_False by congruence.
    destruct (scanStep_specific_kept st domain (or_introl Hc)) as [Em El].
    specialize (IH (scanStep host conf st domain) Hs ltac:(lia)).
    destruct (filter _ keys); destruct IH as [IHm IHl]; split; congruence.
Qed.

Lemma scan_generic_present (keys : list string) :
  forall st : Scan,
    "." ∈ keys -> is_Some (aliasURL conf ".") ->
    genericProxy (scan keys st) = genericRule conf
    /\ (genericProxy st = genericRule conf ->
        genericProxy (scan keys st) = genericRule conf).
Proof.
  assert (Hkeep : forall keys st,
             is_Some (aliasURL conf ".") ->
             genericProxy st = genericRule conf ->
             genericProxy (scan keys st) = genericRule conf).
  { clear keys. induction keys as [|domain keys IH]; intros st Ha Hg; [exact Hg|].
    change (scan (domain :: keys) st) with (scan keys (scanStep host conf st domain)).
    apply IH; [exact Ha|].
    destruct (String.eqb_spec domain ".") as [->|Hne].
    - now rewrite scanStep_generic.
    - now rewrite scanStep_generic_kept. }
  induction keys as [|domain keys IH]; intros st Hin Ha.
  - now apply not_elem_of_nil in Hin.
  - split; [|now apply Hkeep].
    change (scan (domain :: keys) st) with (scan keys (scanStep host conf st domain)).
    destruct (String.eqb_spec domain ".") as [->|Hne].
    + apply Hkeep; [exact Ha|]. now rewrite scanStep_generic.
    + apply elem_of_cons in Hin as [Hin | Hin]; [congruence|].
      exact (proj1 (IH (scanStep host conf st domain) Hin Ha)).
Qed.

Lemma scan_generic_absent (keys : list string) :
  forall st : Scan,
    "." ∉ keys \/ aliasURL conf "." = None ->
    genericProxy (scan keys st) = genericProxy st.
Proof.
  induction keys as [|domain keys IH]; intros st Hn; [reflexivity|].
  change (scan (domain :: keys) st) with (scan keys (scanStep host conf st domain)).
  rewrite IH.
  - destruct (String.eqb_spec domain ".") as [->|Hne].
    + destruct Hn as [Hn | Hn]; [exfalso; apply Hn; left|].
      now rewrite scanStep_unusable.
    + now apply scanStep_generic_kept.
  - destruct Hn as [Hn | Hn]; [left | now right].
    intros Hin. apply Hn. now right.
Qed.

(** The resolver in one equation: the first candidate of the sorted keys if
    its proxy URL parses, else the global forward proxy if one is set, else
    what the scan left in [genericProxy]. *)
Lemma findMatchingProxy_sorted (keys : list string) :
  StronglySorted notShorter keys ->
  findMatchingProxy keys host conf
  = match specificRule keys host conf with
    | Some u => Some u
    | None =>
        if len (ForwardProxyURL conf) >? 0 then url_Parse (ForwardProxyURL conf)
        else genericProxy (scan keys scanInit)
    end.
Proof.
  intros Hs. unfold findMatchingProxy, specificRule. fold (scan keys scanInit).
  pose proof (scan_specific keys scanInit Hs ltac:(simpl; lia)) as Hsp.
  destruct (filter _ keys) as [|domain rest]; destruct Hsp as [Em _]; rewrite Em.
  - reflexivity.
  - simpl. reflexivity.
Qed.

Lemma StronglySorted_filter_keep {A : Type} (R : relation A) (P : A -> Prop)
    `{forall x, Decision (P x)} (l : list A) :
  StronglySorted R l -> StronglySorted R (filter P l).
Proof.
  induction l as [|x l IH]; intros Hs; [constructor|].
  apply StronglySorted_cons in Hs as [Hall Hs].
  rewrite filter_cons. destruct (decide (P x)); [|now apply IH].
  apply StronglySorted_cons. split; [|now apply IH].
  apply Forall_forall. intros y Hy. apply list_elem_of_filter in Hy as [_ Hy].
  rewrite Forall_forall in Hall. now apply Hall.
Qed.

Lemma candidate_suffix (domain : string) :
  candidate host conf domain = true -> HasSuffix host domain = true.
Proof. unfold candidate. intros Hc. now apply andb_prop in Hc as [_ Hc]. Qed.

(** Two candidates are suffixes of the same host, so the longest one is
    the same in every order that is sorted by descending length. *)
Lemma first_candidate_unique (keys1 keys2 : list string) :
  keys1 ≡ₚ keys2 ->
  StronglySorted notShorter keys1 -> StronglySorted notShorter keys2 ->
  head (filter (fun domain => candidate host conf domain = true) keys1)
  = head (filter (fun domain => candidate host conf domain = true) keys2).
Proof.
  intros Hp Hs1 Hs2.
  set (P := fun domain => candidate host conf domain = true).
  assert (Hpf : filter P keys1 ≡ₚ filter P keys2) by now rewrite Hp.
  apply (StronglySorted_filter_keep notShorter P) in Hs1, Hs2.
  assert (Hc : forall (keys : list string) (d : string), d ∈ filter P keys -> P d).
  { intros keys d Hd. now apply list_elem_of_filter in Hd as [Hd _]. }
  pose proof (Hc keys1) as Hc1. pose proof (Hc keys2) as Hc2.
  destruct (filter P keys1) as [|d1 t1], (filter P keys2) as [|d2 t2].
  - reflexivity.
  - now apply Permutation_nil_cons in Hpf.
  - symmetry in Hpf. now apply Permutation_nil_cons in Hpf.
  - simpl. f_equal.
    apply StronglySorted_cons in Hs1 as [H1 _], Hs2 as [H2 _].
    rewrite Forall_forall in H1, H2.
    assert (Hd1 : d1 ∈ d2 :: t2) by (rewrite <- Hpf; left).
    assert (Hd2 : d2 ∈ d1 :: t1) by (rewrite Hpf; left).
    apply elem_of_cons in Hd1 as [Hd1 | Hd1]; [exact Hd1|].
    apply elem_of_cons in Hd2 as [Hd2 | Hd2]; [now symmetry|].
    apply H2 in Hd1. apply H1 in Hd2. unfold notShorter in Hd1, Hd2.
    apply (HasSuffix_same_length host).
    + apply candidate_suffix, Hc1. left.
    + apply candidate_suffix, Hc2. left.
    + lia.
Qed.

Lemma ruleKeys_elem (keys : list string) (domain : string) :
  ruleKeys conf keys -> domain ∈ keys <-> is_Some (Rules conf !! domain).
Proof.
  intros [Hp _]. rewrite Hp, list_elem_of_fmap. split.
  - intros ([k v] & -> & Hin). apply elem_of_map_to_list in Hin. now exists v.
  - intros [v Hv]. exists (domain, v). split; [reflexivity|].
    now apply elem_of_map_to_list.
Qed.

Lemma no_candidate (keys : list string) :
  ruleKeys conf keys ->
  (forall domain, is_Some (Rules conf !! domain) -> domain <> "." ->
                  HasSuffix host domain = false) ->
  specificRule keys host conf = None.
Proof.
  intros Hk Hno. unfold specificRule.
  assert (Hnil : forall l : list string, (forall d, d ∈ l -> d ∈ keys) ->
             filter (fun domain => candidate host conf domain = true) l = []).
  { induction l as [|d l IH]; intros Hsub; [reflexivity|].
    rewrite filter_cons_False; [apply IH; intros; apply Hsub; now right|].
    unfold candidate. destruct (String.eqb_spec d ".") as [->|Hne];
      [simpl; discriminate|].
    rewrite (Hno d); [rewrite Bool.andb_false_r; discriminate | | exact Hne].
    apply (ruleKeys_elem keys d Hk), Hsub. left. }
  now rewrite Hnil.
Qed.

Lemma scan_generic (keys : list string) :
  ruleKeys conf keys ->
  genericProxy (scan keys scanInit)
  = match Rules conf !! "." with
    | Some alias => Proxies conf !! alias ≫= url_Parse
    | None => None
    end.
Proof.
  intros Hk. pose proof (ruleKeys_elem keys "." Hk) as Hdot.
  destruct (Rules conf !! ".") as [alias|] eqn:Hr.
  - assert (Ha : aliasURL conf "." = Proxies conf !! alias).
    { unfold aliasURL. now rewrite Hr. }
    destruct (Proxies conf !! alias) as [proxyURL|] eqn:Hp.
    + rewrite (proj1 (scan_generic_present keys scanInit
                        (proj2 Hdot ltac:(eauto)) ltac:(rewrite Ha; eauto))).
      unfold genericRule. now rewrite Ha.
    + now rewrite scan_generic_absent by (right; exact Ha).
  - rewrite scan_generic_absent; [reflexivity|]. left. intros Hin.
    apply Hdot in Hin as [? [=]].
Qed.

(** When no rule key other than the catch-all is a suffix of the host. *)
Lemma findMatchingProxy_fallback (keys : list string) :
  ruleKeys conf keys ->
  (forall domain, is_Some (Rules conf !! domain) -> domain <> "." ->
                  HasSuffix host domain = false) ->
  findMatchingProxy keys host conf
  = if len (ForwardProxyURL conf) >? 0 then url_Parse (ForwardProxyURL conf)
    else match Rules conf !! "." with
         | Some alias => Proxies conf !! alias ≫= url_Parse
         | None => None
         end.
Proof.
  intros Hk Hno. rewrite (findMatchingProxy_sorted keys (proj2 Hk)).
  rewrite (no_candidate keys Hk Hno). now rewrite (scan_generic keys Hk).
Qed.

Lemma findMatchingProxy_order (keys1 keys2 : list string) :
  ruleKeys conf keys1 -> ruleKeys conf keys2 ->
  findMatchingProxy keys1 host conf = findMatchingProxy keys2 host conf.
Proof.
  intros H1 H2.
  rewrite (findMatchingProxy_sorted keys1 (proj2 H1)).
  rewrite (findMatchingProxy_sorted keys2 (proj2 H2)).
  rewrite (scan_generic keys1 H1), (scan_generic keys2 H2).
  unfold specificRule. rewrite (first_candidate_unique keys1 keys2).
  - reflexivity.
  - etransitivity; [exact (proj1 H1) | symmetry; exact (proj1 H2)].
  - exact (proj2 H1).
  - exact (proj2 H2).
Qed.

End Resolver.

#[global] Instance notShorter_transitive : Transitive notShorter.
Proof. unfold notShorter. intros a b c. lia. Qed.

#[global] Instance notShorter_total : Total notShorter.
Proof. unfold notShorter. intros a b. lia. Qed.

(** Sorting the keys of the rules gives one of the orders the resolver can see. *)
Lemma sortedKeys_ok (conf : Configuration) : ruleKeys conf (sortedKeys conf).
Proof.
  split.
  - apply merge_sort_Permutation.
  - apply StronglySorted_merge_sort; apply _.
Qed.

(** C10. The keys reach the loop in some order of the map iteration that
    [sort.Slice] has put into descending length, and that order may differ
    from call to call.  For every configuration and every hostname the
    resolved proxy URL is the same for every two such orders, and the same
    as for the keys sorted by a fixed sort. *)
Theorem resolver_deterministic `{GoLib} (host : string) (conf : Configuration)
    (keys1 keys2 : list string) :
  ruleKeys conf keys1 -> ruleKeys conf keys2 ->
  findMatchingProxy keys1 host conf = findMatchingProxy keys2 host conf
  /\ findMatchingProxy keys1 host conf
     = findMatchingProxy (sortedKeys conf) host conf.
Proof.
  intros H1 H2. split.
  - now apply findMatchingProxy_order.
  - apply findMatchingProxy_order; [exact H1 | apply sortedKeys_ok].
Qed.

Lemma twoRules_orders :
  ruleKeys twoRules ["a.org"; "b.org"] /\ ruleKeys twoRules ["b.org"; "a.org"].
Proof.
  split; (split;
    [ vm_compute; first [reflexivity | apply perm_swap]
    | repeat constructor; unfold notShorter; simpl; lia ]).
Defined.

Lemma resolver_deterministic_witness :
  @findMatchingProxy sampleLib ["a.org"; "b.org"] "www.a.org" twoRules
  = @findMatchingProxy sampleLib ["b.org"; "a.org"] "www.a.org" twoRules.
Proof.
  exact (proj1 (@resolver_deterministic sampleLib "www.a.org" twoRules
                  ["a.org"; "b.org"] ["b.org"; "a.org"]
                  (proj1 twoRules_orders) (proj2 twoRules_orders))).
Defined.

(** C1, as the code has it.  For every hostname of which no rule key other
    than the catch-all is a suffix, the resolver returns the parsed global
    forward proxy URL when that URL is not empty; only when it is empty does
    it return the parsed proxy URL of the catch-all rule (when the rule is
    present and its alias is a key of the proxies), and only when that is
    absent too does it return nil.  With both a catch-all rule and a global
    forward proxy URL, the global one wins. *)
Theorem fallback_order `{GoLib} (host : string) (conf : Configuration)
    (keys : list string) :
  ruleKeys conf keys ->
  (forall domain, is_Some (Rules conf !! domain) -> domain <> "." ->
                  HasSuffix host domain = false) ->
  (ForwardProxyURL conf <> EmptyString ->
   findMatchingProxy keys host conf = url_Parse (ForwardProxyURL conf))
  /\ (ForwardProxyURL conf = EmptyString ->
      forall alias, Rules conf !! "." = Some alias ->
        findMatchingProxy keys host conf = Proxies conf !! alias ≫= url_Parse)
  /\ (ForwardProxyURL conf = EmptyString -> Rules conf !! "." = None ->
      findMatchingProxy keys host conf = None).
Proof.
  intros Hk Hno.
  assert (E : findMatchingProxy keys host conf
              = if len (ForwardProxyURL conf) >? 0
                then url_Parse (ForwardProxyURL conf)
                else genericProxy (fold_left (scanStep host conf) keys scanInit)).
  { rewrite (findMatchingProxy_sorted host conf keys (proj2 Hk)).
    now rewrite (no_candidate host conf keys Hk Hno). }
  rewrite E, len_pos, (scan_generic host conf keys Hk).
  split; [|split].
  - intros Hfp. apply String.eqb_neq in Hfp. now rewrite Hfp.
  - intros -> alias ->. reflexivity.
  - intros -> ->. reflexivity.
Qed.

Lemma bothFallbacks_no_suffix (domain : string) :
  is_Some (Rules bothFallbacks !! domain) -> domain <> "." ->
  HasSuffix "other.org" domain = false.
Proof.
  intros [alias Ha] Hne. unfold bothFallbacks in Ha. simpl in Ha.
  apply lookup_insert_Some in Ha as [[<- _] | [_ Ha]]; [reflexivity|].
  apply lookup_insert_Some in Ha as [[<- _] | [_ Ha]]; [congruence|].
  rewrite lookup_empty in Ha. discriminate.
Defined.

Lemma fallback_order_witness :
  @findMatchingProxy sampleLib (sortedKeys bothFallbacks) "other.org" bothFallbacks
  = Sample.Parse "http://p3".
Proof.
  apply (@fallback_order sampleLib "other.org" bothFallbacks
           (sortedKeys bothFallbacks) (sortedKeys_ok bothFallbacks)
           bothFallbacks_no_suffix).
  discriminate.
Defined.

(** C1 as stated fails: with a catch-all rule for http://p2 and the global
    forward proxy http://p3, a host that no other rule matches resolves to
    http://p3, not to the proxy of the catch-all rule. *)
Lemma generic_rule_loses :
  ruleKeys bothFallbacks (sortedKeys bothFallbacks)
  /\ (forall domain, is_Some (Rules bothFallbacks !! domain) -> domain <> "." ->
                     HasSuffix "other.org" domain = false)
  /\ Rules bothFallbacks !! "." = Some "B"
  /\ Proxies bothFallbacks !! "B" = Some "http://p2"
  /\ Sample.URL_to_string
       <$> @findMatchingProxy sampleLib (sortedKeys bothFallbacks) "other.org"
             bothFallbacks
     = Some "http://p3"
  /\ @findMatchingProxy sampleLib (sortedKeys bothFallbacks) "other.org" bothFallbacks
     <> @url_Parse sampleLib "http://p2".
Proof.
  split; [apply sortedKeys_ok|]. split; [exact bothFallbacks_no_suffix|].
  split; [reflexivity|]. split; [reflexivity|].
  split; [vm_compute; reflexivity | vm_compute; discriminate].
Qed.

(** ** Dialling *)

(** A nil route is never turned into a direct dial. *)
Lemma ConnectDialWithReq_nil `{GoLib} (conf : Configuration) (keys : list string)
    (req : Request) (network addr : string) :
  findMatchingProxy keys (URL_Hostname req) conf = None ->
  findMatchingProxyString keys req conf = Panic nil_deref
  /\ ConnectDialWithReq conf keys req network addr = Panic nil_deref.
Proof.
  intros Hnil. unfold ConnectDialWithReq, findMatchingProxyString,
    findMatchingForwardProxyURL. rewrite Hnil. now split.
Qed.

Lemma setForwardProxy_rules `{GoLib} (conf : Configuration) :
  Rules conf <> ∅ -> setForwardProxy conf = Some (ConnectDialWithReq conf).
Proof.
  intros Hne. unfold setForwardProxy.
  assert (Hs : size (Rules conf) <> 0%nat) by now rewrite map_size_empty_iff.
  replace (Z.of_nat (size (Rules conf)) =? 0) with false
    by (symmetry; apply Z.eqb_neq; lia).
  now rewrite Bool.andb_false_r.
Qed.

(** C5. With rules configured, an empty global forward proxy URL, no
    catch-all rule and no rule key that is a suffix of the hostname of the
    request, [findMatchingProxy] returns nil, [findMatchingProxyString]
    calls [String] on it and panics, and so does the closure that
    [setForwardProxy] installs in [ConnectDialWithReq]: it does not reach its
    direct dial. *)
Theorem nil_route_panics `{GoLib} (conf : Configuration) (keys : list string)
    (req : Request) (network addr : string) :
  ruleKeys conf keys ->
  Rules conf <> ∅ ->
  ForwardProxyURL conf = EmptyString ->
  Rules conf !! "." = None ->
  (forall domain, is_Some (Rules conf !! domain) ->
                  HasSuffix (URL_Hostname req) domain = false) ->
  findMatchingProxy keys (URL_Hostname req) conf = None
  /\ findMatchingProxyString keys req conf = Panic nil_deref
  /\ (exists dial, setForwardProxy conf = Some dial
                   /\ dial keys req network addr = Panic nil_deref)
  /\ ConnectDialWithReq conf keys req network addr
     <> Ok (DialDirectly network addr).
Proof.
  intros Hk Hrules Hfp Hdot Hno.
  assert (Hnil : findMatchingProxy keys (URL_Hostname req) conf = None).
  { rewrite (findMatchingProxy_fallback (URL_Hostname req) conf keys Hk)
      by (intros domain Hd _; now apply Hno).
    now rewrite Hfp, Hdot. }
  destruct (ConnectDialWithReq_nil conf keys req network addr Hnil) as [Hs Hd].
  split; [exact Hnil|]. split; [exact Hs|]. split.
  - exists (ConnectDialWithReq conf). split; [|exact Hd].
    now apply setForwardProxy_rules.
  - rewrite Hd. discriminate.
Qed.

Lemma oneRule_no_suffix (domain : string) :
  is_Some (Rules oneRule !! domain) -> HasSuffix "other.org" domain = false.
Proof.
  intros [alias Ha]. unfold oneRule in Ha. simpl in Ha.
  apply lookup_insert_Some in Ha as [[<- _] | [_ Ha]]; [reflexivity|].
  rewrite lookup_empty in Ha. discriminate.
Defined.

Lemma nil_route_panics_witness :
  @ConnectDialWithReq sampleLib oneRule (sortedKeys oneRule)
    (requestTo "other.org") "tcp" "other.org:443"
  <> Ok (DialDirectly "tcp" "other.org:443").
Proof.
  refine (proj2 (proj2 (proj2
    (@nil_route_panics sampleLib oneRule (sortedKeys oneRule)
       (requestTo "other.org") "tcp" "other.org:443"
       (sortedKeys_ok oneRule) _ eq_refl eq_refl oneRule_no_suffix)))).
  intros Hempty.
  assert (Hl : Rules oneRule !! "example.com" = Some "A") by reflexivity.
  rewrite Hempty, lookup_empty in Hl. discriminate.
Defined.

(** ** Credentials for the upstream proxy *)

Lemma connectHandler_headers `{GoLib} (proxyURL : URL) (req : Request) :
  ReqHeader (fst (connectHandler proxyURL req))
  = if String.eqb (URL_User_Username proxyURL) EmptyString
    then delete ProxyAuthorizatonHeader (ReqHeader req)
    else <[ProxyAuthorizatonHeader :=
             ["Basic " ++ base64_EncodeToString
                (default EmptyString
                   (url_QueryUnescape (URL_User_String proxyURL)))]]>
           (delete ProxyAuthorizatonHeader (ReqHeader req)).
Proof.
  unfold connectHandler. rewrite len_pos.
  now destruct (String.eqb (URL_User_Username proxyURL) EmptyString).
Qed.




(** ** The bind address *)

Lemma checkBindAddressOK_unparsable `{GoLib} (conf : Configuration) :
  net_ParseIP (BindIP conf) = None ->
  checkBindAddressOK conf = (false, EmptyString, None).
Proof.
  intros Hp. unfold checkBindAddressOK. rewrite Hp.
  now destruct (negb _).
Qed.

Lemma checkBindAddressOK_v4 `{GoLib} (conf : Configuration) (ip ip4 : IP) :
  BindIP conf <> EmptyString ->
  net_ParseIP (BindIP conf) = Some ip -> IP_To4 ip = Some ip4 ->
  checkBindAddressOK conf = (true, BindIP conf ++ ":0", None).
Proof.
  intros Hne Hp H4. apply String.eqb_neq in Hne.
  unfold checkBindAddressOK. now rewrite Hne, Hp, H4.
Qed.

Lemma checkBindAddressOK_v6 `{GoLib} (conf : Configuration) (ip ip16 : IP) :
  BindIP conf <> EmptyString ->
  net_ParseIP (BindIP conf) = Some ip -> IP_To4 ip = None ->
  IP_To16 ip = Some ip16 ->
  checkBindAddressOK conf = (true, "[" ++ BindIP conf ++ "]:0", None).
Proof.
  intros Hne Hp H4 H16. apply String.eqb_neq in Hne.
  unfold checkBindAddressOK. now rewrite Hne, Hp, H4, H16.
Qed.

(** The only error [checkBindAddressOK] can return needs an address that
    parses and is neither an IPv4 nor an IPv6 address. *)
Lemma checkBindAddressOK_error `{GoLib} (conf : Configuration) (ok : bool)
    (laddr err : string) :
  checkBindAddressOK conf = (ok, laddr, Some err) ->
  exists ip, net_ParseIP (BindIP conf) = Some ip
             /\ IP_To4 ip = None /\ IP_To16 ip = None.
Proof.
  unfold checkBindAddressOK. destruct (negb _); [|discriminate].
  destruct (net_ParseIP (BindIP conf)) as [ip|]; [|discriminate].
  destruct (IP_To4 ip) eqn:H4; [discriminate|].
  destruct (IP_To16 ip) eqn:H16; [discriminate|]. eauto.
Qed.

(** C6. The bind address not-an-ip does not parse, and
    [checkBindAddressOK] answers [false], an empty address and a nil error:
    the caller is told nothing.  The IPv4 address 10.0.0.1 gives the
    endpoint [10.0.0.1:0], the IPv6 address 2001:db8:0:0:0:0:0:1 the
    endpoint [[2001:db8:0:0:0:0:0:1]:0]. *)
Theorem bind_address_unparsable_silent :
  @checkBindAddressOK sampleLib (mkConfiguration "not-an-ip" ∅ ∅ EmptyString)
  = (false, EmptyString, None)
  /\ @checkBindAddressOK sampleLib (mkConfiguration "10.0.0.1" ∅ ∅ EmptyString)
     = (true, "10.0.0.1:0", None)
  /\ @checkBindAddressOK sampleLib
       (mkConfiguration "2001:db8:0:0:0:0:0:1" ∅ ∅ EmptyString)
     = (true, "[2001:db8:0:0:0:0:0:1]:0", None).
Proof.
  split; [|split].
  - apply checkBindAddressOK_unparsable. reflexivity.
  - vm_compute. reflexivity.
  - vm_compute. reflexivity.
Qed.

(** * Further properties *)

(** ** Health tracker: runs of calls *)

Lemma health_run_cons (p : ProxyHealth) (c : HealthCall) (cs : list HealthCall) :
  health_run p (c :: cs) = health_run (health_step p c) cs.
Proof. reflexivity. Qed.

(** X1. [n] failures in a row, from a count that cannot overflow on the
    way, add [n] to the count; the tracker is healthy afterwards exactly
    when it was healthy before and, unless [n] is 0, the new count is still
    below the limit. *)
Theorem consecutive_failures (n : nat) :
  forall p : ProxyHealth,
    in_int (FailureCount p) ->
    FailureCount p + Z.of_nat n <= int_max ->
    let q := health_run p (repeat CallRecordFailure n) in
    FailureCount q = FailureCount p + Z.of_nat n
    /\ FailureLimit q = FailureLimit p
    /\ Healthy q = Healthy p && ((n =? 0)%nat
                                || (FailureCount p + Z.of_nat n <? FailureLimit p)).
Proof.
  induction n as [|n IH]; intros p Hin Hmax q; subst q.
  - simpl. rewrite Z.add_0_r, Bool.andb_true_r. now repeat split.
  - change (repeat CallRecordFailure (S n))
      with (CallRecordFailure :: repeat CallRecordFailure n).
    rewrite health_run_cons. cbn [health_step].
    assert (Hc : FailureCount (RecordFailure p) = FailureCount p + 1).
    { rewrite RecordFailure_count. apply int_wrap_id.
      unfold in_int, int_min, int_max in *. lia. }
    destruct (IH (RecordFailure p)) as (Ec & El & Eh).
    + rewrite Hc. unfold in_int, int_min, int_max in *. lia.
    + rewrite Hc. lia.
    + change (FailureLimit (RecordFailure p)) with (FailureLimit p) in *.
      rewrite Ec, El, Eh, Hc. split; [lia|]. split; [reflexivity|].
      rewrite RecordFailure_healthy, Hc, Z.geb_leb. cbn [Nat.eqb orb].
      destruct (Z.leb_spec (FailureLimit p) (FailureCount p + 1));
        destruct (Z.ltb_spec (FailureCount p + 1 + Z.of_nat n) (FailureLimit p));
        destruct (Z.ltb_spec (FailureCount p + Z.of_nat (S n)) (FailureLimit p));
        destruct (Nat.eqb_spec n 0); destruct (Healthy p);
        try reflexivity; lia.
Qed.

Lemma consecutive_failures_witness :
  Healthy (health_run freshHealth (repeat CallRecordFailure 2)) = true
  /\ Healthy (health_run freshHealth (repeat CallRecordFailure 5)) = false
  /\ FailureCount (health_run freshHealth (repeat CallRecordFailure 5)) = 5.
Proof.
  destruct (consecutive_failures 2 freshHealth) as (_ & _ & H2);
    [unfold in_int, int_min, int_max; simpl; lia | unfold int_max; simpl; lia |].
  destruct (consecutive_failures 5 freshHealth) as (C5 & _ & H5);
    [unfold in_int, int_min, int_max; simpl; lia | unfold int_max; simpl; lia |].
  split; [exact H2|]. split; [exact H5 | exact C5].
Defined.

(** X2. A recorded success wipes the history: the state after a run of
    calls is the state the calls after the last [RecordSuccess] give from a
    healthy tracker with a count of 0 and the same limit. *)
Theorem success_resets_history (p : ProxyHealth) (before after : list HealthCall) :
  health_run p (before ++ CallRecordSuccess :: after)
  = health_run {| Healthy := true; FailureCount := 0;
                  FailureLimit := FailureLimit p |} after.
Proof.
  unfold health_run. rewrite fold_left_app. cbn [fold_left health_step].
  unfold RecordSuccess. fold (health_run p before).
  now rewrite health_run_limit.
Qed.

(** ** The resolver: which rule wins *)

Lemma candidate_true (host : string) (conf : Configuration) (domain : string) :
  candidate host conf domain = true
  <-> domain <> "." /\ is_Some (aliasURL conf domain)
      /\ HasSuffix host domain = true.
Proof.
  unfold candidate. rewrite !Bool.andb_true_iff, Bool.negb_true_iff,
    String.eqb_neq, bool_decide_eq_true. tauto.
Qed.

Lemma aliasURL_rule (conf : Configuration) (domain alias : string) :
  Rules conf !! domain = Some alias ->
  aliasURL conf domain = Proxies conf !! alias.
Proof. unfold aliasURL. now intros ->. Qed.

Lemma first_candidate_longest (host : string) (conf : Configuration)
    (keys : list string) (domain : string) :
  StronglySorted notShorter keys ->
  domain ∈ keys -> candidate host conf domain = true ->
  (forall d, d ∈ keys -> candidate host conf d = true ->
             (String.length d <= String.length domain)%nat) ->
  head (filter (fun d => candidate host conf d = true) keys) = Some domain.
Proof.
  intros Hs Hin Hc Hmax.
  set (P := fun d => candidate host conf d = true).
  apply (StronglySorted_filter_keep notShorter P) in Hs.
  assert (Hd : domain ∈ filter P keys) by now apply list_elem_of_filter.
  assert (Hall : forall d : string, d ∈ filter P keys -> P d /\ d ∈ keys).
  { intros d Hf. now apply list_elem_of_filter in Hf. }
  destruct (filter P keys) as [|d1 rest]; [now apply not_elem_of_nil in Hd|].
  simpl. f_equal.
  apply elem_of_cons in Hd as [-> | Hd]; [reflexivity|].
  apply StronglySorted_cons in Hs as [Hfirst _].
  rewrite Forall_forall in Hfirst. apply Hfirst in Hd. unfold notShorter in Hd.
  destruct (Hall d1 ltac:(left)) as [Hc1 Hk1].
  apply (HasSuffix_same_length host).
  - now apply (candidate_suffix host conf).
  - now apply (candidate_suffix host conf).
  - specialize (Hmax d1 Hk1 Hc1). lia.
Qed.

Section LongestMatch.
Context `{GoLib}.
Variables (host : string) (conf : Configuration) (keys : list string).
Variables (domain alias proxyURL : string).
Hypothesis Hkeys : ruleKeys conf keys.
Hypothesis Hdomain : domain <> ".".
Hypothesis Hrule : Rules conf !! domain = Some alias.
Hypothesis Hproxy : Proxies conf !! alias = Some proxyURL.
Hypothesis Hsuffix : HasSuffix host domain = true.
Hypothesis Hlongest :
  forall d a, d <> "." -> Rules conf !! d = Some a ->
              is_Some (Proxies conf !! a) -> HasSuffix host d = true ->
              (String.length d <= String.length domain)%nat.

Lemma specificRule_longest : specificRule keys host conf = url_Parse proxyURL.
Proof.
  unfold specificRule.
  rewrite (first_candidate_longest host conf keys domain).
  - simpl. now rewrite (aliasURL_rule conf domain alias Hrule), Hproxy.
  - exact (proj2 Hkeys).
  - apply (ruleKeys_elem conf keys domain Hkeys). eauto.
  - apply candidate_true. repeat split; [exact Hdomain | | exact Hsuffix].
    rewrite (aliasURL_rule conf domain alias Hrule), Hproxy. eauto.
  - intros d Hd Hc. apply candidate_true in Hc as (Hne & Ha & Hs).
    apply (ruleKeys_elem conf keys d Hkeys) in Hd as [a Hr].
    rewrite (aliasURL_rule conf d a Hr) in Ha. eauto.
Qed.

(** X3. The longest rule key that is a suffix of the host and whose alias
    is a key of the proxies decides: when its proxy URL parses, that URL is
    the result, whatever the catch-all rule and the global forward proxy
    URL are. *)
Theorem longest_suffix_wins (u : URL) :
  url_Parse proxyURL = Some u -> findMatchingProxy keys host conf = Some u.
Proof.
  intros Hu. rewrite (findMatchingProxy_sorted host conf keys (proj2 Hkeys)).
  now rewrite specificRule_longest, Hu.
Qed.

(** X4. When the proxy URL of that longest matching key does not parse, no
    shorter matching key is tried: the result is the global forward proxy
    URL if one is set, else the proxy of the catch-all rule, else nil. *)
Theorem unparsable_match_shadows :
  url_Parse proxyURL = None ->
  findMatchingProxy keys host conf
  = if len (ForwardProxyURL conf) >? 0 then url_Parse (ForwardProxyURL conf)
    else match Rules conf !! "." with
         | Some a => Proxies conf !! a ≫= url_Parse
         | None => None
         end.
Proof.
  intros Hu. rewrite (findMatchingProxy_sorted host conf keys (proj2 Hkeys)).
  rewrite specificRule_longest, Hu. now rewrite (scan_generic host conf keys Hkeys).
Qed.

End LongestMatch.

Lemma rule_keys_two (conf : Configuration) (k1 k2 a1 a2 : string) :
  Rules conf = <[k1 := a1]> (<[k2 := a2]> ∅) ->
  forall d a, Rules conf !! d = Some a -> d = k1 \/ d = k2.
Proof.
  intros -> d a Ha.
  apply lookup_insert_Some in Ha as [[<- _] | [_ Ha]]; [now left|].
  apply lookup_insert_Some in Ha as [[<- _] | [_ Ha]]; [now right|].
  rewrite lookup_empty in Ha. discriminate.
Defined.

Lemma nestedRules_longest (d a : string) :
  d <> "." -> Rules nestedRules !! d = Some a ->
  is_Some (Proxies nestedRules !! a) -> HasSuffix "www.example.com" d = true ->
  (String.length d <= String.length "www.example.com")%nat.
Proof.
  intros _ Hr _ _.
  destruct (rule_keys_two nestedRules _ _ _ _ eq_refl d a Hr) as [-> | ->];
    vm_compute; lia.
Defined.

Lemma brokenRule_longest (d a : string) :
  d <> "." -> Rules brokenRule !! d = Some a ->
  is_Some (Proxies brokenRule !! a) -> HasSuffix "www.example.com" d = true ->
  (String.length d <= String.length "www.example.com")%nat.
Proof.
  intros _ Hr _ _.
  destruct (rule_keys_two brokenRule _ _ _ _ eq_refl d a Hr) as [-> | ->];
    vm_compute; lia.
Defined.

Lemma longest_suffix_wins_witness :
  Sample.URL_to_string
    <$> @findMatchingProxy sampleLib (sortedKeys nestedRules) "www.example.com"
          nestedRules
  = Some "http://p2".
Proof.
  rewrite (@longest_suffix_wins sampleLib "www.example.com" nestedRules
             (sortedKeys nestedRules) "www.example.com" "B" "http://p2"
             (sortedKeys_ok nestedRules) ltac:(discriminate) eq_refl eq_refl
             eq_refl nestedRules_longest
             (Sample.mkSampleURL "http" None "p2" EmptyString) eq_refl).
  reflexivity.
Defined.

Lemma unparsable_match_shadows_witness :
  @findMatchingProxy sampleLib (sortedKeys brokenRule) "www.example.com" brokenRule
  = None.
Proof.
  exact (@unparsable_match_shadows sampleLib "www.example.com" brokenRule
           (sortedKeys brokenRule) "www.example.com" "B" (String tab "http://p2")
           (sortedKeys_ok brokenRule) ltac:(discriminate) eq_refl eq_refl
           eq_refl brokenRule_longest eq_refl).
Defined.

(** X5. The resolver invents nothing: a URL it returns is the parsed global
    forward proxy URL, or the parsed proxy URL of a rule whose key is the
    catch-all or a suffix of the host. *)
Theorem resolved_from_configuration `{GoLib} (host : string)
    (conf : Configuration) (keys : list string) (u : URL) :
  ruleKeys conf keys ->
  findMatchingProxy keys host conf = Some u ->
  (ForwardProxyURL conf <> EmptyString
   /\ url_Parse (ForwardProxyURL conf) = Some u)
  \/ exists domain alias proxyURL,
       Rules conf !! domain = Some alias
       /\ Proxies conf !! alias = Some proxyURL
       /\ url_Parse proxyURL = Some u
       /\ (domain = "." \/ HasSuffix host domain = true).
Proof.
  intros Hk. rewrite (findMatchingProxy_sorted host conf keys (proj2 Hk)).
  unfold specificRule.
  destruct (head (filter _ keys)) as [domain|] eqn:Hh; simpl.
  - assert (Hin : domain ∈ filter (fun d => candidate host conf d = true) keys).
    { destruct (filter _ keys); [discriminate|]. injection Hh as ->. left. }
    apply list_elem_of_filter in Hin as [Hc Hin].
    apply candidate_true in Hc as (_ & _ & Hs).
    apply (ruleKeys_elem conf keys domain Hk) in Hin as [alias Hr].
    rewrite (aliasURL_rule conf domain alias Hr).
    destruct (Proxies conf !! alias) as [proxyURL|] eqn:Hp; simpl.
    + destruct (url_Parse proxyURL) as [u'|] eqn:Hu.
      * intros [= <-]. right. exists domain, alias, proxyURL. auto.
      * rewrite len_pos, (scan_generic host conf keys Hk).
        destruct (String.eqb_spec (ForwardProxyURL conf) EmptyString) as [E|E];
          simpl; [|intros Hf; now left].
        destruct (Rules conf !! ".") as [a|] eqn:Hd; [|discriminate].
        destruct (Proxies conf !! a) as [url|] eqn:Ha; [|discriminate].
        simpl. intros Hg. right. exists ".", a, url. auto.
    + rewrite len_pos, (scan_generic host conf keys Hk).
      destruct (String.eqb_spec (ForwardProxyURL conf) EmptyString) as [E|E];
        simpl; [|intros Hf; now left].
      destruct (Rules conf !! ".") as [a|] eqn:Hd; [|discriminate].
      destruct (Proxies conf !! a) as [url|] eqn:Ha; [|discriminate].
      simpl. intros Hg. right. exists ".", a, url. auto.
  - rewrite len_pos, (scan_generic host conf keys Hk).
    destruct (String.eqb_spec (ForwardProxyURL conf) EmptyString) as [E|E];
      simpl; [|intros Hf; now left].
    destruct (Rules conf !! ".") as [a|] eqn:Hd; [|discriminate].
    destruct (Proxies conf !! a) as [url|] eqn:Ha; [|discriminate].
    simpl. intros Hg. right. exists ".", a, url. auto.
Qed.

Lemma resolved_from_configuration_witness :
  (ForwardProxyURL bothFallbacks <> EmptyString
   /\ Sample.Parse (ForwardProxyURL bothFallbacks)
      = Some (Sample.mkSampleURL "http" None "p1" EmptyString))
  \/ exists domain alias proxyURL,
       Rules bothFallbacks !! domain = Some alias
       /\ Proxies bothFallbacks !! alias = Some proxyURL
       /\ Sample.Parse proxyURL
          = Some (Sample.mkSampleURL "http" None "p1" EmptyString)
       /\ (domain = "." \/ HasSuffix "www.example.com" domain = true).
Proof.
  apply (@resolved_from_configuration sampleLib "www.example.com" bothFallbacks
           (sortedKeys bothFallbacks)
           (Sample.mkSampleURL "http" None "p1" EmptyString)
           (sortedKeys_ok bothFallbacks)).
  vm_compute. reflexivity.
Defined.

(** Without rules every host resolves to the global forward proxy URL,
    and to nil when that is empty. *)
Theorem no_rules_resolution `{GoLib} (host : string) (conf : Configuration)
    (keys : list string) :
  ruleKeys conf keys -> Rules conf = ∅ ->
  keys = []
  /\ findMatchingProxy keys host conf
     = if String.eqb (ForwardProxyURL conf) EmptyString then None
       else url_Parse (ForwardProxyURL conf).
Proof.
  intros Hk He.
  assert (Hnil : keys = []).
  { destruct Hk as [Hp _]. rewrite He, map_to_list_empty in Hp.
    now apply Permutation_nil_r in Hp. }
  split; [exact Hnil|]. subst keys. unfold findMatchingProxy. simpl.
  rewrite len_pos. now destruct (String.eqb (ForwardProxyURL conf) EmptyString).
Qed.

Lemma no_rules_resolution_witness :
  Sample.URL_to_string
    <$> @findMatchingProxy sampleLib
          (sortedKeys (mkConfiguration EmptyString ∅ ∅ "http://p3"))
          "www.example.com" (mkConfiguration EmptyString ∅ ∅ "http://p3")
  = Some "http://p3".
Proof.
  rewrite (proj2 (@no_rules_resolution sampleLib "www.example.com"
                    (mkConfiguration EmptyString ∅ ∅ "http://p3") _
                    (sortedKeys_ok _) eq_refl)).
  reflexivity.
Defined.

(** ** The Digest parser: its three outcomes *)

Lemma occurs_cons (c a : ascii) (s : string) :
  occurs c (String a s) <-> a = c \/ occurs c s.
Proof.
  split.
  - intros (l & r & E). destruct l as [|b l].
    + left. now injection E.
    + right. rewrite app_cons_string in E. injection E as _ E. now exists l, r.
  - intros [-> | (l & r & ->)].
    + now exists EmptyString, s.
    + now exists (String a l), r.
Qed.

Lemma occurs_get (c : ascii) (s : string) :
  occurs c s <-> exists i, String.get i s = Some c.
Proof.
  split.
  - intros (l & r & ->). exists (String.length l). apply get_app_here.
  - intros [i Hi]. revert i Hi. induction s as [|a s IH]; intros i Hi;
      [discriminate|].
    apply occurs_cons. destruct i as [|i]; simpl in Hi.
    + left. congruence.
    + right. now apply (IH i).
Qed.

Lemma occurs_substring (c : ascii) (n m : nat) (s : string) :
  occurs c (substring n m s) -> occurs c s.
Proof.
  rewrite !occurs_get. intros [i Hi]. exists (i + n)%nat.
  destruct (Nat.lt_ge_cases i m) as [Hlt | Hge].
  - now rewrite <- (substring_correct1 s n m i Hlt).
  - now rewrite (substring_correct2 s n m i Hge) in Hi.
Qed.

Lemma occurs_TrimLeft (c x : ascii) (s : string) :
  occurs c (TrimLeft x s) -> occurs c s.
Proof.
  induction s as [|a s IH]; simpl; [tauto|].
  destruct (Ascii.eqb a x); [|tauto].
  intros Ho. apply occurs_cons. right. now apply IH.
Qed.

Lemma occurs_TrimRight (c x : ascii) (s : string) :
  occurs c (TrimRight x s) -> occurs c s.
Proof.
  induction s as [|a s IH]; simpl; [tauto|].
  destruct (TrimRight x s) as [|b t] eqn:E.
  - destruct (Ascii.eqb a x); intros Ho.
    + destruct Ho as ([|? ?] & ? & [=]).
    + apply occurs_cons in Ho as [-> | Ho]; apply occurs_cons; [now left|].
      destruct Ho as ([|? ?] & ? & [=]).
  - intros Ho. apply occurs_cons in Ho as [-> | Ho]; apply occurs_cons;
      [now left | right; now apply IH].
Qed.

Lemma occurs_Trim (c x : ascii) (s : string) : occurs c (Trim s x) -> occurs c s.
Proof. unfold Trim. intros Ho. now apply occurs_TrimRight, occurs_TrimLeft in Ho. Qed.

(** Every token is a piece of the parameter text. *)
Lemma splitTokens_occurs (c : ascii) (h : string) (seps : list nat) :
  forall (s : nat) (token : string),
    In token (splitTokens h s seps) -> occurs c token -> occurs c h.
Proof.
  induction seps as [|e seps IH]; intros s token Hin Ho; simpl in Hin.
  - destruct Hin as [<- | []]. now apply occurs_Trim, occurs_substring in Ho.
  - destruct Hin as [<- | Hin]; [|now apply (IH (S e) token)].
    now apply occurs_Trim, occurs_substring in Ho.
Qed.

Lemma splitTokens_first (h : string) (s : nat) (seps : list nat) :
  exists token rest, splitTokens h s seps = token :: rest.
Proof. destruct seps; simpl; eauto. Qed.

Lemma insertToken_outcome (m : gmap string string) (token : string) :
  (occurs equals token /\ exists m', insertToken m token = Ok m')
  \/ (~ occurs equals token
      /\ insertToken m token = Panic "index out of range [1] with length 1").
Proof.
  unfold insertToken, SplitN2.
  destruct (cut equals token) as [[k v]|] eqn:E.
  - left. split; [|simpl; eauto]. exists k, v. now apply cut_Some in E.
  - right. split; [now apply cut_None | reflexivity].
Qed.

Lemma insertTokens_outcome (tokens : list string) :
  forall m : gmap string string,
    ((forall token, In token tokens -> occurs equals token)
     /\ exists m', insertTokens m tokens = Ok m')
    \/ ((exists token, In token tokens /\ ~ occurs equals token)
        /\ insertTokens m tokens = Panic "index out of range [1] with length 1").
Proof.
  induction tokens as [|token rest IH]; intros m; simpl.
  - left. split; [intros ? [] | eauto].
  - destruct (insertToken_outcome m token) as [[Ho [m' ->]] | [Hn ->]].
    + destruct (IH m') as [[Hall Hok] | [(t & Hin & Hn) Hp]].
      * left. split; [|exact Hok]. intros t [<- | Hin]; auto.
      * right. split; [|exact Hp]. exists t. auto.
    + right. split; [|reflexivity]. exists token. auto.
Qed.

Lemma SplitN2_Digest (h : string) : SplitN2 ("Digest " ++ h) space = ["Digest"; h].
Proof. apply SplitN2_two. split; [reflexivity|]. apply cut_None. reflexivity. Qed.

Lemma Digest_form_dec (value : string) :
  (exists h, value = "Digest " ++ h) \/ (forall h, value <> "Digest " ++ h).
Proof.
  destruct (SplitN2_cases value space) as [E | (l & r & E)].
  - right. intros h ->. rewrite SplitN2_Digest in E. discriminate.
  - destruct (String.eqb_spec l "Digest") as [->|Hne].
    + left. exists r. apply SplitN2_two in E as [-> _]. reflexivity.
    + right. intros h ->. rewrite SplitN2_Digest in E. congruence.
Qed.

Lemma getDigestAuthData_other (req : Request) :
  (forall h, Header_Get (ReqHeader req) ProxyAuthorizatonHeader <> "Digest " ++ h) ->
  snd (getDigestAuthData req) = Ok None.
Proof.
  intros Hn. unfold getDigestAuthData.
  destruct (SplitN2_cases (Header_Get (ReqHeader req) ProxyAuthorizatonHeader) space)
    as [E | (l & r & E)]; rewrite E.
  - reflexivity.
  - destruct (String.eqb_spec l "Digest") as [->|Hne]; [|reflexivity].
    exfalso. apply SplitN2_two in E as [E _]. now apply (Hn r).
Qed.

Lemma getDigestAuthData_Digest (req : Request) (h : string) :
  Header_Get (ReqHeader req) ProxyAuthorizatonHeader = "Digest " ++ h ->
  snd (getDigestAuthData req)
  = (m ← insertTokens ∅
           (splitTokens h 0 (separateCommas (quotedStrings_FindAll h)
                                            (commas_FindAll h)));
     Ok (Some {| user := field m "username"; realm := field m "realm";
                 nonce := field m "nonce"; uri := field m "uri";
                 response := field m "response"; qop := field m "qop";
                 nc := field m "nc"; cnonce := field m "cnonce";
                 method := Method req |})).
Proof.
  intros E. unfold getDigestAuthData. rewrite E, SplitN2_Digest. reflexivity.
Qed.

(** X7. The Digest parser has three outcomes.  It returns nil exactly when
    the header value is not the word Digest, a space and a parameter text.
    For such a value it panics exactly when one of the tokens of the
    parameter text has no equals sign, and returns data exactly when every
    token has one; there is always at least one token, so the bare value
    of Digest and a space panics. *)
Theorem digest_outcomes (req : Request) :
  let value := Header_Get (ReqHeader req) ProxyAuthorizatonHeader in
  (snd (getDigestAuthData req) = Ok None <-> forall h, value <> "Digest " ++ h)
  /\ forall h, value = "Digest " ++ h ->
       let tokens := splitTokens h 0 (separateCommas (quotedStrings_FindAll h)
                                                     (commas_FindAll h)) in
       tokens <> []
       /\ (snd (getDigestAuthData req) = Panic "index out of range [1] with length 1"
           <-> exists token, In token tokens /\ ~ occurs equals token)
       /\ ((exists d, snd (getDigestAuthData req) = Ok (Some d))
           <-> forall token, In token tokens -> occurs equals token).
Proof.
  intros value. split.
  - split; [|apply getDigestAuthData_other].
    intros Hnil h E. rewrite (getDigestAuthData_Digest req h E) in Hnil.
    destruct (insertTokens _ _); discriminate.
  - intros h E tokens. rewrite (getDigestAuthData_Digest req h E). fold tokens.
    split.
    { subst tokens. destruct (splitTokens_first h 0
        (separateCommas (quotedStrings_FindAll h) (commas_FindAll h)))
        as (t & rest & ->). discriminate. }
    destruct (insertTokens_outcome tokens ∅) as [[Hall [m' ->]] | [Hex ->]]; simpl.
    + split; split.
      * discriminate.
      * intros (t & Hin & Hn). exfalso. now apply Hn, Hall.
      * intros _. exact Hall.
      * intros _. eauto.
    + split; split.
      * intros _. exact Hex.
      * reflexivity.
      * intros [d [=]].
      * intros Hall. destruct Hex as (t & Hin & Hn). exfalso. now apply Hn, Hall.
Qed.

Lemma digest_outcomes_witness :
  snd (getDigestAuthData (requestWithAuth "Digest ")) 
  = Panic "index out of range [1] with length 1"
  /\ snd (getDigestAuthData (requestWithAuth "Bearer abc")) = Ok None.
Proof.
  split.
  - apply (proj2 (digest_outcomes (requestWithAuth "Digest ")) EmptyString eq_refl).
    exists EmptyString. split; [now left|]. apply cut_None. reflexivity.
  - apply (proj1 (digest_outcomes (requestWithAuth "Bearer abc"))).
    intros h E. vm_compute in E. discriminate.
Defined.

(** X8. A Digest header whose parameter text holds no equals sign at all
    makes the parser panic. *)
Theorem digest_without_equals_panics (req : Request) (h : string) :
  Header_Get (ReqHeader req) ProxyAuthorizatonHeader = "Digest " ++ h ->
  ~ occurs equals h ->
  snd (getDigestAuthData req) = Panic "index out of range [1] with length 1".
Proof.
  intros E Hn. rewrite (getDigestAuthData_Digest req h E).
  destruct (splitTokens_first h 0
              (separateCommas (quotedStrings_FindAll h) (commas_FindAll h)))
    as (t & rest & Ht).
  rewrite Ht. simpl. rewrite insertToken_no_equals; [reflexivity|].
  intros Ho. apply Hn.
  apply (splitTokens_occurs equals h
           (separateCommas (quotedStrings_FindAll h) (commas_FindAll h)) 0 t);
    [|exact Ho].
  rewrite Ht. now left.
Qed.

Lemma digest_without_equals_panics_witness :
  snd (getDigestAuthData (requestWithAuth "Digest username, realm"))
  = Panic "index out of range [1] with length 1".
Proof.
  apply (digest_without_equals_panics
           (requestWithAuth "Digest username, realm") "username, realm" eq_refl).
  apply cut_None. reflexivity.
Defined.

(** ** Authentication: parser, actor and handler together *)

Lemma getDigestAuthData_request (req : Request) :
  fst (getDigestAuthData req)
  = with_header req (Header_Del (ReqHeader req) ProxyAuthorizatonHeader).
Proof.
  unfold getDigestAuthData.
  destruct (SplitN2 _ space) as [|scheme [|h [|? ?]]]; try reflexivity.
  now destruct (negb _).
Qed.

Lemma getBasicAuthData_request `{GoLib} (req : Request) :
  fst (getBasicAuthData req)
  = with_header req (Header_Del (ReqHeader req) ProxyAuthorizatonHeader).
Proof.
  unfold getBasicAuthData.
  destruct (SplitN2 _ space) as [|scheme [|payload [|? ?]]]; try reflexivity.
  destruct (negb _); [reflexivity|].
  destruct (base64_DecodeString payload) as [raw|]; [|reflexivity].
  now destruct (SplitN2 raw colon) as [|u [|pw [|? ?]]].
Qed.

Lemma getDigestAuthData_panic (req : Request) (msg : string) :
  snd (getDigestAuthData req) = Panic msg ->
  msg = "index out of range [1] with length 1".
Proof.
  destruct (Digest_form_dec (Header_Get (ReqHeader req) ProxyAuthorizatonHeader))
    as [[h E] | Hn].
  - rewrite (getDigestAuthData_Digest req h E).
    destruct (insertTokens_outcome
                (splitTokens h 0 (separateCommas (quotedStrings_FindAll h)
                                                 (commas_FindAll h))) ∅)
      as [[_ [m' ->]] | [_ ->]]; simpl; congruence.
  - rewrite (getDigestAuthData_other req Hn). discriminate.
Qed.

Lemma makeDigestAuthValidator_validateUser `{DigestAuthStore} (auth : DigestAuth)
    (d : option DigestAuthData) :
  makeDigestAuthValidator auth d validateUser
  = Ok (Some {| data := EmptyString;
                status := if fst (validate auth d) then authOk else authFailed |},
        snd (validate auth d)).
Proof.
  unfold makeDigestAuthValidator. simpl.
  destruct (validate auth d) as [[|] auth']; reflexivity.
Qed.

Lemma performDigestAuth_actor `{DigestAuthStore} (req : Request) (auth : DigestAuth) :
  snd (performDigestAuth req makeDigestAuthValidator auth)
  = match snd (getDigestAuthData req) with
    | Panic msg => Panic msg
    | Ok None => Ok (false, None, auth)
    | Ok (Some d) =>
        Ok (fst (validate auth (Some d)), Some d, snd (validate auth (Some d)))
    end.
Proof.
  unfold performDigestAuth.
  destruct (getDigestAuthData req) as [req' [[d|]|msg]]; simpl; try reflexivity.
  rewrite makeDigestAuthValidator_validateUser. simpl.
  now destruct (fst (validate auth (Some d))).
Qed.

Lemma performDigestAuth_request {S : Type} (req : Request)
    (authFunc : DigestAuthFunc S) (st : S) :
  fst (performDigestAuth req authFunc st)
  = with_header req (Header_Del (ReqHeader req) ProxyAuthorizatonHeader).
Proof.
  unfold performDigestAuth. rewrite <- getDigestAuthData_request.
  now destruct (getDigestAuthData req).
Qed.

Lemma performBasicAuth_request `{GoLib} {S : Type} (req : Request)
    (authFunc : BasicAuthFunc S) (st : S) :
  fst (performBasicAuth req authFunc st)
  = with_header req (Header_Del (ReqHeader req) ProxyAuthorizatonHeader).
Proof.
  unfold performBasicAuth. rewrite <- getBasicAuthData_request.
  now destruct (getBasicAuthData req) as [req' [d|]].
Qed.

(** X9. Behind the digest actor, [performDigestAuth] accepts exactly when
    the parser returned data and the store's [validate] accepted it, and the
    registry is left as [validate] left it.  Its two panics for an
    unexpected reply or operation never happen; the only panic is the
    parser's. *)
Theorem digest_auth_by_actor `{DigestAuthStore} (req : Request) (auth : DigestAuth) :
  let outcome := snd (performDigestAuth req makeDigestAuthValidator auth) in
  (forall d auth',
      outcome = Ok (true, d, auth')
      <-> exists parsed, snd (getDigestAuthData req) = Ok (Some parsed)
                         /\ d = Some parsed
                         /\ validate auth (Some parsed) = (true, auth'))
  /\ (forall msg, outcome = Panic msg ->
                  msg = "index out of range [1] with length 1"
                  /\ snd (getDigestAuthData req) = Panic msg)
  /\ outcome <> Panic "unreachable point"
  /\ outcome <> Panic "unexpected operation type".
Proof.
  intros outcome. subst outcome. rewrite performDigestAuth_actor.
  assert (Hp : forall msg,
             match snd (getDigestAuthData req) with
             | Panic m => Panic m
             | Ok None => Ok (false, None, auth)
             | Ok (Some d) =>
                 Ok (fst (validate auth (Some d)), Some d,
                     snd (validate auth (Some d)))
             end = Panic msg ->
             msg = "index out of range [1] with length 1"
             /\ snd (getDigestAuthData req) = Panic msg).
  { intros msg. pose proof (getDigestAuthData_panic req) as Hm.
    destruct (snd (getDigestAuthData req)) as [[d|]|m]; try discriminate.
    intros [= <-]. split; [now apply Hm | reflexivity]. }
  split; [|split; [exact Hp | split; intros Hx; now apply Hp in Hx as [[=] _]]].
  intros d auth'. split.
  - destruct (snd (getDigestAuthData req)) as [[parsed|]|m]; try discriminate.
    intros [= Hv <- <-]. exists parsed. split; [reflexivity|].
    split; [reflexivity|]. destruct (validate auth (Some parsed)). simpl in *.
    now subst.
  - intros (parsed & -> & -> & Hv). now rewrite Hv.
Qed.

Lemma digest_auth_by_actor_witness :
  snd (@performDigestAuth nat (requestWithAuth quotedCommaHeader)
         (@makeDigestAuthValidator sampleDigestStore) 0%nat)
  = Ok (true,
        Some {| user := "bob"; realm := "r,x"; nonce := "n1"; uri := "/a,b";
                response := "abc"; qop := "auth"; nc := "00000001";
                cnonce := "c1"; method := "GET" |}, 0%nat).
Proof.
  apply (proj1 (@digest_auth_by_actor sampleDigestStore
                  (requestWithAuth quotedCommaHeader) 0%nat)).
  eexists. split; [vm_compute; reflexivity|]. split; reflexivity.
Defined.

(** X10. Without credentials of the right scheme nothing is validated: when
    the header value is not of the form of the scheme, a space and a
    payload (an absent header is the empty value), [performBasicAuth] and
    [performDigestAuth] answer false with nil data and never call the
    validator, whatever it would have said. *)
Theorem no_credentials_no_validation `{GoLib} {S : Type} (req : Request)
    (basicFunc : BasicAuthFunc S) (digestFunc : DigestAuthFunc S) (st : S) :
  let value := Header_Get (ReqHeader req) ProxyAuthorizatonHeader in
  ((forall b64, value <> "Basic " ++ b64) ->
   snd (performBasicAuth req basicFunc st) = Ok (false, None, st))
  /\ ((forall h, value <> "Digest " ++ h) ->
      snd (performDigestAuth req digestFunc st) = Ok (false, None, st))
  /\ (ReqHeader req !! ProxyAuthorizatonHeader = None ->
      snd (performBasicAuth req basicFunc st) = Ok (false, None, st)
      /\ snd (performDigestAuth req digestFunc st) = Ok (false, None, st)).
Proof.
  intros value.
  assert (Hb : (forall b64, value <> "Basic " ++ b64) ->
               snd (performBasicAuth req basicFunc st) = Ok (false, None, st)).
  { intros Hn. pose proof (getBasicAuthData_other req Hn) as E.
    unfold performBasicAuth. destruct (getBasicAuthData req) as [req' d].
    simpl in E. now subst d. }
  assert (Hd : (forall h, value <> "Digest " ++ h) ->
               snd (performDigestAuth req digestFunc st) = Ok (false, None, st)).
  { intros Hn. pose proof (getDigestAuthData_other req Hn) as E.
    unfold performDigestAuth. destruct (getDigestAuthData req) as [req' r].
    simpl in E. now subst r. }
  split; [exact Hb|]. split; [exact Hd|].
  intros Habsent.
  assert (Hv : value = EmptyString).
  { subst value. unfold Header_Get. now rewrite Habsent. }
  split; [apply Hb | apply Hd]; intros x; rewrite Hv; discriminate.
Qed.

Lemma no_credentials_no_validation_witness :
  snd (@performBasicAuth sampleLib unit (requestTo "other.org")
         (fun _ _ => Panic "validator called") tt)
  = Ok (false, None, tt)
  /\ snd (@performDigestAuth unit (requestWithAuth "Basic dXNlcjpwYTpzcw==")
            (fun _ _ _ => Panic "validator called") tt)
     = Ok (false, None, tt).
Proof.
  split.
  - apply (proj1 (proj2 (proj2
      (@no_credentials_no_validation sampleLib unit (requestTo "other.org")
         (fun _ _ => Panic "validator called")
         (fun _ _ _ => Panic "validator called") tt)) eq_refl)).
  - apply (proj1 (proj2
      (@no_credentials_no_validation sampleLib unit
         (requestWithAuth "Basic dXNlcjpwYTpzcw==")
         (fun _ _ => Panic "validator called")
         (fun _ _ _ => Panic "validator called") tt))).
    intros h E. vm_compute in E. discriminate.
Defined.

Lemma digestUnauthorized_actor `{DigestAuthStore} (req : option Request)
    (authRealm : string) (auth : DigestAuth) :
  digestUnauthorized req authRealm makeDigestAuthValidator auth
  = Ok (digestChallenge req authRealm (fst (newNonce auth)), snd (newNonce auth)).
Proof.
  rewrite (digestUnauthorized_reply req authRealm makeDigestAuthValidator auth
             (snd (newNonce auth))
             {| data := fst (newNonce auth); status := nonceOk |}
             (makeDigestAuthValidator_getNonce auth None)).
  reflexivity.
Qed.

Lemma digestAuthReqHandler_actor `{DigestAuthStore} (authRealm : string)
    (req : Request) (ctx : ProxyCtx) (auth : DigestAuth) :
  digestAuthReqHandler authRealm makeDigestAuthValidator req ctx auth
  = match snd (getDigestAuthData req) with
    | Panic msg => Panic msg
    | Ok None =>
        Ok (None,
            Some (digestChallenge (Some (stripped req)) authRealm
                    (fst (newNonce auth))),
            ctx, snd (newNonce auth))
    | Ok (Some d) =>
        let auth1 := snd (validate auth (Some d)) in
        if fst (validate auth (Some d)) then
          Ok (Some (stripped req), None, setUserData ctx (user d), auth1)
        else
          Ok (None,
              Some (digestChallenge (Some (stripped req)) authRealm
                      (fst (newNonce auth1))),
              Warnf ctx ("failed digest auth. attempt: user=" ++ user d
                         ++ ", realm=" ++ realm d
                         ++ ", addr=" ++ RemoteAddr (stripped req)),
              snd (newNonce auth1))
    end.
Proof.
  unfold digestAuthReqHandler.
  pose proof (performDigestAuth_request req makeDigestAuthValidator auth) as E1.
  pose proof (performDigestAuth_actor req auth) as E2.
  destruct (performDigestAuth req makeDigestAuthValidator auth) as [req' r].
  simpl in E1, E2. fold (stripped req) in E1. subst req' r.
  destruct (snd (getDigestAuthData req)) as [[d|]|msg]; simpl.
  - destruct (fst (validate auth (Some d))); simpl; [reflexivity|].
    now rewrite digestUnauthorized_actor.
  - now rewrite digestUnauthorized_actor.
  - reflexivity.
Qed.

(** X11. The digest request handler behind the actor.  It passes a request
    on only when the parser returned data and [validate] accepted it; the
    request it passes on has lost its Proxy-Authorization header and the
    context carries the user name.  Otherwise, unless the parser panicked,
    it withholds the request and answers 407 with a nonce that [newNonce]
    issued after the validation attempt. *)
Theorem digest_handler_outcomes `{DigestAuthStore} (authRealm : string)
    (req : Request) (ctx ctx' : ProxyCtx) (auth auth' : DigestAuth)
    (passed : option Request) (answer : option Response) :
  digestAuthReqHandler authRealm makeDigestAuthValidator req ctx auth
  = Ok (passed, answer, ctx', auth') ->
  (exists d,
      passed = Some (stripped req) /\ answer = None
      /\ ReqHeader (stripped req) !! ProxyAuthorizatonHeader = None
      /\ snd (getDigestAuthData req) = Ok (Some d)
      /\ validate auth (Some d) = (true, auth')
      /\ ctx' = setUserData ctx (user d))
  \/ (exists auth1,
        passed = None
        /\ answer = Some (digestChallenge (Some (stripped req)) authRealm
                            (fst (newNonce auth1)))
        /\ auth' = snd (newNonce auth1)
        /\ UserData ctx' = UserData ctx
        /\ ((snd (getDigestAuthData req) = Ok None /\ auth1 = auth)
            \/ exists d, snd (getDigestAuthData req) = Ok (Some d)
                         /\ validate auth (Some d) = (false, auth1))).
Proof.
  rewrite digestAuthReqHandler_actor.
  destruct (snd (getDigestAuthData req)) as [[d|]|msg]; [| |discriminate].
  - cbv zeta. destruct (validate auth (Some d)) as [[|] auth1] eqn:Hv; simpl.
    + intros [= <- <- <- <-]. left. exists d.
      repeat split; [apply lookup_delete_eq | exact Hv].
    + intros [= <- <- <- <-]. right. exists auth1.
      repeat split. right. exists d. split; [reflexivity | exact Hv].
  - intros [= <- <- <- <-]. right. exists auth.
    repeat split. now left.
Qed.

Lemma digest_handler_outcomes_witness :
  (exists d,
      snd (getDigestAuthData (requestWithAuth quotedCommaHeader)) = Ok (Some d)
      /\ @validate sampleDigestStore 3%nat (Some d) = (true, 3%nat))
  /\ exists auth1,
       Some (digestChallenge (Some (stripped (requestTo "other.org"))) "r"
               (sampleNonce 3))
       = Some (digestChallenge (Some (stripped (requestTo "other.org"))) "r"
                 (fst (@newNonce sampleDigestStore auth1)))
       /\ 4%nat = snd (@newNonce sampleDigestStore auth1).
Proof.
  split.
  - destruct (@digest_handler_outcomes sampleDigestStore "r"
                (requestWithAuth quotedCommaHeader) (emptyCtx None)
                (setUserData (emptyCtx None) "bob") 3%nat 3%nat
                (Some (stripped (requestWithAuth quotedCommaHeader))) None)
      as [(d & _ & _ & _ & Hd & Hv & _) | (auth1 & [=] & _)].
    + vm_compute. reflexivity.
    + exists d. now split.
  - destruct (@digest_handler_outcomes sampleDigestStore "r"
                (requestTo "other.org") (emptyCtx None) (emptyCtx None)
                3%nat 4%nat None
                (Some (digestChallenge (Some (stripped (requestTo "other.org")))
                         "r" (sampleNonce 3))))
      as [(d & [=] & _) | (auth1 & _ & Ha & Hn & _)].
    + vm_compute. reflexivity.
    + exists auth1. now split.
Defined.

Lemma performBasicAuth_actor `{GoLib} `{BasicAuthStore} (req : Request)
    (auth : BasicAuth) :
  snd (performBasicAuth req makeBasicAuthValidator auth)
  = match snd (getBasicAuthData req) with
    | None => Ok (false, None, auth)
    | Some d =>
        Ok (fst (basic_validate auth (Some d)), Some d,
            snd (basic_validate auth (Some d)))
    end.
Proof.
  unfold performBasicAuth, makeBasicAuthValidator.
  destruct (getBasicAuthData req) as [req' [d|]]; simpl; [|reflexivity].
  now destruct (basic_validate auth (Some d)).
Qed.

(** X12. The Basic CONNECT handler behind the actor.  Without a request in
    the context it panics.  With one it never panics: it strips the
    Proxy-Authorization header from the request of the context, answers
    [OkConnect] exactly when the parser returned credentials and [validate]
    accepted them, and then records the user and hands the context to the
    logger if there is one; otherwise it answers [RejectConnect] and puts
    the 407 response into the context.  The stand-in [emptyReq] is never
    used. *)
Theorem basic_connect_outcomes `{GoLib} `{BasicAuthStore} (emptyReq : Request)
    (authRealm : string) (logger : bool) (host : string) (ctx : ProxyCtx)
    (auth : BasicAuth) :
  let run := basicConnectAuthHandler emptyReq authRealm makeBasicAuthValidator
               logger host ctx auth in
  (ctx_Req ctx = None -> run = Panic nil_deref)
  /\ forall req, ctx_Req ctx = Some req ->
       exists action ctx' auth' logged,
         run = Ok (action, host, ctx', auth', logged)
         /\ ctx_Req ctx' = Some (stripped req)
         /\ (action = OkConnect
             <-> exists d, snd (getBasicAuthData req) = Some d
                           /\ fst (basic_validate auth (Some d)) = true)
         /\ (action = OkConnect ->
             ctx_Resp ctx' = ctx_Resp ctx
             /\ (exists d, snd (getBasicAuthData req) = Some d
                           /\ UserData ctx' = Some (basic_user d))
             /\ logged = if logger then Some ctx' else None)
         /\ (action = RejectConnect ->
             ctx_Resp ctx'
             = Some (basicUnauthorized (Some (stripped req)) authRealm)
             /\ UserData ctx' = UserData ctx
             /\ logged = None).
Proof.
  intros run. subst run. unfold basicConnectAuthHandler. split.
  - now intros ->.
  - intros req ->.
    pose proof (performBasicAuth_request req makeBasicAuthValidator auth) as E1.
    pose proof (performBasicAuth_actor req auth) as E2.
    destruct (performBasicAuth req makeBasicAuthValidator auth) as [req' r].
    simpl in E1, E2. fold (stripped req) in E1. subst req' r.
    destruct (snd (getBasicAuthData req)) as [d|]; simpl.
    + destruct (basic_validate auth (Some d)) as [[|] auth1] eqn:Hv; simpl.
      * do 4 eexists. split; [reflexivity|]. split; [reflexivity|].
        split; [split; [intros _; exists d; now rewrite Hv | reflexivity]|].
        split; [|discriminate].
        intros _. split; [reflexivity|].
        split; [exists d; now split | reflexivity].
      * do 4 eexists. split; [reflexivity|]. split; [reflexivity|].
        split; [split; [discriminate|]|].
        { intros (d' & [= <-] & Hd). rewrite Hv in Hd. discriminate. }
        split; [discriminate|]. intros _. now repeat split.
    + do 4 eexists. split; [reflexivity|]. split; [reflexivity|].
      split; [split; [discriminate | intros (d' & [=] & _)]|].
      split; [discriminate|]. intros _. now repeat split.
Qed.

Lemma basic_connect_outcomes_witness :
  exists ctx' logged,
    @basicConnectAuthHandler sampleLib unit (requestTo EmptyString) "r"
      (@makeBasicAuthValidator sampleBasicStore) true "other.org:443"
      (emptyCtx (Some (requestWithAuth "Basic dXNlcjpwYTpzcw=="))) tt
    = Ok (OkConnect, "other.org:443", ctx', tt, logged)
    /\ UserData ctx' = Some "user".
Proof.
  destruct (proj2 (@basic_connect_outcomes sampleLib sampleBasicStore
                     (requestTo EmptyString) "r" true "other.org:443"
                     (emptyCtx (Some (requestWithAuth "Basic dXNlcjpwYTpzcw==")))
                     tt)
              (requestWithAuth "Basic dXNlcjpwYTpzcw==") eq_refl)
    as (action & ctx' & auth' & logged & Hrun & _ & Hok & Hdata & _).
  assert (Ha : action = OkConnect).
  { apply Hok. eexists. split; vm_compute; reflexivity. }
  subst action. destruct (Hdata eq_refl) as (_ & (d & Hd & Hu) & _).
  exists ctx', logged. destruct auth'. split; [exact Hrun|].
  vm_compute in Hd. injection Hd as <-. exact Hu.
Defined.

(** ** Upstream credentials: from the route to the header and back *)

Lemma connectHandler_header_set `{GoLib} (proxyURL : URL) (req : Request)
    (creds : string) :
  URL_User_Username proxyURL <> EmptyString ->
  url_QueryUnescape (URL_User_String proxyURL) = Some creds ->
  Header_Get (ReqHeader (fst (connectHandler proxyURL req))) ProxyAuthorizatonHeader
  = "Basic " ++ base64_EncodeToString creds.
Proof.
  intros Hu Hc. rewrite connectHandler_headers, Hc.
  apply String.eqb_neq in Hu. rewrite Hu. simpl.
  unfold Header_Get. now rewrite lookup_insert_eq.
Qed.

(** X13. What the CONNECT handler writes, the Basic parser reads back: for
    credentials that unescape to a user without a colon, a colon and a
    password, and that survive base64, parsing the request the handler
    produced gives that user and that password. *)
Theorem upstream_credentials_round_trip `{GoLib} (proxyURL : URL)
    (connectReq : Request) (u p : string) :
  URL_User_Username proxyURL <> EmptyString ->
  url_QueryUnescape (URL_User_String proxyURL) = Some (u ++ String colon p) ->
  ~ occurs colon u ->
  base64_DecodeString (base64_EncodeToString (u ++ String colon p))
  = Some (u ++ String colon p) ->
  snd (getBasicAuthData (fst (connectHandler proxyURL connectReq)))
  = Some {| basic_user := u; basic_password := p |}.
Proof.
  intros Hname Hun Hu Hrt.
  rewrite (getBasicAuthData_Basic (fst (connectHandler proxyURL connectReq))
             (base64_EncodeToString (u ++ String colon p))
             (connectHandler_header_set proxyURL connectReq _ Hname Hun)).
  rewrite Hrt. apply cut_None in Hu. now rewrite (cut_app colon u p Hu).
Qed.

Lemma upstream_credentials_round_trip_witness :
  snd (@getBasicAuthData sampleLib
         (fst (@connectHandler sampleLib
                 (Sample.mkSampleURL "http" (Some "bob:s3:cret")
                    "upstream.example.net:3128" EmptyString)
                 staleConnect)))
  = Some {| basic_user := "bob"; basic_password := "s3:cret" |}.
Proof.
  apply (@upstream_credentials_round_trip sampleLib
           (Sample.mkSampleURL "http" (Some "bob:s3:cret")
              "upstream.example.net:3128" EmptyString)
           staleConnect "bob" "s3:cret").
  - discriminate.
  - reflexivity.
  - apply cut_None. reflexivity.
  - vm_compute. reflexivity.
Defined.



(** ** Header rewriting along a chain of proxies *)

Lemma app_assoc_string (a b c : string) : (a ++ b) ++ c = a ++ b ++ c.
Proof.
  induction a as [|x a IH]; [reflexivity|].
  rewrite !app_cons_string. now rewrite IH.
Qed.

Lemma app_nonempty_string (a b : string) : a <> EmptyString -> a ++ b <> EmptyString.
Proof. destruct a; [congruence | discriminate]. Qed.

Lemma Join_cons_app (a b sep : string) (rest : list string) :
  Join ((a ++ b) :: rest) sep = a ++ Join (b :: rest) sep.
Proof. destruct rest as [|c rest]; simpl; [reflexivity | apply app_assoc_string]. Qed.

Lemma Join_fold (sep : string) (rest : list string) :
  forall v, Join (v :: rest) sep
            = fold_left (fun acc x => acc ++ sep ++ x) rest v.
Proof.
  induction rest as [|x rest IH]; intros v; [reflexivity|].
  cbn [fold_left]. rewrite <- IH.
  change (Join (v :: x :: rest) sep) with (v ++ sep ++ Join (x :: rest) sep).
  now rewrite !Join_cons_app.
Qed.

Section ForwardedFor.
Context `{GoNet}.

Lemma forwardedForHop_first (req : Request) (addr ip port : string) :
  net_SplitHostPort addr = inl (ip, port) ->
  ReqHeader req !! proxyForwardedForHeader = None ->
  ReqHeader (forwardedForHop forwardedForOn req addr)
  = <[proxyForwardedForHeader := [ip]]> (ReqHeader req).
Proof.
  intros Hs Hn. unfold forwardedForHop, forwardedForHandler. simpl.
  rewrite Hs. unfold Header_Get. rewrite Hn. simpl.
  unfold Header_Add. now rewrite Hn.
Qed.

Lemma forwardedForHop_next (req : Request) (addr ip port v : string) :
  net_SplitHostPort addr = inl (ip, port) ->
  ReqHeader req !! proxyForwardedForHeader = Some [v] -> v <> EmptyString ->
  ReqHeader (forwardedForHop forwardedForOn req addr)
  = <[proxyForwardedForHeader := [v ++ ", " ++ ip]]> (ReqHeader req).
Proof.
  intros Hs Hv Hne. unfold forwardedForHop, forwardedForHandler. simpl.
  rewrite Hs. unfold Header_Get. rewrite Hv.
  apply String.eqb_neq in Hne. rewrite Hne. simpl.
  unfold Header_Add, Header_Del. rewrite lookup_delete_eq. simpl.
  apply insert_delete_eq.
Qed.

Lemma forwardedFor_hops (hops : list (string * string)) :
  forall (req : Request) (v : string),
    ReqHeader req !! proxyForwardedForHeader = Some [v] -> v <> EmptyString ->
    Forall (fun hop => exists port, net_SplitHostPort (fst hop) = inl (snd hop, port))
           hops ->
    let final := fold_left (forwardedForHop forwardedForOn) (map fst hops) req in
    ReqHeader final !! proxyForwardedForHeader
    = Some [fold_left (fun acc x => acc ++ ", " ++ x) (map snd hops) v]
    /\ forall key, key <> proxyForwardedForHeader ->
                   ReqHeader final !! key = ReqHeader req !! key.
Proof.
  induction hops as [|[addr ip] hops IH]; intros req v Hv Hne Hall final;
    subst final.
  - simpl. split; [exact Hv | reflexivity].
  - apply Forall_cons in Hall as [[port Hs] Hall]. simpl in Hs.
    cbn [map fold_left fst snd].
    pose proof (forwardedForHop_next req addr ip port v Hs Hv Hne) as Hh.
    destruct (IH (forwardedForHop forwardedForOn req addr) (v ++ ", " ++ ip))
      as [Hx Ho].
    + rewrite Hh. apply lookup_insert_eq.
    + now apply app_nonempty_string.
    + exact Hall.
    + split; [exact Hx|]. intros key Hk. rewrite (Ho key Hk), Hh.
      now apply lookup_insert_ne.
Qed.

(** X15. With the Forwarded-For header on, a request that arrives without
    the header and passes a chain of proxies leaves the last one with
    exactly one X-Forwarded-For value: the addresses of the peers, in the
    order of the chain, joined by a comma and a space.  The first address
    must not be empty; no other header changes. *)
Theorem forwarded_for_chain (req : Request) (addr1 ip1 : string)
    (hops : list (string * string)) :
  ReqHeader req !! proxyForwardedForHeader = None ->
  ip1 <> EmptyString ->
  Forall (fun hop => exists port, net_SplitHostPort (fst hop) = inl (snd hop, port))
         ((addr1, ip1) :: hops) ->
  let final := fold_left (forwardedForHop forwardedForOn)
                 (addr1 :: map fst hops) req in
  ReqHeader final !! proxyForwardedForHeader
  = Some [Join (ip1 :: map snd hops) ", "]
  /\ forall key, key <> proxyForwardedForHeader ->
                 ReqHeader final !! key = ReqHeader req !! key.
Proof.
  intros Hn Hne Hall final. subst final.
  apply Forall_cons in Hall as [[port Hs] Hall]. simpl in Hs.
  cbn [fold_left].
  pose proof (forwardedForHop_first req addr1 ip1 port Hs Hn) as Hh.
  destruct (forwardedFor_hops hops (forwardedForHop forwardedForOn req addr1) ip1)
    as [Hx Ho].
  - rewrite Hh. apply lookup_insert_eq.
  - exact Hne.
  - exact Hall.
  - rewrite Join_fold. split; [exact Hx|].
    intros key Hk. rewrite (Ho key Hk), Hh. now apply lookup_insert_ne.
Qed.

End ForwardedFor.

Lemma forwarded_for_chain_witness :
  ReqHeader
    (fold_left (@forwardedForHop sampleLib sampleNet forwardedForOn)
       ["192.0.2.1:4711"; "198.51.100.7:3128"] (requestTo "other.org"))
  !! proxyForwardedForHeader
  = Some ["192.0.2.1, 198.51.100.7"].
Proof.
  refine (proj1 (@forwarded_for_chain sampleLib sampleNet (requestTo "other.org")
                   "192.0.2.1:4711" "192.0.2.1"
                   [("198.51.100.7:3128", "198.51.100.7")] eq_refl _ _)).
  - discriminate.
  - repeat constructor; simpl; eexists; vm_compute; reflexivity.
Defined.

(** X16. The other faces of the Forwarded-For handler.  When the remote
    address of the request cannot be split, the request is left as it came
    in every mode, also in the modes delete and truncate.  When it can be
    split, truncate leaves exactly the address of the peer, whatever the
    client sent, delete leaves no value, and on replaces all the values the
    client sent by one: the first of them, a comma, a space and the address
    of the peer. *)
Theorem forwarded_for_modes `{GoNet} (conf : HandlerConfiguration) (req : Request) :
  (forall err, net_SplitHostPort (RemoteAddr req) = inr err ->
               fst (forwardedForHandler conf req) = req)
  /\ forall ip port,
       net_SplitHostPort (RemoteAddr req) = inl (ip, port) ->
       let after := ReqHeader (fst (forwardedForHandler conf req)) in
       (ForwardedForHeader conf = "truncate" ->
        after = <[proxyForwardedForHeader := [ip]]> (ReqHeader req))
       /\ (ForwardedForHeader conf = "delete" ->
           after = delete proxyForwardedForHeader (ReqHeader req))
       /\ (ForwardedForHeader conf = "on" ->
           forall v more,
             ReqHeader req !! proxyForwardedForHeader = Some (v :: more) ->
             v <> EmptyString ->
             after = <[proxyForwardedForHeader := [v ++ ", " ++ ip]]> (ReqHeader req)).
Proof.
  unfold forwardedForHandler. split.
  - now intros err ->.
  - intros ip port ->. cbv zeta. split; [|split].
    + intros ->. simpl. unfold Header_Add, Header_Del.
      rewrite lookup_delete_eq. simpl. apply insert_delete_eq.
    + now intros ->.
    + intros -> v more Hv Hne. simpl. unfold Header_Get. rewrite Hv.
      apply String.eqb_neq in Hne. rewrite Hne. simpl.
      unfold Header_Add, Header_Del. rewrite lookup_delete_eq. simpl.
      apply insert_delete_eq.
Qed.

Lemma forwarded_for_modes_witness :
  ReqHeader (fst (@forwardedForHandler sampleLib sampleNet
                    (mkHandlerConfiguration "truncate" EmptyString EmptyString
                       [] [] []) spoofedRequest))
  !! proxyForwardedForHeader = Some ["192.0.2.1"]
  /\ fst (@forwardedForHandler sampleLib sampleNet
            (mkHandlerConfiguration "delete" EmptyString EmptyString [] [] [])
            (with_remote spoofedRequest "nowhere"))
     = with_remote spoofedRequest "nowhere".
Proof.
  split.
  - rewrite (proj1 (proj2 (@forwarded_for_modes sampleLib sampleNet
                             (mkHandlerConfiguration "truncate" EmptyString
                                EmptyString [] [] []) spoofedRequest)
                      "192.0.2.1" "4711" eq_refl) eq_refl).
    apply lookup_insert_eq.
  - apply (proj1 (@forwarded_for_modes sampleLib sampleNet
                    (mkHandlerConfiguration "delete" EmptyString EmptyString
                       [] [] []) (with_remote spoofedRequest "nowhere"))
             "missing port in address").
    reflexivity.
Defined.

Lemma viaHop_first (req : Request) (name : string) :
  ReqHeader req !! proxyViaHeader = None ->
  ReqHeader (viaHop req name)
  = <[proxyViaHeader := ["1.1 " ++ name]]> (ReqHeader req).
Proof.
  intros Hn. unfold viaHop, viaHandler. simpl. unfold Header_Get, Header_Add.
  now rewrite Hn.
Qed.

Lemma viaHop_next (req : Request) (name v : string) (vs : list string) :
  ReqHeader req !! proxyViaHeader = Some (v :: vs) -> v <> EmptyString ->
  ReqHeader (viaHop req name)
  = <[proxyViaHeader := v :: app vs [v ++ ", 1.1 " ++ name]]> (ReqHeader req).
Proof.
  intros Hv Hne. unfold viaHop, viaHandler. simpl. unfold Header_Get, Header_Add.
  rewrite Hv. apply String.eqb_neq in Hne. now rewrite Hne.
Qed.

Lemma via_hops (names : list string) :
  forall (req : Request) (v : string) (vs : list string),
    ReqHeader req !! proxyViaHeader = Some (v :: vs) -> v <> EmptyString ->
    ReqHeader (fold_left viaHop names req) !! proxyViaHeader
    = Some (v :: app vs (map (fun name => v ++ ", 1.1 " ++ name) names))
    /\ forall key, key <> proxyViaHeader ->
                   ReqHeader (fold_left viaHop names req) !! key
                   = ReqHeader req !! key.
Proof.
  induction names as [|name names IH]; intros req v vs Hv Hne.
  - simpl. rewrite app_nil_r. split; [exact Hv | reflexivity].
  - cbn [fold_left map].
    pose proof (viaHop_next req name v vs Hv Hne) as Hh.
    destruct (IH (viaHop req name) v (app vs [v ++ ", 1.1 " ++ name]))
      as [Hx Ho].
    + rewrite Hh. apply lookup_insert_eq.
    + exact Hne.
    + split.
      * rewrite Hx. now rewrite <- List.app_assoc.
      * intros key Hk. rewrite (Ho key Hk), Hh. now apply lookup_insert_ne.
Qed.

(** X17. With the Via header on, every proxy of a chain adds a value and
    removes none: a request that arrives without the header leaves a chain
    of proxies with one Via value for each of them.  The first value, which
    is what [Get] returns, names the first proxy only; each later value
    names the first proxy and the proxy that added it, and no proxy in
    between. *)
Theorem via_chain (req : Request) (name1 : string) (names : list string) :
  ReqHeader req !! proxyViaHeader = None ->
  let final := fold_left viaHop (name1 :: names) req in
  ReqHeader final !! proxyViaHeader
  = Some (("1.1 " ++ name1)
          :: map (fun name => ("1.1 " ++ name1) ++ ", 1.1 " ++ name) names)
  /\ Header_Get (ReqHeader final) proxyViaHeader = "1.1 " ++ name1
  /\ forall key, key <> proxyViaHeader ->
                 ReqHeader final !! key = ReqHeader req !! key.
Proof.
  intros Hn final. subst final. cbn [fold_left].
  pose proof (viaHop_first req name1 Hn) as Hh.
  destruct (via_hops names (viaHop req name1) ("1.1 " ++ name1) [])
    as [Hx Ho].
  - rewrite Hh. apply lookup_insert_eq.
  - discriminate.
  - split; [exact Hx|]. split.
    + unfold Header_Get. now rewrite Hx.
    + intros key Hk. rewrite (Ho key Hk), Hh. now apply lookup_insert_ne.
Qed.

Lemma via_chain_witness :
  ReqHeader (fold_left viaHop ["a"; "b"; "c"] (requestTo "other.org"))
  !! proxyViaHeader
  = Some ["1.1 a"; "1.1 a, 1.1 b"; "1.1 a, 1.1 c"].
Proof.
  exact (proj1 (via_chain (requestTo "other.org") "a" ["b"; "c"] eq_refl)).
Defined.

(** ** Custom headers *)

Section CustomHeaders.
Context `{GoNet}.

Lemma addCustomHeader_cases (h : Header) (headerData : list string) :
  addCustomHeader h headerData = h
  \/ exists header value,
       headerData = [header; value]
       /\ header <> EmptyString /\ value <> EmptyString
       /\ Header_Get h (CanonicalMIMEHeaderKey header) = EmptyString
       /\ addCustomHeader h headerData
          = Header_Add h (CanonicalMIMEHeaderKey header) value.
Proof.
  unfold addCustomHeader.
  destruct headerData as [|header [|value [|? ?]]]; try now left.
  rewrite !len_pos.
  destruct (String.eqb_spec header EmptyString) as [|Hh]; [now left|].
  destruct (String.eqb_spec value EmptyString) as [|Hv]; [now left|].
  destruct (String.eqb_spec (Header_Get h (CanonicalMIMEHeaderKey header))
              EmptyString) as [Hg|]; [|now left].
  right. exists header, value. simpl. auto.
Qed.

Lemma Header_Get_first (h : Header) (key v : string) (vs : list string) :
  h !! key = Some (v :: vs) -> Header_Get h key = v.
Proof. unfold Header_Get. now intros ->. Qed.

Lemma addCustomHeader_kept (h : Header) (headerData : list string)
    (key v : string) (vs : list string) :
  h !! key = Some (v :: vs) -> v <> EmptyString ->
  addCustomHeader h headerData !! key = Some (v :: vs).
Proof.
  intros Hk Hv.
  destruct (addCustomHeader_cases h headerData)
    as [-> | (header & value & _ & _ & _ & Hg & ->)]; [exact Hk|].
  unfold Header_Add.
  destruct (decide (CanonicalMIMEHeaderKey header = key)) as [E|E].
  - rewrite E, (Header_Get_first h key v vs Hk) in Hg. contradiction.
  - now rewrite lookup_insert_ne.
Qed.

Lemma addCustomHeader_grows (h : Header) (headerData : list string) (key : string) :
  exists added,
    default [] (addCustomHeader h headerData !! key)
    = app (default [] (h !! key)) added.
Proof.
  destruct (addCustomHeader_cases h headerData)
    as [-> | (header & value & _ & _ & _ & _ & ->)].
  - exists []. now rewrite app_nil_r.
  - unfold Header_Add.
    destruct (decide (CanonicalMIMEHeaderKey header = key)) as [<-|E].
    + exists [value]. now rewrite lookup_insert_eq.
    + exists []. now rewrite lookup_insert_ne, app_nil_r.
Qed.

(** No step makes the first value of a header empty. *)
Lemma addCustomHeader_first (h : Header) (headerData : list string) (key : string) :
  (forall vs, h !! key <> Some (EmptyString :: vs)) ->
  forall vs, addCustomHeader h headerData !! key <> Some (EmptyString :: vs).
Proof.
  intros Hf vs.
  destruct (addCustomHeader_cases h headerData)
    as [-> | (header & value & _ & _ & Hv & Hg & ->)]; [apply Hf|].
  unfold Header_Add.
  destruct (decide (CanonicalMIMEHeaderKey header = key)) as [E|E].
  - rewrite E in *. rewrite lookup_insert_eq.
    unfold Header_Get in Hg.
    destruct (h !! key) as [[|v more]|] eqn:Hk; simpl.
    + intros [= E1 _]. congruence.
    + subst v. now destruct (Hf more).
    + intros [= E1 _]. congruence.
  - rewrite lookup_insert_ne by exact E. apply Hf.
Qed.

Lemma addCustomHeader_sets (h : Header) (header value : string) :
  header <> EmptyString -> value <> EmptyString ->
  (forall vs, h !! CanonicalMIMEHeaderKey header <> Some (EmptyString :: vs)) ->
  Header_Get (addCustomHeader h [header; value]) (CanonicalMIMEHeaderKey header)
  <> EmptyString.
Proof.
  intros Hh Hv Hf. unfold addCustomHeader. rewrite !len_pos.
  rewrite (proj2 (String.eqb_neq _ _) Hh), (proj2 (String.eqb_neq _ _) Hv).
  simpl.
  destruct (String.eqb_spec (Header_Get h (CanonicalMIMEHeaderKey header))
              EmptyString) as [Hg|Hg]; simpl; [|exact Hg].
  unfold Header_Get, Header_Add. rewrite lookup_insert_eq.
  unfold Header_Get in Hg.
  destruct (h !! CanonicalMIMEHeaderKey header) as [[|v more]|] eqn:Hk; simpl.
  - exact Hv.
  - subst v. now destruct (Hf more).
  - exact Hv.
Qed.

Lemma Header_Get_nonempty (h : Header) (key : string) :
  Header_Get h key <> EmptyString ->
  exists v vs, h !! key = Some (v :: vs) /\ v <> EmptyString.
Proof.
  unfold Header_Get. destruct (h !! key) as [[|v vs]|]; try congruence. eauto.
Qed.

Lemma addCustomHeaders_kept (pairs : list (list string)) :
  forall (h : Header) (key v : string) (vs : list string),
    h !! key = Some (v :: vs) -> v <> EmptyString ->
    fold_left addCustomHeader pairs h !! key = Some (v :: vs).
Proof.
  induction pairs as [|pair pairs IH]; intros h key v vs Hk Hv; [exact Hk|].
  simpl. apply IH; [|exact Hv]. now apply addCustomHeader_kept.
Qed.

Lemma addCustomHeaders_grow (pairs : list (list string)) :
  forall (h : Header) (key : string),
    exists added,
      default [] (fold_left addCustomHeader pairs h !! key)
      = app (default [] (h !! key)) added.
Proof.
  induction pairs as [|pair pairs IH]; intros h key.
  - exists []. simpl. now rewrite app_nil_r.
  - simpl. destruct (IH (addCustomHeader h pair) key) as [more ->].
    destruct (addCustomHeader_grows h pair key) as [added ->].
    exists (app added more). now rewrite List.app_assoc.
Qed.

Lemma addCustomHeaders_first (pairs : list (list string)) :
  forall (h : Header) (key : string),
    (forall vs, h !! key <> Some (EmptyString :: vs)) ->
    forall vs, fold_left addCustomHeader pairs h !! key <> Some (EmptyString :: vs).
Proof.
  induction pairs as [|pair pairs IH]; intros h key Hf; [exact Hf|].
  simpl. apply IH. now apply addCustomHeader_first.
Qed.

(** X18. The custom headers handler only ever adds.  For every key the
    values the request carried are still there, in front of what was added;
    a header whose first value is not empty is left exactly as it was; and
    every configured pair of a non-empty name and a non-empty value ends up
    with a header that [Get] finds non-empty, unless the request came with
    an empty first value under that name. *)
Theorem custom_headers_only_add (conf : HandlerConfiguration) (req : Request) :
  let after := ReqHeader (addCustomHeadersHandler conf req) in
  (forall key, exists added,
      default [] (after !! key) = app (default [] (ReqHeader req !! key)) added)
  /\ (forall key v vs,
         ReqHeader req !! key = Some (v :: vs) -> v <> EmptyString ->
         after !! key = Some (v :: vs))
  /\ (forall header value,
         In [header; value] (AddHeaders conf) ->
         header <> EmptyString -> value <> EmptyString ->
         (forall vs, ReqHeader req !! CanonicalMIMEHeaderKey header
                     <> Some (EmptyString :: vs)) ->
         Header_Get after (CanonicalMIMEHeaderKey header) <> EmptyString).
Proof.
  intros after. subst after. unfold addCustomHeadersHandler. simpl.
  split; [|split].
  - intros key. apply addCustomHeaders_grow.
  - intros key v vs. apply addCustomHeaders_kept.
  - intros header value Hin Hh Hv Hf.
    apply in_split in Hin as (before & later & ->).
    rewrite fold_left_app. cbn [fold_left].
    set (h1 := fold_left addCustomHeader before (ReqHeader req)).
    assert (Hf1 : forall vs, h1 !! CanonicalMIMEHeaderKey header
                             <> Some (EmptyString :: vs))
      by now apply addCustomHeaders_first.
    pose proof (addCustomHeader_sets h1 header value Hh Hv Hf1) as Hset.
    destruct (Header_Get_nonempty _ _ Hset) as (v & vs & Hk & Hne).
    now rewrite (Header_Get_first _ _ v vs
                   (addCustomHeaders_kept later _ _ v vs Hk Hne)).
Qed.

End CustomHeaders.

Lemma custom_headers_only_add_witness :
  ReqHeader
    (@addCustomHeadersHandler sampleLib sampleNet
       (mkHandlerConfiguration EmptyString EmptyString EmptyString
          [["X-Forwarded-For"; "0.0.0.0"]; ["X-Via"; "a"]; ["X-Via"; "b"]] [] [])
       spoofedRequest)
  !! "X-Forwarded-For" = Some ["10.0.0.1"; "10.0.0.2"]
  /\ Header_Get
       (ReqHeader
          (@addCustomHeadersHandler sampleLib sampleNet
             (mkHandlerConfiguration EmptyString EmptyString EmptyString
                [["X-Forwarded-For"; "0.0.0.0"]; ["X-Via"; "a"]; ["X-Via"; "b"]]
                [] [])
             spoofedRequest)) "X-Via" <> EmptyString.
Proof.
  destruct (@custom_headers_only_add sampleLib sampleNet
              (mkHandlerConfiguration EmptyString EmptyString EmptyString
                 [["X-Forwarded-For"; "0.0.0.0"]; ["X-Via"; "a"]; ["X-Via"; "b"]]
                 [] [])
              spoofedRequest) as (_ & Hkeep & Hset).
  split.
  - apply Hkeep; [reflexivity | discriminate].
  - apply (Hset "X-Via" "b").
    + right. right. now left.
    + discriminate.
    + discriminate.
    + intros vs. vm_compute. discriminate.
Defined.

(** ** Access lists *)

Section AccessLists.
Context `{GoNet}.

Lemma sourceIPMatches_unparsable (networks : list string) (req : Request)
    (err : string) :
  net_SplitHostPort (RemoteAddr req) = inr err ->
  fst (sourceIPMatches networks req) = Ok false.
Proof. unfold sourceIPMatches. now intros ->. Qed.

(** X19. A request whose remote address cannot be split into host and port
    matches no network, whatever the lists hold.  It is therefore rejected
    when there is a list of allowed networks, and let through when there is
    only a list of disallowed networks; no entry of the lists is looked at,
    so the check does not panic. *)
Theorem unparsable_remote_address (conf : HandlerConfiguration) (req : Request)
    (err : string) :
  net_SplitHostPort (RemoteAddr req) = inr err ->
  rejectedByNetworks conf req
  = Ok (negb (bool_decide (AllowedNetworks conf = []))).
Proof.
  intros Hs. unfold rejectedByNetworks.
  rewrite !(sourceIPMatches_unparsable _ req err Hs).
  destruct (AllowedNetworks conf) as [|a allowed]; simpl.
  - now destruct (DisallowedNetworks conf).
  - reflexivity.
Qed.

Lemma containsAny_nil_network (good : list (option IPNet)) (rest : list (option IPNet))
    (addr : option IP) :
  Forall (fun n => exists network, n = Some network
                                   /\ IPNet_Contains network addr = false) good ->
  containsAny (app good (None :: rest)) addr = Panic nil_deref.
Proof.
  induction good as [|n good IH]; intros Hall; [reflexivity|].
  apply Forall_cons in Hall as [(network & -> & Hc) Hall].
  simpl. rewrite Hc. now apply IH.
Qed.

(** X20. A network of the configuration that does not parse stays in the
    list as a nil network.  For a request whose address is in none of the
    networks before it, asking that nil network panics: the condition gives
    no answer at all. *)
Theorem unparsable_network_panics (before later : list string) (bad : string)
    (req : Request) (ip port : string) :
  net_SplitHostPort (RemoteAddr req) = inl (ip, port) ->
  net_ParseCIDR bad = None ->
  Forall (fun network =>
            exists n, net_ParseCIDR network = Some n
                      /\ IPNet_Contains n (net_ParseIP ip) = false) before ->
  fst (sourceIPMatches (app before (bad :: later)) req) = Panic nil_deref.
Proof.
  intros Hs Hbad Hall. unfold sourceIPMatches. rewrite Hs. simpl.
  rewrite map_app. simpl. rewrite Hbad.
  apply containsAny_nil_network.
  apply Forall_forall. intros n Hn.
  apply list_elem_of_In, in_map_iff in Hn as (network & <- & Hin).
  apply list_elem_of_In in Hin. rewrite Forall_forall in Hall. destruct (Hall network Hin) as (m & -> & Hc).
  now exists m.
Qed.

End AccessLists.

Lemma unparsable_remote_address_witness :
  @rejectedByNetworks sampleLib sampleNet
    (mkHandlerConfiguration EmptyString EmptyString EmptyString []
       [] ["10.0.0.0/8"])
    (with_remote (requestTo "other.org") "nowhere")
  = Ok false
  /\ @rejectedByNetworks sampleLib sampleNet
       (mkHandlerConfiguration EmptyString EmptyString EmptyString []
          ["10.0.0.0/8"] [])
       (with_remote (requestTo "other.org") "nowhere")
     = Ok true.
Proof.
  split.
  - exact (@unparsable_remote_address sampleLib sampleNet
             (mkHandlerConfiguration EmptyString EmptyString EmptyString []
                [] ["10.0.0.0/8"])
             (with_remote (requestTo "other.org") "nowhere")
             "missing port in address" eq_refl).
  - exact (@unparsable_remote_address sampleLib sampleNet
             (mkHandlerConfiguration EmptyString EmptyString EmptyString []
                ["10.0.0.0/8"] [])
             (with_remote (requestTo "other.org") "nowhere")
             "missing port in address" eq_refl).
Defined.

Lemma unparsable_network_panics_witness :
  fst (@sourceIPMatches sampleLib sampleNet ["10.0.0.0/8"; "10.0.0.0"; "192.0.2.0/24"]
         (requestTo "other.org"))
  = Panic nil_deref.
Proof.
  apply (@unparsable_network_panics sampleLib sampleNet ["10.0.0.0/8"]
           ["192.0.2.0/24"] "10.0.0.0" (requestTo "other.org")
           "192.0.2.1" "4711").
  - reflexivity.
  - reflexivity.
  - repeat constructor. eexists. split; vm_compute; reflexivity.
Defined.

(** ** The dialer set-up *)

Lemma checkBindAddressOK_ok `{GoLib} (conf : Configuration) (laddr : string)
    (err : option string) :
  checkBindAddressOK conf = (true, laddr, err) ->
  err = None /\ laddr <> EmptyString /\ BindIP conf <> EmptyString
  /\ (exists ip, net_ParseIP (BindIP conf) = Some ip)
  /\ (laddr = BindIP conf ++ ":0" \/ laddr = "[" ++ BindIP conf ++ "]:0").
Proof.
  unfold checkBindAddressOK.
  destruct (String.eqb_spec (BindIP conf) EmptyString) as [|Hne]; simpl;
    [discriminate|].
  destruct (net_ParseIP (BindIP conf)) as [ip|]; [|discriminate].
  destruct (IP_To4 ip).
  - intros [= <- <-]. split; [reflexivity|].
    split; [|split; [exact Hne | split; [eauto | now left]]].
    destruct (BindIP conf); [congruence | discriminate].
  - destruct (IP_To16 ip); [|discriminate].
    intros [= <- <-]. split; [reflexivity|].
    split; [discriminate | split; [exact Hne | split; [eauto | now right]]].
Qed.

(** X21. What [createProxy] does with the bind address.  It never installs
    the custom dialer without a local address: the branch for an empty
    local address cannot be reached.  It installs the custom dialer with a
    local address only for a bind address that parses, and the address is
    the one [ResolveTCPAddr] returns for the bind address with port 0.  For
    a bind address that does not parse it keeps the default dialer and
    logs nothing. *)
Theorem createProxy_dialer `{GoNet} (conf : Configuration) :
  fst (createProxy conf) <> CustomDialContext None
  /\ (forall addr,
         fst (createProxy conf) = CustomDialContext (Some addr) ->
         BindIP conf <> EmptyString
         /\ (exists ip, net_ParseIP (BindIP conf) = Some ip)
         /\ (net_ResolveTCPAddr (BindIP conf ++ ":0") = inl addr
             \/ net_ResolveTCPAddr ("[" ++ BindIP conf ++ "]:0") = inl addr))
  /\ (net_ParseIP (BindIP conf) = None ->
      createProxy conf = (DefaultDialContext, [])).
Proof.
  unfold createProxy.
  destruct (checkBindAddressOK conf) as [[ok laddr] err] eqn:E.
  split; [|split].
  - destruct ok; [|discriminate].
    apply checkBindAddressOK_ok in E as (_ & Hl & _).
    apply String.eqb_neq in Hl. rewrite Hl. simpl.
    destruct (net_ResolveTCPAddr laddr); discriminate.
  - intros addr. destruct ok; [|discriminate].
    apply checkBindAddressOK_ok in E as (_ & Hl & Hb & Hip & Hform).
    apply String.eqb_neq in Hl. rewrite Hl. simpl.
    destruct (net_ResolveTCPAddr laddr) as [a|e] eqn:Hr; [|discriminate].
    intros [= <-]. split; [exact Hb|]. split; [exact Hip|].
    destruct Hform as [-> | ->]; auto.
  - intros Hp. rewrite (checkBindAddressOK_unparsable conf Hp) in E.
    now injection E as <- <- <-.
Qed.

Lemma createProxy_dialer_witness :
  @createProxy sampleLib sampleNet (mkConfiguration "not-an-ip" ∅ ∅ EmptyString)
  = (DefaultDialContext, [])
  /\ BindIP (mkConfiguration "10.0.0.1" ∅ ∅ EmptyString) <> EmptyString.
Proof.
  destruct (@createProxy_dialer sampleLib sampleNet
              (mkConfiguration "not-an-ip" ∅ ∅ EmptyString)) as (_ & _ & Hbad).
  destruct (@createProxy_dialer sampleLib sampleNet
              (mkConfiguration "10.0.0.1" ∅ ∅ EmptyString)) as (_ & Hgood & _).
  split; [apply Hbad; reflexivity|].
  apply (Hgood "10.0.0.1:0"). vm_compute. reflexivity.
Defined.

(** ** The Digest parser on well-formed parameter lists *)

Lemma app_empty_r_string (s : string) : s ++ EmptyString = s.
Proof. induction s as [|a s IH]; [reflexivity|]. rewrite app_cons_string. now rewrite IH. Qed.

Lemma free_of_cons (bad : list ascii) (a : ascii) (s : string) :
  free_of bad (String a s) = true
  <-> (forall c, In c bad -> a <> c) /\ free_of bad s = true.
Proof.
  simpl. rewrite Bool.andb_true_iff, Bool.negb_true_iff. split.
  - intros [Hx Hs]. split; [|exact Hs]. intros c Hc ->.
    assert (existsb (Ascii.eqb c) bad = true); [|congruence].
    apply existsb_exists. exists c. split; [exact Hc | apply Ascii.eqb_refl].
  - intros [Hx Hs]. split; [|exact Hs].
    apply Bool.not_true_iff_false. intros He.
    apply existsb_exists in He as (c & Hc & Heq).
    apply Ascii.eqb_eq in Heq. now apply (Hx c Hc).
Qed.

Lemma free_of_weaken (bad bad' : list ascii) (s : string) :
  (forall c, In c bad' -> In c bad) ->
  free_of bad s = true -> free_of bad' s = true.
Proof.
  intros Hsub. induction s as [|a s IH]; [reflexivity|].
  rewrite !free_of_cons. intros [Hx Hs]. split; [|now apply IH].
  intros c Hc. apply Hx, Hsub, Hc.
Qed.

Lemma free_of_app (bad : list ascii) (s1 s2 : string) :
  free_of bad s1 = true -> free_of bad s2 = true -> free_of bad (s1 ++ s2) = true.
Proof.
  intros H1 H2. induction s1 as [|a s1 IH]; [exact H2|].
  rewrite app_cons_string. apply free_of_cons in H1 as [Hx H1].
  apply free_of_cons. split; [exact Hx | now apply IH].
Qed.

Lemma free_of_occurs (c : ascii) (s : string) :
  free_of [c] s = true -> ~ occurs c s.
Proof.
  induction s as [|a s IH].
  - intros _ ([|? ?] & ? & [=]).
  - rewrite free_of_cons. intros [Hx Hs] Ho.
    apply occurs_cons in Ho as [-> | Ho]; [|now apply IH].
    apply (Hx c); [now left | reflexivity].
Qed.

(** *** The scanners on a concatenation *)

Lemma quoteScan_plain (k : string) :
  forall (i : nat) (rest : string),
    free_of [dquote] k = true ->
    quoteScan None i (k ++ rest) = quoteScan None (i + String.length k) rest.
Proof.
  induction k as [|a k IH]; intros i rest Hk.
  - simpl. now rewrite Nat.add_0_r.
  - apply free_of_cons in Hk as [Hx Hk]. rewrite app_cons_string.
    cbn [quoteScan]. destruct (Ascii.eqb_spec a dquote) as [E|_].
    + now destruct (Hx dquote ltac:(left; reflexivity)).
    + rewrite (IH (S i) rest Hk). simpl String.length. f_equal. lia.
Qed.

Lemma quoteScan_closing (v : string) :
  forall (p i : nat) (rest : string),
    free_of [dquote; newline] v = true ->
    quoteScan (Some p) i (v ++ String dquote rest)
    = [p; S (i + String.length v); S p; i + String.length v]%nat
      :: quoteScan None (S (i + String.length v)) rest.
Proof.
  induction v as [|a v IH]; intros p i rest Hv.
  - simpl. rewrite Nat.add_0_r. reflexivity.
  - apply free_of_cons in Hv as [Hx Hv]. rewrite app_cons_string.
    cbn [quoteScan].
    destruct (Ascii.eqb_spec a dquote) as [E|_];
      [now destruct (Hx dquote ltac:(left; reflexivity))|].
    destruct (Ascii.eqb_spec a newline) as [E|_];
      [now destruct (Hx newline ltac:(right; left; reflexivity))|].
    rewrite (IH p (S i) rest Hv). simpl String.length.
    now replace (S i + String.length v)%nat with (i + S (String.length v))%nat by lia.
Qed.

(** The positions of the commas of [s], counted from [i]. *)
Lemma commaScan_app (s1 : string) :
  forall (i : nat) (s2 : string),
    commaScan i (s1 ++ s2)
    = app (commaScan i s1) (commaScan (i + String.length s1) s2).
Proof.
  induction s1 as [|a s1 IH]; intros i s2.
  - simpl. now rewrite Nat.add_0_r.
  - rewrite app_cons_string. cbn [commaScan String.length].
    rewrite (IH (S i) s2).
    replace (S i + String.length s1)%nat with (i + S (String.length s1))%nat by lia.
    now destruct (Ascii.eqb a comma).
Qed.

Lemma commaScan_plain (s : string) :
  forall i : nat, free_of [comma] s = true -> commaScan i s = [].
Proof.
  induction s as [|a s IH]; intros i Hs; [reflexivity|].
  apply free_of_cons in Hs as [Hx Hs]. cbn [commaScan].
  destruct (Ascii.eqb_spec a comma) as [E|_];
    [now destruct (Hx comma ltac:(left; reflexivity))|].
  now apply IH.
Qed.

Lemma commaScan_range (s : string) (i c : nat) :
  In c (map (fun commaIndices => nth 0 commaIndices 0%nat) (commaScan i s)) ->
  (i <= c < i + String.length s)%nat.
Proof.
  intros Hc. apply commaScan_index in Hc as [Hle Hg].
  apply get_Some_lt in Hg. lia.
Qed.

(** *** Moving a text to the right moves what the scanners find *)

Lemma quoteScan_shift (c : nat) (s : string) :
  forall (open : option nat) (i : nat),
    quoteScan (option_map (fun p => p + c)%nat open) (i + c) s
    = map (map (fun x => x + c)%nat) (quoteScan open i s).
Proof.
  induction s as [|a s IH]; intros open i; [reflexivity|].
  cbn [quoteScan]. destruct open as [p|]; simpl option_map.
  - destruct (Ascii.eqb a dquote).
    + cbn [map]. f_equal. exact (IH None (S i)).
    + destruct (Ascii.eqb a newline).
      * exact (IH None (S i)).
      * exact (IH (Some p) (S i)).
  - destruct (Ascii.eqb a dquote).
    + exact (IH (Some i) (S i)).
    + exact (IH None (S i)).
Qed.

Lemma commaScan_shift (c : nat) (s : string) :
  forall i : nat,
    map (fun commaIndices => nth 0 commaIndices 0%nat) (commaScan (i + c) s)
    = map (fun x => x + c)%nat
        (map (fun commaIndices => nth 0 commaIndices 0%nat) (commaScan i s)).
Proof.
  induction s as [|a s IH]; intros i; [reflexivity|].
  cbn [commaScan]. destruct (Ascii.eqb a comma).
  - cbn [map nth]. f_equal. exact (IH (S i)).
  - exact (IH (S i)).
Qed.

Lemma quotedComma_app (qs1 qs2 : list (list nat)) (c : nat) :
  quotedComma (app qs1 qs2) c = quotedComma qs1 c || quotedComma qs2 c.
Proof. unfold quotedComma. apply existsb_app. Qed.

Lemma quotedComma_shift (c : nat) (qs : list (list nat)) (x : nat) :
  quotedComma (map (map (fun y => y + c)%nat) qs) (x + c) = quotedComma qs x.
Proof.
  unfold quotedComma. induction qs as [|q qs IH]; [reflexivity|].
  cbn [map existsb]. rewrite IH. f_equal.
  rewrite length_map.
  destruct q as [|q0 [|q1 [|q2 [|q3 [|q4 q]]]]]; try reflexivity.
  cbn [map nth length]. simpl Nat.eqb.
  destruct (Nat.leb_spec q2 x), (Nat.leb_spec (q2 + c) (x + c)); try lia;
    destruct (Nat.leb_spec x q3), (Nat.leb_spec (x + c) (q3 + c)); try lia;
    reflexivity.
Qed.

(** A match found from position [i] on starts at [i] or later. *)
Lemma quoteScan_from (s : string) :
  forall (open : option nat) (i lo : nat) (q : list nat),
    (forall p, open = Some p -> lo <= p)%nat -> (lo <= i)%nat ->
    In q (quoteScan open i s) ->
    exists p e, q = [p; S e; S p; e] /\ (lo <= p)%nat.
Proof.
  induction s as [|a s IH]; intros open i lo q Hopen Hi Hq; [destruct Hq|].
  cbn [quoteScan] in Hq. destruct open as [p|].
  - specialize (Hopen p eq_refl). destruct (Ascii.eqb a dquote).
    + destruct Hq as [<- | Hq]; [eauto|].
      apply (IH None (S i) lo q); [discriminate | lia | exact Hq].
    + destruct (Ascii.eqb a newline).
      * apply (IH None (S i) lo q); [discriminate | lia | exact Hq].
      * apply (IH (Some p) (S i) lo q); [now intros ? [= <-] | lia | exact Hq].
  - destruct (Ascii.eqb a dquote).
    + apply (IH (Some i) (S i) lo q); [now intros ? [= <-] | lia | exact Hq].
    + apply (IH None (S i) lo q); [discriminate | lia | exact Hq].
Qed.

Lemma quotedComma_before (s : string) (i c : nat) :
  (c <= i)%nat -> quotedComma (quoteScan None i s) c = false.
Proof.
  intros Hc. apply Bool.not_true_iff_false. intros Hq.
  apply quotedComma_true in Hq as (q & Hin & _ & H2 & _).
  destruct (quoteScan_from s None i i q ltac:(discriminate) ltac:(lia) Hin)
    as (p & e & -> & Hp).
  simpl in H2. lia.
Qed.

Lemma filter_none {A : Type} (P : A -> Prop) `{forall x, Decision (P x)}
    (l : list A) :
  (forall x, In x l -> ~ P x) -> filter P l = [].
Proof.
  induction l as [|x l IH]; intros Hn; [reflexivity|].
  rewrite filter_cons_False by (apply Hn; now left).
  apply IH. intros y Hy. apply Hn. now right.
Qed.

Lemma filter_map_ext {A B : Type} (f : A -> B) (P : B -> Prop) (Q : A -> Prop)
    `{forall y, Decision (P y)} `{forall x, Decision (Q x)} (l : list A) :
  (forall x, P (f x) <-> Q x) -> filter P (map f l) = map f (filter Q l).
Proof.
  intros Hpq. induction l as [|x l IH]; [reflexivity|].
  cbn [map]. rewrite !filter_cons.
  destruct (decide (P (f x))) as [Hp|Hp], (decide (Q x)) as [Hq|Hq].
  - cbn [map]. now rewrite IH.
  - now apply Hpq in Hp.
  - now apply Hpq in Hq.
  - exact IH.
Qed.

(** *** Slices of a concatenation *)

Lemma substring_shift (pre : string) :
  forall (s n : nat) (r : string),
    substring (s + String.length pre) n (pre ++ r) = substring s n r.
Proof.
  induction pre as [|a pre IH]; intros s n r.
  - simpl. now rewrite Nat.add_0_r.
  - rewrite app_cons_string. simpl String.length. rewrite Nat.add_succ_r.
    exact (IH s n r).
Qed.

Lemma substring_prefix (t : string) :
  forall rest : string, substring 0 (String.length t) (t ++ rest) = t.
Proof.
  induction t as [|a t IH]; intros rest.
  - now destruct rest.
  - rewrite app_cons_string. simpl. now rewrite IH.
Qed.

Lemma substring_whole (t : string) : substring 0 (String.length t) t = t.
Proof.
  rewrite <- (app_empty_r_string t) at 2. apply substring_prefix.
Qed.

Lemma splitTokens_shift (pre r : string) (seps : list nat) :
  forall s : nat,
    splitTokens (pre ++ r) (s + String.length pre)
      (map (fun x => x + String.length pre)%nat seps)
    = splitTokens r s seps.
Proof.
  induction seps as [|e seps IH]; intros s; cbn [map splitTokens]; unfold slice.
  - rewrite substring_shift, length_app_string.
    now replace (String.length pre + String.length r - (s + String.length pre))%nat
      with (String.length r - s)%nat by lia.
  - rewrite substring_shift.
    replace (e + String.length pre - (s + String.length pre))%nat
      with (e - s)%nat by lia.
    f_equal. exact (IH (S e)).
Qed.

Lemma Trim_leading (c : ascii) (s : string) : Trim (String c s) c = Trim s c.
Proof. unfold Trim. simpl. now rewrite Ascii.eqb_refl. Qed.

(** *** A token in front of a comma, and a token alone *)

Section FrontToken.
Variable t : string.
Variable sp : list (list nat).
Hypothesis Hscan :
  forall rest, quoteScan None 0 (t ++ rest)
               = app sp (quoteScan None (String.length t) rest).
Hypothesis Hquoted :
  forall c, In c (map (fun commaIndices => nth 0 commaIndices 0%nat) (commaScan 0 t)) ->
            quotedComma sp c = true.
Hypothesis Hinside :
  forall c, (String.length t <= c)%nat -> quotedComma sp c = false.

Lemma digestTokens_single : digestTokens t = [Trim t space].
Proof.
  unfold digestTokens, quotedStrings_FindAll, commas_FindAll, separateCommas.
  pose proof (Hscan EmptyString) as E. rewrite app_empty_r_string in E.
  rewrite E. simpl quoteScan. rewrite app_nil_r.
  rewrite filter_none.
  - cbn [splitTokens]. unfold slice. now rewrite Nat.sub_0_r, substring_whole.
  - intros c Hc. rewrite (Hquoted c Hc). discriminate.
Qed.

Lemma digestTokens_comma (r : string) :
  digestTokens (t ++ String comma r) = Trim t space :: digestTokens r.
Proof.
  unfold digestTokens, quotedStrings_FindAll, commas_FindAll, separateCommas.
  rewrite (Hscan (String comma r)).
  change (quoteScan None (String.length t) (String comma r))
    with (quoteScan None (S (String.length t)) r).
  assert (Hmid : quotedComma (quoteScan None (S (String.length t)) r)
                   (String.length t) = false)
    by (apply quotedComma_before; lia).
  pose proof (quoteScan_shift (S (String.length t)) r None 0) as Eq.
  simpl option_map in Eq. simpl Nat.add in Eq. rewrite Eq in Hmid |- *.
  rewrite commaScan_app. simpl Nat.add.
  change (commaScan (String.length t) (String comma r))
    with ([String.length t; S (String.length t)]
          :: commaScan (S (String.length t)) r).
  rewrite map_app. cbn [map nth].
  pose proof (commaScan_shift (S (String.length t)) r 0) as Ec.
  simpl Nat.add in Ec. rewrite Ec.
  rewrite filter_app, filter_none.
  - rewrite filter_cons_True
      by (rewrite quotedComma_app, Hmid, Hinside by lia; reflexivity).
    rewrite (filter_map_ext (fun x => x + S (String.length t))%nat _
               (fun x => quotedComma (quoteScan None 0 r) x = false)).
    + cbn [app splitTokens]. unfold slice at 1.
      rewrite Nat.sub_0_r, substring_prefix. f_equal.
      rewrite <- (app_snoc_string t comma r).
      assert (El : S (String.length t)
                   = String.length (t ++ String comma EmptyString)).
      { rewrite length_app_string. simpl. lia. }
      rewrite El. exact (splitTokens_shift _ r _ 0).
    + intros x. rewrite quotedComma_app, Hinside by lia.
      now rewrite quotedComma_shift.
  - intros c Hc. rewrite quotedComma_app, (Hquoted c Hc). discriminate.
Qed.

End FrontToken.

(** A space in front of a parameter text changes no token. *)
Lemma digestTokens_space (r : string) :
  digestTokens (String space r) = digestTokens r.
Proof.
  unfold digestTokens, quotedStrings_FindAll, commas_FindAll, separateCommas.
  change (quoteScan None 0 (String space r)) with (quoteScan None 1 r).
  change (commaScan 0 (String space r)) with (commaScan 1 r).
  pose proof (quoteScan_shift 1 r None 0) as Eq. simpl in Eq. rewrite Eq.
  pose proof (commaScan_shift 1 r 0) as Ec. simpl Nat.add in Ec. rewrite Ec.
  rewrite (filter_map_ext (fun x => x + 1)%nat _
             (fun x => quotedComma (quoteScan None 0 r) x = false))
    by (intros x; now rewrite quotedComma_shift).
  destruct (filter _ _) as [|e seps]; cbn [map splitTokens]; unfold slice.
  - simpl String.length. rewrite !Nat.sub_0_r.
    change (substring 0 (S (String.length r)) (String space r))
      with (String space (substring 0 (String.length r) r)).
    now rewrite Trim_leading.
  - rewrite !Nat.sub_0_r. rewrite Nat.add_1_r.
    change (substring 0 (S e) (String space r))
      with (String space (substring 0 e r)).
    rewrite Trim_leading. f_equal.
    replace (S (S e)) with (S e + 1)%nat by lia.
    exact (splitTokens_shift (String space EmptyString) r seps (S e)).
Qed.

(** *** Trimming what is not there *)

Ltac chars_differ := cbv [dquote newline space comma colon equals]; discriminate.

Lemma TrimLeft_first (c a : ascii) (s : string) :
  a <> c -> TrimLeft c (String a s) = String a s.
Proof. intros Hne. simpl. now destruct (Ascii.eqb_spec a c). Qed.

Lemma TrimRight_snoc (c a : ascii) (s : string) :
  a <> c -> TrimRight c (s ++ String a EmptyString) = s ++ String a EmptyString.
Proof.
  intros Hne. induction s as [|b s IH].
  - simpl. now destruct (Ascii.eqb_spec a c).
  - rewrite app_cons_string. cbn [TrimRight]. rewrite IH.
    now destruct s.
Qed.

Lemma TrimRight_free (c : ascii) (s : string) :
  free_of [c] s = true -> TrimRight c s = s.
Proof.
  induction s as [|a s IH]; [reflexivity|].
  rewrite free_of_cons. intros [Hx Hs]. cbn [TrimRight]. rewrite (IH Hs).
  destruct s; [|reflexivity].
  destruct (Ascii.eqb_spec a c) as [E|_]; [|reflexivity].
  now destruct (Hx c ltac:(left; reflexivity)).
Qed.

Lemma TrimLeft_free (c : ascii) (s : string) :
  free_of [c] s = true -> TrimLeft c s = s.
Proof.
  destruct s as [|a s]; [reflexivity|].
  rewrite free_of_cons. intros [Hx _]. apply TrimLeft_first.
  apply Hx. now left.
Qed.

Lemma Trim_free (c : ascii) (s : string) : free_of [c] s = true -> Trim s c = s.
Proof. intros Hs. unfold Trim. now rewrite (TrimLeft_free c s Hs), TrimRight_free. Qed.

Lemma TrimRight_strip (c : ascii) (v : string) :
  free_of [c] v = true -> TrimRight c (v ++ String c EmptyString) = v.
Proof.
  induction v as [|a v IH].
  - intros _. simpl. now rewrite Ascii.eqb_refl.
  - rewrite free_of_cons. intros [Hx Hv]. rewrite app_cons_string.
    cbn [TrimRight]. rewrite (IH Hv). destruct v; [|reflexivity].
    destruct (Ascii.eqb_spec a c) as [E|_]; [|reflexivity].
    now destruct (Hx c ltac:(left; reflexivity)).
Qed.

Lemma Trim_quoted (v : string) : free_of [dquote] v = true -> Trim (quoted v) dquote = v.
Proof.
  intros Hv. unfold Trim, quoted. cbn [TrimLeft]. rewrite Ascii.eqb_refl.
  destruct v as [|a v].
  - reflexivity.
  - rewrite app_cons_string, TrimLeft_first.
    + rewrite <- app_cons_string. now apply TrimRight_strip.
    + apply free_of_cons in Hv as [Hx _]. apply Hx. now left.
Qed.

(** *** Well-formed parameters *)

Section WellFormed.
Variable p : DigestParam.
Hypothesis Hwf : wellFormedParam p = true.

Lemma wf_key (c : ascii) :
  In c [dquote; comma; space; equals] -> free_of [c] (paramKey p) = true.
Proof.
  intros Hc. unfold wellFormedParam in Hwf. apply andb_prop in Hwf as [Hk _].
  apply (free_of_weaken [dquote; comma; space; equals] [c]); [|exact Hk].
  intros c' [<- | []]. exact Hc.
Qed.

Lemma paramToken_trim : Trim (paramToken p) space = paramToken p.
Proof.
  pose proof (wf_key space ltac:(right; right; left; reflexivity)) as Hk.
  unfold wellFormedParam in Hwf. apply andb_prop in Hwf as [_ Hv].
  destruct p as [k v | k v]; simpl paramToken; simpl paramKey in Hk.
  - unfold Trim.
    assert (El : TrimLeft space (k ++ String equals (quoted v))
                 = k ++ String equals (quoted v)).
    { destruct k as [|a k]; [reflexivity|]. rewrite app_cons_string.
      apply TrimLeft_first. apply free_of_cons in Hk as [Hx _].
      apply Hx. now left. }
    rewrite El. unfold quoted.
    replace (k ++ String equals (String dquote (v ++ String dquote EmptyString)))
      with ((k ++ String equals (String dquote v)) ++ String dquote EmptyString).
    + apply TrimRight_snoc. chars_differ.
    + rewrite app_assoc_string. now rewrite !app_cons_string.
  - apply Trim_free. apply free_of_app; [exact Hk|].
    apply free_of_cons. split; [intros c [<- | []]; chars_differ|].
    simpl in Hv.
    apply (free_of_weaken [dquote; comma; space] [space]); [|exact Hv].
    intros c [<- | []]. right. right. now left.
Qed.

Lemma paramToken_scan :
  exists sp,
    (forall rest, quoteScan None 0 (paramToken p ++ rest)
                  = app sp (quoteScan None (String.length (paramToken p)) rest))
    /\ (forall c, In c (map (fun commaIndices => nth 0 commaIndices 0%nat)
                         (commaScan 0 (paramToken p))) ->
                  quotedComma sp c = true)
    /\ (forall c, (String.length (paramToken p) <= c)%nat ->
                  quotedComma sp c = false).
Proof.
  pose proof (wf_key dquote ltac:(left; reflexivity)) as Hkq.
  pose proof (wf_key comma ltac:(right; left; reflexivity)) as Hkc.
  unfold wellFormedParam in Hwf. apply andb_prop in Hwf as [_ Hv].
  destruct p as [k v | k v]; simpl paramToken; simpl paramKey in Hkq, Hkc;
    simpl in Hv.
  - set (n := String.length k). set (m := String.length v).
    assert (Hlen : String.length (k ++ String equals (quoted v))
                   = S (S (S n) + m)).
    { unfold quoted. rewrite length_app_string. simpl String.length.
      rewrite length_app_string. simpl. subst n m. lia. }
    exists [[S n; S (S (S n) + m); S (S n); (S (S n) + m)%nat]].
    split; [|split].
    + intros rest. rewrite Hlen. unfold quoted.
      rewrite app_assoc_string, !app_cons_string, app_snoc_string.
      rewrite (quoteScan_plain k 0 _ Hkq). simpl Nat.add. fold n.
      cbn [quoteScan]. simpl Ascii.eqb. cbv iota.
      rewrite (quoteScan_closing v (S n) (S (S n)) rest Hv). fold m.
      reflexivity.
    + intros c Hc. revert Hc. unfold quoted.
      rewrite commaScan_app, (commaScan_plain k 0 Hkc). simpl Nat.add. fold n.
      cbn [commaScan app]. simpl Ascii.eqb. cbv iota.
      rewrite commaScan_app. cbn [commaScan]. simpl Ascii.eqb. cbv iota.
      rewrite app_nil_r. intros Hc. apply commaScan_range in Hc. fold m in Hc.
      unfold quotedComma. cbn [existsb length nth]. simpl Nat.eqb.
      rewrite Bool.orb_false_r.
      apply andb_true_intro. split; apply Nat.leb_le; lia.
    + intros c Hc. rewrite Hlen in Hc.
      unfold quotedComma. cbn [existsb length nth]. simpl Nat.eqb.
      rewrite Bool.orb_false_r.
      replace (c <=? S (S n) + m)%nat with false
        by (symmetry; apply Nat.leb_gt; lia).
      apply Bool.andb_false_r.
  - exists []. split; [|split].
    + intros rest. rewrite app_assoc_string, (quoteScan_plain k 0 _ Hkq).
      rewrite app_cons_string. cbn [quoteScan]. simpl Ascii.eqb. cbv iota.
      assert (Hvq : free_of [dquote] v = true).
      { apply (free_of_weaken [dquote; comma; space] [dquote]); [|exact Hv].
        intros c [<- | []]. now left. }
      rewrite (quoteScan_plain v _ rest Hvq).
      rewrite length_app_string. simpl. f_equal. lia.
    + intros c. rewrite commaScan_app, (commaScan_plain k 0 Hkc).
      cbn [commaScan app]. simpl Ascii.eqb. cbv iota.
      assert (Hvc : free_of [comma] v = true).
      { apply (free_of_weaken [dquote; comma; space] [comma]); [|exact Hv].
        intros c' [<- | []]. right. now left. }
      rewrite (commaScan_plain v _ Hvc).
      intros [].
    + reflexivity.
Qed.

Lemma insertToken_param (m : gmap string string) :
  insertToken m (paramToken p) = Ok (<[paramKey p := paramValue p]> m).
Proof.
  pose proof (free_of_occurs equals _
                (wf_key equals ltac:(right; right; right; left; reflexivity)))
    as Hk.
  unfold wellFormedParam in Hwf. apply andb_prop in Hwf as [_ Hv].
  destruct p as [k v | k v]; simpl in *; rewrite (insertToken_equals m k _ Hk).
  - rewrite Trim_quoted; [reflexivity|].
    apply (free_of_weaken [dquote; newline] [dquote]); [|exact Hv].
    intros c [<- | []]. now left.
  - rewrite Trim_free; [reflexivity|].
    apply (free_of_weaken [dquote; comma; space] [dquote]); [|exact Hv].
    intros c [<- | []]. now left.
Qed.

End WellFormed.

Lemma digestTokens_params (params : list DigestParam) :
  params <> [] ->
  Forall (fun p => wellFormedParam p = true) params ->
  digestTokens (Join (map paramToken params) ", ") = map paramToken params.
Proof.
  induction params as [|p params IH]; intros Hne Hall; [congruence|].
  apply Forall_cons in Hall as [Hp Hall].
  destruct (paramToken_scan p Hp) as (sp & Hscan & Hquoted & Hinside).
  destruct params as [|p' params].
  - simpl. rewrite (digestTokens_single _ sp Hscan Hquoted).
    now rewrite (paramToken_trim p Hp).
  - change (Join (map paramToken (p :: p' :: params)) ", ")
      with (paramToken p
            ++ String comma (String space (Join (map paramToken (p' :: params)) ", "))).
    rewrite (digestTokens_comma _ sp Hscan Hquoted Hinside).
    rewrite digestTokens_space, (paramToken_trim p Hp).
    cbn [map]. f_equal. apply IH; [discriminate | exact Hall].
Qed.

Lemma insertTokens_params (params : list DigestParam) :
  forall m : gmap string string,
    Forall (fun p => wellFormedParam p = true) params ->
    insertTokens m (map paramToken params)
    = Ok (fold_left (fun m p => <[paramKey p := paramValue p]> m) params m).
Proof.
  induction params as [|p params IH]; intros m Hall; [reflexivity|].
  apply Forall_cons in Hall as [Hp Hall]. cbn [map insertTokens fold_left].
  rewrite (insertToken_param p Hp m). exact (IH _ Hall).
Qed.

Lemma paramMap_snoc (params : list DigestParam) (p : DigestParam) :
  paramMap (app params [p]) = <[paramKey p := paramValue p]> (paramMap params).
Proof. unfold paramMap. now rewrite fold_left_app. Qed.

Lemma paramMap_lookup (params : list DigestParam) :
  NoDup (map paramKey params) ->
  forall p, In p params -> paramMap params !! paramKey p = Some (paramValue p).
Proof.
  induction params as [|q params IH] using rev_ind; intros Hnd p Hin;
    [destruct Hin|].
  rewrite paramMap_snoc. rewrite map_app in Hnd.
  apply NoDup_app in Hnd as (Hnd & Hdisj & _).
  apply in_app_iff in Hin as [Hin | [<- | []]].
  - rewrite lookup_insert_ne; [now apply IH|].
    intros E. apply (Hdisj (paramKey p)).
    + apply list_elem_of_In, in_map, Hin.
    + rewrite <- E. left.
  - apply lookup_insert_eq.
Qed.

(** X22. Writing a parameter list and parsing it gives the parameters back.
    For a non-empty list of parameters whose keys hold no double quote,
    comma, space or equals sign, whose quoted values hold no double quote
    and no newline (commas and spaces are fine) and whose bare values hold
    no double quote, comma or space, the header value made of Digest, a
    space and the parameters joined by a comma and a space is cut into
    exactly those parameters, the parser does not panic, and each field of
    the result is the value of the parameter of that name, or empty when
    there is none.  With keys that differ, every parameter is found under
    its key. *)
Theorem digest_round_trip (req : Request) (params : list DigestParam) :
  params <> [] ->
  Forall (fun p => wellFormedParam p = true) params ->
  Header_Get (ReqHeader req) ProxyAuthorizatonHeader
  = "Digest " ++ Join (map paramToken params) ", " ->
  digestTokens (Join (map paramToken params) ", ") = map paramToken params
  /\ snd (getDigestAuthData req)
     = Ok (Some {| user := field (paramMap params) "username";
                   realm := field (paramMap params) "realm";
                   nonce := field (paramMap params) "nonce";
                   uri := field (paramMap params) "uri";
                   response := field (paramMap params) "response";
                   qop := field (paramMap params) "qop";
                   nc := field (paramMap params) "nc";
                   cnonce := field (paramMap params) "cnonce";
                   method := Method req |})
  /\ (NoDup (map paramKey params) ->
      forall p, In p params ->
                field (paramMap params) (paramKey p) = paramValue p).
Proof.
  intros Hne Hall Hv.
  pose proof (digestTokens_params params Hne Hall) as Ht.
  split; [exact Ht|]. split.
  - rewrite (getDigestAuthData_Digest req _ Hv).
    fold (digestTokens (Join (map paramToken params) ", ")). rewrite Ht.
    now rewrite (insertTokens_params params ∅ Hall).
  - intros Hnd p Hin. unfold field.
    now rewrite (paramMap_lookup params Hnd p Hin).
Qed.

Lemma quotedCommaParams_keys : NoDup (map paramKey quotedCommaParams).
Proof. apply (bool_decide_unpack _). vm_compute. exact I. Qed.

Lemma digest_round_trip_witness :
  digestTokens (Join (map paramToken quotedCommaParams) ", ")
  = map paramToken quotedCommaParams
  /\ field (paramMap quotedCommaParams) "uri" = "/a,b".
Proof.
  destruct (digest_round_trip (requestWithAuth quotedCommaHeader)
              quotedCommaParams) as (Ht & _ & Hf).
  - discriminate.
  - repeat constructor.
  - reflexivity.
  - split; [exact Ht|].
    apply (Hf quotedCommaParams_keys (QuotedParam "uri" "/a,b")).
    right. right. right. now left.
Defined.

(** ** The other two handlers *)

Lemma makeBasicAuthValidator_reply `{BasicAuthStore} (auth : BasicAuth)
    (d : option BasicAuthData) :
  makeBasicAuthValidator auth d
  = Ok (Some {| basic_status := fst (basic_validate auth d) |},
        snd (basic_validate auth d)).
Proof. unfold makeBasicAuthValidator. now destruct (basic_validate auth d). Qed.

(** X23. The Basic request handler behind the actor never panics.  It
    passes a request on, without its Proxy-Authorization header and with
    the user name in the context, exactly when the parser returned
    credentials and [validate] accepted them; otherwise it withholds the
    request and answers with the Basic 407 response, and it writes a
    warning with the user name when credentials were given but refused. *)
Theorem basic_handler_outcomes `{GoLib} `{BasicAuthStore} (authRealm : string)
    (req : Request) (ctx : ProxyCtx) (auth : BasicAuth) :
  exists passed answer ctx' auth',
    basicAuthReqHandler authRealm makeBasicAuthValidator req ctx auth
    = Ok (passed, answer, ctx', auth')
    /\ ((exists d,
            snd (getBasicAuthData req) = Some d
            /\ basic_validate auth (Some d) = (true, auth')
            /\ passed = Some (stripped req) /\ answer = None
            /\ ctx' = setUserData ctx (basic_user d))
        \/ (passed = None
            /\ answer = Some (basicUnauthorized (Some (stripped req)) authRealm)
            /\ UserData ctx' = UserData ctx
            /\ ((snd (getBasicAuthData req) = None /\ auth' = auth /\ ctx' = ctx)
                \/ exists d,
                     snd (getBasicAuthData req) = Some d
                     /\ basic_validate auth (Some d) = (false, auth')
                     /\ Warnings ctx'
                        = app (Warnings ctx)
                            ["failed basic auth. attempt: user=" ++ basic_user d
                             ++ ", addr=" ++ RemoteAddr req]))).
Proof.
  unfold basicAuthReqHandler.
  pose proof (performBasicAuth_request req makeBasicAuthValidator auth) as E1.
  pose proof (performBasicAuth_actor req auth) as E2.
  destruct (performBasicAuth req makeBasicAuthValidator auth) as [req' r].
  simpl in E1, E2. fold (stripped req) in E1. subst req' r.
  destruct (snd (getBasicAuthData req)) as [d|]; simpl.
  - destruct (basic_validate auth (Some d)) as [[|] auth1] eqn:Hv; simpl.
    + do 4 eexists. split; [reflexivity|]. left. exists d. now repeat split.
    + do 4 eexists. split; [reflexivity|]. right.
      repeat split. right. exists d. now repeat split.
  - do 4 eexists. split; [reflexivity|]. right. repeat split. now left.
Qed.

(** X24. The Digest CONNECT handler behind the actor, for a context that
    holds a request.  It panics exactly when the parser does.  Otherwise it
    leaves the request of the context without its Proxy-Authorization
    header, answers [OkConnect] exactly when the parser returned data and
    [validate] accepted it, and on a rejection puts a 407 response with a
    newly issued nonce into the context and hands nothing to the logger. *)
Theorem digest_connect_outcomes `{DigestAuthStore} (emptyReq : Request)
    (authRealm : string) (logger : bool) (host : string) (ctx : ProxyCtx)
    (auth : DigestAuth) (req : Request) :
  ctx_Req ctx = Some req ->
  let run := digestConnectAuthHandler emptyReq authRealm makeDigestAuthValidator
               logger host ctx auth in
  match snd (getDigestAuthData req) with
  | Panic msg => run = Panic msg
  | Ok parsed =>
      exists action ctx' auth' logged,
        run = Ok (action, host, ctx', auth', logged)
        /\ ctx_Req ctx' = Some (stripped req)
        /\ (action = OkConnect
            <-> exists d, parsed = Some d
                          /\ fst (validate auth (Some d)) = true)
        /\ (action = OkConnect ->
            ctx_Resp ctx' = ctx_Resp ctx
            /\ logged = if logger then Some ctx' else None)
        /\ (action = RejectConnect ->
            exists auth1,
              ctx_Resp ctx'
              = Some (digestChallenge (Some (stripped req)) authRealm
                        (fst (newNonce auth1)))
              /\ auth' = snd (newNonce auth1)
              /\ UserData ctx' = UserData ctx
              /\ logged = None)
  end.
Proof.
  intros Hreq run. subst run. unfold digestConnectAuthHandler. rewrite Hreq.
  pose proof (performDigestAuth_request req makeDigestAuthValidator auth) as E1.
  pose proof (performDigestAuth_actor req auth) as E2.
  destruct (performDigestAuth req makeDigestAuthValidator auth) as [req' r].
  simpl in E1, E2. fold (stripped req) in E1. subst req' r.
  destruct (snd (getDigestAuthData req)) as [[d|]|msg]; simpl; [| |reflexivity].
  - destruct (validate auth (Some d)) as [[|] auth1] eqn:Hv; simpl.
    + do 4 eexists. split; [reflexivity|]. split; [reflexivity|].
      split; [split; [intros _; exists d; now rewrite Hv | reflexivity]|].
      split; [now split | discriminate].
    + rewrite digestUnauthorized_actor. simpl.
      do 4 eexists. split; [reflexivity|]. split; [reflexivity|].
      split; [split; [discriminate|]|].
      { intros (d' & [= <-] & Hd). rewrite Hv in Hd. discriminate. }
      split; [discriminate|]. intros _. exists auth1. now repeat split.
  - rewrite digestUnauthorized_actor. simpl.
    do 4 eexists. split; [reflexivity|]. split; [reflexivity|].
    split; [split; [discriminate | intros (d' & [=] & _)]|].
    split; [discriminate|]. intros _. exists auth. now repeat split.
Qed.

Lemma digest_connect_outcomes_witness :
  exists ctx' auth' logged,
    @digestConnectAuthHandler nat (requestTo EmptyString) "r"
      (@makeDigestAuthValidator sampleDigestStore) false "other.org:443"
      (emptyCtx (Some (requestTo "other.org"))) 7%nat
    = Ok (RejectConnect, "other.org:443", ctx', auth', logged)
    /\ auth' = 8%nat.
Proof.
  pose proof (@digest_connect_outcomes sampleDigestStore (requestTo EmptyString)
                "r" false "other.org:443"
                (emptyCtx (Some (requestTo "other.org"))) 7%nat
                (requestTo "other.org") eq_refl) as Hrun.
  simpl in Hrun.
  destruct Hrun as (action & ctx' & auth' & logged & Hrun & _ & Hok & _ & Hrej).
  destruct action.
  - destruct (proj1 Hok eq_refl) as (d & [=] & _).
  - exists ctx', auth', logged. split; [exact Hrun|].
    vm_compute in Hrun. now injection Hrun as _ <- _.
Defined.

(** ** The CONNECT port filter *)

Lemma colon_app (x : string) : ":" ++ x = String colon x.
Proof. reflexivity. Qed.

Lemma Itoa_inj (a b : Z) : Itoa a = Itoa b -> a = b.
Proof.
  unfold Itoa. intros E.
  apply (f_equal DecimalString.NilEmpty.int_of_string) in E.
  rewrite !DecimalString.NilEmpty.isi in E. injection E as E.
  apply (f_equal Z.of_int) in E. now rewrite !DecimalZ.of_to in E.
Qed.

Lemma string_of_uint_no_colon (d : Decimal.uint) :
  free_of [colon] (DecimalString.NilEmpty.string_of_uint d) = true.
Proof. induction d; simpl; auto. Qed.

Lemma Itoa_no_colon (v : Z) : ~ occurs colon (Itoa v).
Proof.
  apply free_of_occurs. unfold Itoa.
  destruct (Z.to_int v); simpl; apply string_of_uint_no_colon.
Qed.

Lemma substring_split (x : string) :
  forall n : nat,
    (n <= String.length x)%nat ->
    x = substring 0 n x ++ substring n (String.length x - n) x.
Proof.
  induction x as [|a x IH]; intros n Hn.
  - simpl in Hn. now replace n with 0%nat by lia.
  - destruct n as [|n].
    + rewrite Nat.sub_0_r, (substring_whole (String a x)). reflexivity.
    + simpl in Hn. simpl. rewrite app_cons_string. f_equal.
      apply IH. lia.
Qed.

Lemma HasSuffix_spec (x y : string) :
  HasSuffix x y = true <-> exists pre, x = pre ++ y.
Proof.
  unfold HasSuffix. split.
  - intros Hs. apply andb_prop in Hs as [Hl He].
    apply Nat.leb_le in Hl. apply String.eqb_eq in He.
    exists (substring 0 (String.length x - String.length y) x).
    assert (Hn : (String.length x - String.length y <= String.length x)%nat)
      by lia.
    pose proof (substring_split x _ Hn) as E.
    replace (String.length x - (String.length x - String.length y))%nat
      with (String.length y) in E by lia.
    now rewrite He in E.
  - intros [pre ->]. rewrite length_app_string.
    apply andb_true_intro. split; [apply Nat.leb_le; lia|].
    replace (String.length pre + String.length y - String.length y)%nat
      with (0 + String.length pre)%nat by lia.
    rewrite substring_shift, substring_whole. apply String.eqb_refl.
Qed.

Lemma last_separator_unique (c : ascii) (a b : string) :
  ~ occurs c a -> ~ occurs c b ->
  forall s1 s2 : string, s1 ++ String c a = s2 ++ String c b -> a = b.
Proof.
  intros Ha Hb. induction s1 as [|x s1 IH]; intros [|y s2] E.
  - now injection E.
  - rewrite app_cons_string in E. injection E as _ E.
    exfalso. apply Ha. now exists s2, b.
  - rewrite app_cons_string in E. injection E as _ E.
    exfalso. apply Hb. now exists s1, a.
  - rewrite !app_cons_string in E. injection E as _ E. now apply (IH s2).
Qed.

Lemma matchesConnectPorts_port (ports : list Z) (name : string) (q : Z) :
  matchesConnectPorts ports (name ++ ":" ++ Itoa q) = bool_decide (q ∈ ports).
Proof.
  unfold matchesConnectPorts. apply eq_true_iff_eq.
  rewrite existsb_exists, bool_decide_eq_true. split.
  - intros (v & Hin & Hs). apply list_elem_of_In in Hin.
    apply HasSuffix_spec in Hs as [pre E]. rewrite !colon_app in E.
    apply last_separator_unique in E; try apply Itoa_no_colon.
    apply Itoa_inj in E. now subst v.
  - intros Hin. exists q. split; [now apply list_elem_of_In|].
    apply HasSuffix_spec. now exists name.
Qed.

Lemma matchesConnectPorts_no_port (ports : list Z) (host : string) :
  ~ occurs colon host -> matchesConnectPorts ports host = false.
Proof.
  intros Hn. unfold matchesConnectPorts.
  apply not_true_is_false. rewrite existsb_exists.
  intros (v & _ & Hs). apply HasSuffix_spec in Hs as [pre ->].
  apply Hn. rewrite colon_app. now exists pre, (Itoa v).
Qed.

(** X6. With a non-empty list of allowed CONNECT ports, a CONNECT request
    whose host ends in a colon and the decimal form of a number is rejected
    by the port filter exactly when that number is not in the list, and a
    host without any colon is always rejected.  With an empty list the
    filter rejects nothing. *)
Theorem connect_port_filter (ports : list Z) :
  ports <> [] ->
  (forall (name : string) (q : Z),
      allowedConnectPortsHandler ports (name ++ ":" ++ Itoa q)
      = if bool_decide (q ∈ ports) then None else Some RejectConnect)
  /\ (forall host : string,
         ~ occurs colon host ->
         allowedConnectPortsHandler ports host = Some RejectConnect)
  /\ (forall host : string, allowedConnectPortsHandler [] host = None).
Proof.
  intros Hne.
  assert (Hlen : (0 <? Z.of_nat (length ports)) = true).
  { apply Z.ltb_lt. destruct ports; [contradiction | simpl; lia]. }
  unfold allowedConnectPortsHandler. rewrite Hlen. repeat split.
  - intros name q. rewrite matchesConnectPorts_port.
    now destruct (bool_decide (q ∈ ports)).
  - intros host Hn. now rewrite matchesConnectPorts_no_port.
Qed.

Lemma connect_port_filter_witness :
  allowedConnectPortsHandler [80; 443] "example.org:8443" = Some RejectConnect
  /\ allowedConnectPortsHandler [80; 443] "example.org:443" = None
  /\ allowedConnectPortsHandler [80; 443] "example.org" = Some RejectConnect.
Proof.
  assert (Hne : [80; 443] <> @nil Z) by discriminate.
  destruct (connect_port_filter [80; 443] Hne) as (Hport & Hbare & _).
  split; [exact (Hport "example.org" 8443)|].
  split; [exact (Hport "example.org" 443)|].
  apply Hbare. apply free_of_occurs. reflexivity.
Defined.
